(** * Peak waveform features: a shallow embedding of
      [spikeinterface/sortingcomponents/features_from_peaks.py]

    The development follows the Python module top to bottom: the two
    module-level default tables, the parameter resolution done at the
    start of [compute_features_from_peaks], the per-chunk worker
    [_compute_features_from_peaks_chunk] and the feature engine
    [compute_features].

    Conventions.
    - Python floats are modelled by exact rationals ([Q]).  Comparisons,
      [min], [max], [abs] and the truncation [int(...)] are exact on
      floats, so the model agrees with the code on them; the IEEE
      operations that rationals cannot express (square roots, norms,
      true division with its infinities) are parameters of the engine.
    - A Python exception is a value of [exn]; a computation that may
      raise returns [result].
    - Dictionaries are [gmap]s.  The inner dictionaries of the default
      tables are objects in a heap, because the code shares them between
      the module-level tables and the per-call [my_params].
    - numpy arrays are nested lists with the part of the shape that the
      data cannot tell kept next to them; shape checks are made where
      numpy makes them, before any element is touched.  The cast of the
      output to [float32] is not modelled.
    - [get_chunk_with_margin], [get_channel_distances] and
      [ChunkRecordingExecutor] live in other modules of the package; the
      first and the last are modelled from their description, the
      distances are a field of the recording.

    The first part is the embedding, the second the vocabulary of the
    statements and the sample data, the third the properties. *)

From Stdlib Require Import ZArith QArith Qabs List Sorted Lia Bool.
From stdpp Require Import gmap strings list fin_maps.

Local Open Scope string_scope.
Local Open Scope Z_scope.

(** ** Exceptions and the error monad *)

Inductive exn : Type :=
| KeyError (key : string)
| AssertionError (msg : string)
| TypeError
| IndexError
| ValueError
| NameError (name : string).

Inductive result (A : Type) : Type :=
| Ok (a : A)
| Raise (e : exn).
Arguments Ok {A} a.
Arguments Raise {A} e.

Definition rbind {A B} (r : result A) (k : A -> result B) : result B :=
  match r with
  | Ok a => k a
  | Raise e => Raise e
  end.

Notation "'let*' x := r 'in' k" := (rbind r (fun x => k))
  (at level 10, x pattern, r at level 100, k at level 200).

Fixpoint mapM {A B} (f : A -> result B) (l : list A) : result (list B) :=
  match l with
  | [] => Ok []
  | a :: l' =>
      let* b := f a in
      let* bs := mapM f l' in
      Ok (b :: bs)
  end.

Fixpoint foldM {A S} (f : S -> A -> result S) (l : list A) (s : S) : result S :=
  match l with
  | [] => Ok s
  | a :: l' => let* s' := f s a in foldM f l' s'
  end.

(** The computation returned. *)
Definition is_ok {A} (r : result A) : bool :=
  match r with Ok _ => true | Raise _ => false end.

(** ** Python values stored in the parameter dictionaries *)

Inductive pyval : Type :=
| VNone
| VInt (z : Z)
| VFloat (q : Q)
| VStr (s : string)
| VMask (m : list (list bool)).

(** An inner dictionary such as [{"peak_sign" : "neg", "ms_before" : None, ...}]. *)
Abbreviation pydict := (gmap string pyval).

(** [d.update(other)]: the keys of [other], in order, overwrite those of [d]. *)
Definition dict_update (d : pydict) (other : list (string * pyval)) : pydict :=
  fold_left (fun acc kv => <[fst kv := snd kv]> acc) other d.

(** The heap of inner dictionaries, by address. *)
Abbreviation heap := (gmap nat pydict).

(** A table maps a feature name to the address of its inner dictionary. *)
Abbreviation table := (gmap string nat).

(** ** The module-level default tables (lines 8-16) *)

Definition amplitude_defaults : pydict :=
  <["peak_sign" := VStr "neg"]> (<["ms_before" := VNone]> (<["ms_after" := VNone]> ∅)).
Definition ptp_defaults : pydict :=
  <["ms_before" := VNone]> (<["ms_after" := VNone]> ∅).
Definition radius_defaults : pydict :=
  <["local_radius_um" := VInt 50]> (<["ms_before" := VNone]> (<["ms_after" := VNone]> ∅)).

Definition one_feature_per_peak_params : table :=
  <["amplitude" := 0%nat]> (<["ptp" := 1%nat]> (<["com" := 2%nat]>
  (<["dist_com_vs_max_ptp_channel" := 3%nat]> (<["energy" := 4%nat]> ∅)))).

Definition n_chans_features_per_peak_params : table :=
  <["amplitude" := 5%nat]> (<["ptp" := 6%nat]> ∅).

(** The heap right after the module is imported: seven distinct inner
    dictionaries, five for the first table and two for the second. *)
Definition initial_heap : heap :=
  <[0%nat := amplitude_defaults]> (<[1%nat := ptp_defaults]> (<[2%nat := radius_defaults]>
  (<[3%nat := radius_defaults]> (<[4%nat := radius_defaults]>
  (<[5%nat := amplitude_defaults]> (<[6%nat := ptp_defaults]> ∅)))))).

(** Truth value of a dictionary in an [if]: non-empty. *)
Definition dict_truthy {K V} `{Countable K} (d : gmap K V) : bool :=
  negb (bool_decide (d = ∅)).

(** ** The recording, as far as this module reads it *)

Record Recording : Type := {
  sampling_frequency : Q;
  num_channels : nat;
  (** one row per channel, one column per coordinate axis *)
  channel_locations : list (list Q);
  (** [get_channel_distances(recording)]: channel x channel *)
  channel_distances : list (list Q);
  (** one samples x channels matrix per segment *)
  segments : list (list (list Q))
}.

Record Peak : Type := {
  segment_ind : Z;
  sample_ind : Z;
  channel_ind : Z;
  amplitude : Q
}.

(** [ndarray.shape] of a two-dimensional array held as a list of rows. *)
Definition np_shape2 {A} (a : list (list A)) : list nat :=
  [length a; match a with [] => 0%nat | r :: _ => length r end].

(** [int(x)] on a float: truncation toward zero. *)
Definition py_int (x : Q) : Z := Z.quot (Qnum x) (Zpos (Qden x)).

(** [round(x)] on a float, the conversion that the description of the
    windows names: nearest integer, ties to even. *)
Definition py_round (x : Q) : Z :=
  let f := Z.div (Qnum x) (Zpos (Qden x)) in
  let r := (2 * (Qnum x - f * Zpos (Qden x)))%Z in
  if (r <? Zpos (Qden x))%Z then f
  else if (Zpos (Qden x) <? r)%Z then (f + 1)%Z
  else if Z.even f then f else (f + 1)%Z.

(** [int(ms * recording.get_sampling_frequency() / 1000.0)] (lines 93, 100). *)
Definition ms_to_samples (ms : Q) (fs : Q) : Z :=
  py_int (ms * fs / (1000 # 1))%Q.

(** ** Parameter resolution (lines 67-129)

    The code of [compute_features_from_peaks] before the chunked run,
    cut into its successive loops.  Every step takes the heap of inner
    dictionaries and returns it: what a step has written stays written
    when a later step raises. *)

(** Lines 67-70.  The condition of the [if] is the module-level table
    [one_feature_per_peak_params] itself, not the argument
    [one_feature_per_peak]; [dict.copy()] is shallow, so the copy holds
    the same addresses as the table. *)
Definition select_table (one_feature_per_peak : bool) : table :=
  if dict_truthy one_feature_per_peak_params
  then one_feature_per_peak_params
  else n_chans_features_per_peak_params.

(** Lines 72-73: [my_params[key].update(feature_params[key])]. *)
Fixpoint apply_overrides (my_params : table)
    (feature_params : list (string * list (string * pyval))) (h : heap)
  : heap * result unit :=
  match feature_params with
  | [] => (h, Ok tt)
  | (key, overrides) :: rest =>
      match my_params !! key with
      | None => (h, Raise (KeyError key))
      | Some addr =>
          match h !! addr with
          | None => (h, Raise (KeyError key))
          | Some d => apply_overrides my_params rest (<[addr := dict_update d overrides]> h)
          end
      end
  end.

(** The messages of the two assertions. *)
Definition msg_unknown : string := "feature is not known...".
Definition msg_com_first : string := "some features requires CoM to be computed first".

(** Lines 75-81: the validation loop, [has_com] threaded through it. *)
Fixpoint check_feature_list (my_params : table) (feature_list : list string)
    (has_com : bool) : result unit :=
  match feature_list with
  | [] => Ok tt
  | feature :: rest =>
      match my_params !! feature with
      | None => Raise (AssertionError msg_unknown)
      | Some _ =>
          let has_com := if String.eqb feature "com" then true else has_com in
          if String.eqb feature "dist_com_vs_max_ptp_channel" && negb has_com
          then Raise (AssertionError msg_com_first)
          else check_feature_list my_params rest has_com
      end
  end.

(** *** The sparsity mask (lines 110-119) *)

(** [np.zeros((n, m))]. *)
Definition np_zeros2 {A} (zero : A) (n m : nat) : list (list A) :=
  repeat (repeat zero m) n.

(** The positions holding [True], counted from [i]. *)
Fixpoint nonzero_from (i : nat) (v : list bool) : list nat :=
  match v with
  | [] => []
  | b :: v' => if b then i :: nonzero_from (S i) v' else nonzero_from (S i) v'
  end.

(** [np.nonzero(v)[0]] on a boolean vector. *)
Definition np_nonzero (v : list bool) : list nat := nonzero_from 0 v.

(** [a[i]] on the first axis of an array, for an index from [range(...)]. *)
Definition index_row {A} (a : list A) (i : nat) : result A :=
  match a !! i with
  | Some r => Ok r
  | None => Raise IndexError
  end.

(** A parameter read as a number; anything else makes numpy's comparison
    or Python's arithmetic raise. *)
Definition as_num (v : pyval) : result Q :=
  match v with
  | VInt z => Ok (inject_Z z)
  | VFloat q => Ok q
  | _ => Raise TypeError
  end.

(** [mask[i, cols] = True]. *)
Definition mask_set_true (mask : list (list bool)) (i : nat) (cols : list nat)
  : result (list (list bool)) :=
  let* row := index_row mask i in
  if forallb (fun j => (j <? length row)%nat) cols
  then Ok (<[i := fold_left (fun r j => <[j := true]> r) cols row]> mask)
  else Raise IndexError.

(** One turn of the loop of lines 116-118. *)
Definition sparsity_step (chan_distances : list (list Q)) (radius : pyval)
    (sparsity_mask : list (list bool)) (main_chan : nat)
  : result (list (list bool)) :=
  let* drow := index_row chan_distances main_chan in
  let* r := as_num radius in
  mask_set_true sparsity_mask main_chan
    (np_nonzero (map (fun d => Qle_bool d r) drow)).

(** Lines 110-118.  The mask is allocated with [peaks.size] rows. *)
Definition build_sparsity_mask (recording : Recording) (peaks_size : nat)
    (radius : pyval) : result (list (list bool)) :=
  foldM (sparsity_step (channel_distances recording) radius)
        (seq 0 (num_channels recording))
        (np_zeros2 false peaks_size (num_channels recording)).

(** *** The window loop (lines 83-123) *)

(** The local variables that the loop reads and writes, and the keys it
    sets on [my_params] itself. *)
Record resolve_state : Type := {
  rs_ms_before : Q;
  rs_ms_after : Q;
  rs_global_times : bool;
  rs_nbefore_max : Z;
  rs_nafter_max : Z;
  rs_chan_locs : option (list (list Q));
  rs_nb_com_dims : option nat
}.

(** [my_params[feature][key]] for reading. *)
Definition entry_get (my_params : table) (h : heap) (feature key : string)
  : result pyval :=
  match my_params !! feature with
  | None => Raise (KeyError feature)
  | Some addr =>
      match h !! addr with
      | None => Raise (KeyError feature)
      | Some d =>
          match d !! key with
          | Some v => Ok v
          | None => Raise (KeyError key)
          end
      end
  end.

(** [my_params[feature][key] = v]. *)
Definition entry_set (my_params : table) (h : heap) (feature key : string)
    (v : pyval) : heap :=
  match my_params !! feature with
  | None => h
  | Some addr =>
      match h !! addr with
      | None => h
      | Some d => <[addr := <[key := v]> d]> h
      end
  end.

(** [key in my_params[feature]]. *)
Definition entry_has (my_params : table) (h : heap) (feature key : string) : bool :=
  match my_params !! feature with
  | None => false
  | Some addr =>
      match h !! addr with
      | None => false
      | Some d => bool_decide (is_Some (d !! key))
      end
  end.

(** Lines 89-91 and 96-98: the running value of [ms_before] (or
    [ms_after]) after looking at the feature's own entry, and whether the
    entry had one. *)
Definition pick_ms (own : pyval) (current : Q) : result (Q * bool) :=
  match own with
  | VNone => Ok (current, false)
  | VInt z => Ok (inject_Z z, true)
  | VFloat q => Ok (q, true)
  | _ => Raise TypeError
  end.

(** One turn of the loop of lines 88-123. *)
Definition resolve_feature (recording : Recording) (peaks_size : nat)
    (my_params : table) (feature : string) (st : resolve_state) (h : heap)
  : heap * result resolve_state :=
  match
    (let* own_before := entry_get my_params h feature "ms_before" in
     pick_ms own_before (rs_ms_before st))
  with
  | Raise e => (h, Raise e)
  | Ok (ms_before, changed_b) =>
      let nbefore := ms_to_samples ms_before (sampling_frequency recording) in
      let h := entry_set my_params h feature "nbefore" (VInt nbefore) in
      match
        (let* own_after := entry_get my_params h feature "ms_after" in
         pick_ms own_after (rs_ms_after st))
      with
      | Raise e => (h, Raise e)
      | Ok (ms_after, changed_a) =>
          let nafter := ms_to_samples ms_after (sampling_frequency recording) in
          let h := entry_set my_params h feature "nafter" (VInt nafter) in
          let global_times :=
            if changed_b || changed_a then false else rs_global_times st in
          let nbefore_max :=
            if (rs_nbefore_max st <? nbefore) then nbefore else rs_nbefore_max st in
          let nafter_max :=
            if (rs_nafter_max st <? nafter) then nafter else rs_nafter_max st in
          let nb_com_dims :=
            if String.eqb feature "com"
            then Some (length (np_shape2 (channel_locations recording)))
            else rs_nb_com_dims st in
          if entry_has my_params h feature "local_radius_um" then
            match
              (let* radius := entry_get my_params h feature "local_radius_um" in
               build_sparsity_mask recording peaks_size radius)
            with
            | Raise e => (h, Raise e)
            | Ok sparsity_mask =>
                (entry_set my_params h feature "sparsity_mask" (VMask sparsity_mask),
                 Ok {| rs_ms_before := ms_before; rs_ms_after := ms_after;
                       rs_global_times := global_times;
                       rs_nbefore_max := nbefore_max; rs_nafter_max := nafter_max;
                       rs_chan_locs := Some (channel_locations recording);
                       rs_nb_com_dims := nb_com_dims |})
            end
          else
            (h, Ok {| rs_ms_before := ms_before; rs_ms_after := ms_after;
                      rs_global_times := global_times;
                      rs_nbefore_max := nbefore_max; rs_nafter_max := nafter_max;
                      rs_chan_locs := rs_chan_locs st;
                      rs_nb_com_dims := nb_com_dims |})
      end
  end.

Fixpoint resolve_windows (recording : Recording) (peaks_size : nat)
    (my_params : table) (feature_list : list string) (st : resolve_state)
    (h : heap) : heap * result resolve_state :=
  match feature_list with
  | [] => (h, Ok st)
  | feature :: rest =>
      match resolve_feature recording peaks_size my_params feature st h with
      | (h', Ok st') => resolve_windows recording peaks_size my_params rest st' h'
      | (h', Raise e) => (h', Raise e)
      end
  end.

(** The resolved [my_params], as handed to the workers: the shallow copy
    of the table with the heap it points into, and the keys that lines
    86-129 add to the copy itself. *)
Record Params : Type := {
  p_table : table;
  p_heap : heap;
  p_global_times : bool;
  p_chan_locs : option (list (list Q));
  p_nb_com_dims : option nat;
  p_nbefore : Z;
  p_nafter : Z;
  p_smoothing : option string;
  p_one_feature_per_peak : bool
}.

(** Lines 67-129 in one piece. *)
Definition resolve_params (recording : Recording) (peaks : list Peak)
    (feature_list : list string)
    (feature_params : list (string * list (string * pyval)))
    (ms_before ms_after : Q) (one_feature_per_peak : bool)
    (smoothing : option string) (h : heap) : heap * result Params :=
  let my_params := select_table one_feature_per_peak in
  match apply_overrides my_params feature_params h with
  | (h1, Raise e) => (h1, Raise e)
  | (h1, Ok _) =>
      match check_feature_list my_params feature_list false with
      | Raise e => (h1, Raise e)
      | Ok _ =>
          let st0 := {| rs_ms_before := ms_before; rs_ms_after := ms_after;
                        rs_global_times := true;
                        rs_nbefore_max := 0; rs_nafter_max := 0;
                        rs_chan_locs := None; rs_nb_com_dims := None |} in
          match resolve_windows recording (length peaks) my_params feature_list st0 h1 with
          | (h2, Raise e) => (h2, Raise e)
          | (h2, Ok st) =>
              (h2, Ok {| p_table := my_params; p_heap := h2;
                         p_global_times := rs_global_times st;
                         p_chan_locs := rs_chan_locs st;
                         p_nb_com_dims := rs_nb_com_dims st;
                         p_nbefore := rs_nbefore_max st;
                         p_nafter := rs_nafter_max st;
                         p_smoothing := smoothing;
                         p_one_feature_per_peak := one_feature_per_peak |})
          end
      end
  end.

(** [feature_params[feature][key]] in a worker. *)
Definition param_get (fp : Params) (feature key : string) : result pyval :=
  entry_get (p_table fp) (p_heap fp) feature key.


(** ** numpy arrays, as the worker and the engine use them *)

(** [traces]: samples x channels; the channel count is part of the shape
    even when there is no sample. *)
Record Traces : Type := {
  tr_channels : nat;
  tr_rows : list (list Q)
}.

(** [wf]: peaks x window samples x channels, with [wf.shape[1]] and
    [wf.shape[2]] kept next to the data. *)
Record Waveforms : Type := {
  wf_width : nat;
  wf_channels : nat;
  wf_data : list (list (list Q))
}.

(** The value of [features]: zero-, one- or two-dimensional. *)
Inductive ndarray : Type :=
| Arr0 (x : Q)
| Arr1 (v : list Q)
| Arr2 (ncols : nat) (rows : list (list Q)).

(** [peak_waveform_features]: peaks x features, or peaks x channels x features. *)
Inductive tensor : Type :=
| Tensor2 (ncols : nat) (rows : list (list Q))
| Tensor3 (nchan nfeat : nat) (data : list (list (list Q))).

(** [np.arange(a, b)] on integers. *)
Definition np_arange (a b : Z) : list Z :=
  map (fun k => a + Z.of_nat k) (seq 0 (Z.to_nat (b - a))).

(** [a[i]] for an integer taken from an index array: a negative index
    counts from the end, anything outside [-len, len) raises. *)
Definition take_row {A} (a : list A) (i : Z) : result A :=
  let len := Z.of_nat (length a) in
  if (0 <=? i) && (i <? len) then index_row a (Z.to_nat i)
  else if (- len <=? i) && (i <? 0) then index_row a (Z.to_nat (i + len))
  else Raise IndexError.

(** [traces[local_peak['sample_ind'][:, None] + np.arange(-nbefore, nafter), :]]
    (lines 259 and 263). *)
Definition extract_waveforms (traces : Traces) (local_peak : list Peak)
    (nbefore nafter : Z) : result Waveforms :=
  let offsets := np_arange (- nbefore) nafter in
  let* data :=
    mapM (fun p => mapM (fun k => take_row (tr_rows traces) (sample_ind p + k)) offsets)
         local_peak in
  Ok {| wf_width := length offsets; wf_channels := tr_channels traces; wf_data := data |}.

(** [np.minimum] and [np.maximum] of two values. *)
Definition np_minimum (x y : Q) : Q := if Qle_bool x y then x else y.
Definition np_maximum (x y : Q) : Q := if Qle_bool x y then y else x.

(** A reduction without identity ([min], [max]) over a vector. *)
Definition reduce (op : Q -> Q -> Q) (l : list Q) : result Q :=
  match l with
  | [] => Raise ValueError
  | x :: l' => Ok (fold_left op l' x)
  end.

(** [w[:, c]]: one channel of a window. *)
Definition column (c : nat) (w : list (list Q)) : list Q :=
  map (fun row => nth c row 0%Q) w.

(** [np.min(wf, axis=1)] and [np.max(wf, axis=1)]: over time only. *)
Definition np_reduce_axis1 (op : Q -> Q -> Q) (wf : Waveforms) : result (list (list Q)) :=
  if (wf_width wf =? 0)%nat then Raise ValueError
  else mapM (fun w => mapM (fun c => reduce op (column c w)) (seq 0 (wf_channels wf)))
            (wf_data wf).

(** [np.min(wf, axis=(1, 2))] and [np.max(wf, axis=(1, 2))]: over time and channels. *)
Definition np_reduce_axis12 (op : Q -> Q -> Q) (wf : Waveforms) : result (list Q) :=
  if (wf_width wf =? 0)%nat || (wf_channels wf =? 0)%nat then Raise ValueError
  else mapM (fun w => reduce op (concat w)) (wf_data wf).

(** [np.abs(wf)]. *)
Definition np_abs (wf : Waveforms) : Waveforms :=
  {| wf_width := wf_width wf; wf_channels := wf_channels wf;
     wf_data := map (map (map Qabs)) (wf_data wf) |}.

(** [np.abs(wf, axis=1)] (line 279): [np.abs] is an element-wise ufunc
    and takes no [axis] keyword, so the call raises before [np.max] runs. *)
Definition np_abs_axis (wf : Waveforms) (axis : nat) : result Waveforms :=
  Raise TypeError.

(** [np.max(a)] without [axis]: over every element, a zero-dimensional result. *)
Definition np_max_all (wf : Waveforms) : result Q :=
  reduce np_maximum (concat (concat (wf_data wf))).

(** [np.ptp(wf, axis=1)]: maximum minus minimum over time, per channel. *)
Definition np_ptp_axis1 (wf : Waveforms) : result (list (list Q)) :=
  if (wf_width wf =? 0)%nat then Raise ValueError
  else mapM (fun w =>
               mapM (fun c =>
                       let* hi := reduce np_maximum (column c w) in
                       let* lo := reduce np_minimum (column c w) in
                       Ok (hi - lo)%Q)
                    (seq 0 (wf_channels wf)))
            (wf_data wf).

(** [np.max(a, axis=1)] on a peaks x channels array. *)
Definition np_max_rows (ncols : nat) (a : list (list Q)) : result (list Q) :=
  if (ncols =? 0)%nat then Raise ValueError
  else mapM (reduce np_maximum) a.

(** [np.where(local_peak['channel_ind'] == main_chan)[0]]. *)
Definition np_where_channel (local_peak : list Peak) (main_chan : nat) : list nat :=
  np_nonzero (map (fun p => (channel_ind p =? Z.of_nat main_chan)) local_peak).

(** [dst[idx] = vals], with one value per index. *)
Fixpoint scatter {A} (idx : list nat) (vals : list A) (dst : list A) : list A :=
  match idx, vals with
  | i :: idx', v :: vals' => scatter idx' vals' (<[i := v]> dst)
  | _, _ => dst
  end.

(** [np.argmax(v)]: the first position of the maximum. *)
Fixpoint argmax_from (best : Q) (best_i i : nat) (l : list Q) : nat :=
  match l with
  | [] => best_i
  | x :: l' =>
      if Qle_bool x best then argmax_from best best_i (S i) l'
      else argmax_from x i (S i) l'
  end.

(** [np.argmax] of one row; an empty row raises. *)
Definition np_argmax (l : list Q) : result nat :=
  match l with
  | [] => Raise ValueError
  | x :: l' => Ok (argmax_from x 0%nat 1%nat l')
  end.

(** Broadcasting a source of [d] columns onto [w] columns in an
    assignment: equal widths, or a single column repeated. *)
Definition broadcast_row (d w : nat) (row : list Q) : list Q :=
  if (d =? w)%nat then row else repeat (nth 0 row 0%Q) w.

(** The widths for which that assignment is accepted. *)
Definition broadcast_ok (d w : nat) : bool := (d =? w)%nat || (d =? 1)%nat.

(** The right-hand side of [target[...] = src] for a target of shape [(n,)]. *)
Definition broadcast_to1 (n : nat) (src : ndarray) : result (list Q) :=
  match src with
  | Arr0 x => Ok (repeat x n)
  | Arr1 v =>
      if broadcast_ok (length v) n then Ok (broadcast_row (length v) n v)
      else Raise ValueError
  | Arr2 ncols [r] =>
      if broadcast_ok ncols n then Ok (broadcast_row ncols n r)
      else Raise ValueError
  | Arr2 _ _ => Raise ValueError
  end.

(** The right-hand side for a target of shape [(n, w)]. *)
Definition broadcast_to2 (n w : nat) (src : ndarray) : result (list (list Q)) :=
  match src with
  | Arr0 x => Ok (repeat (repeat x w) n)
  | Arr1 v =>
      if broadcast_ok (length v) w then Ok (repeat (broadcast_row (length v) w v) n)
      else Raise ValueError
  | Arr2 ncols rows =>
      if broadcast_ok ncols w then
        if (length rows =? n)%nat then Ok (map (broadcast_row ncols w) rows)
        else match rows with
             | [r] => Ok (repeat (broadcast_row ncols w r) n)
             | _ => Raise ValueError
             end
      else Raise ValueError
  end.

(** ** The feature engine: [compute_features] (lines 226-346) *)

Section FeatureEngine.

(** The IEEE operations of numpy that exact rationals do not have:
    [np.linalg.norm] of the entries it is reduced over, [np.sqrt],
    and true division. *)
Variable np_linalg_norm : list Q -> Q.
Variable np_sqrt : Q -> Q.
Variable np_divide : Q -> Q -> Q.

(** [v == s] for a string literal [s]. *)
Definition is_str (v : pyval) (s : string) : bool :=
  match v with
  | VStr s' => String.eqb s' s
  | _ => false
  end.

(** An integer parameter such as [nbefore]. *)
Definition as_int (v : pyval) : result Z :=
  match v with
  | VInt z => Ok z
  | VFloat _ => Raise IndexError
  | _ => Raise TypeError
  end.

(** Lines 265-283.  [features] keeps its previous value when no branch
    assigns it. *)
Definition amplitude_features (fp : Params) (feature : string)
    (wf : Waveforms) (local_peak : list Peak) (features : option ndarray)
  : result (option ndarray) :=
  if (wf_width wf =? 0)%nat then
    Ok (Some (Arr1 (map amplitude local_peak)))
  else if p_one_feature_per_peak fp then
    let* sign := param_get fp feature "peak_sign" in
    if is_str sign "neg" then
      let* v := np_reduce_axis12 np_minimum wf in Ok (Some (Arr1 v))
    else if is_str sign "pos" then
      let* v := np_reduce_axis12 np_maximum wf in Ok (Some (Arr1 v))
    else if is_str sign "both" then
      let* v := np_reduce_axis12 np_maximum (np_abs wf) in Ok (Some (Arr1 v))
    else Ok features
  else
    let* sign := param_get fp feature "peak_sign" in
    if is_str sign "both" then
      let* a := np_abs_axis wf 1 in
      let* m := np_max_all a in Ok (Some (Arr0 m))
    else if is_str sign "neg" then
      let* v := np_reduce_axis1 np_minimum wf in Ok (Some (Arr2 (wf_channels wf) v))
    else if is_str sign "pos" then
      let* v := np_reduce_axis1 np_maximum wf in Ok (Some (Arr2 (wf_channels wf) v))
    else Ok features.

(** Lines 285-290. *)
Definition ptp_features (fp : Params) (wf : Waveforms) : result ndarray :=
  if p_one_feature_per_peak fp then
    let* all_ptps := np_ptp_axis1 wf in
    let* v := np_max_rows (wf_channels wf) all_ptps in
    Ok (Arr1 v)
  else
    let* all_ptps := np_ptp_axis1 wf in
    Ok (Arr2 (wf_channels wf) all_ptps).

(** Lines 295-299: the indices of the peaks of one channel, memoised
    in [_loop_idx]. *)
Definition channel_group (local_peak : list Peak) (loop_idx : gmap nat (list nat))
    (main_chan : nat) : list nat * gmap nat (list nat) :=
  match loop_idx !! main_chan with
  | Some idx => (idx, loop_idx)
  | None =>
      let idx := np_where_channel local_peak main_chan in
      (idx, <[main_chan := idx]> loop_idx)
  end.

(** [feature_params[feature]['sparsity_mask'][main_chan]]. *)
Definition mask_row (fp : Params) (feature : string) (main_chan : nat)
  : result (list bool) :=
  let* m := param_get fp feature "sparsity_mask" in
  match m with
  | VMask m => index_row m main_chan
  | _ => Raise TypeError
  end.

(** [wf[idx] * mask[main_chan]] multiplies along the channel axis; the
    two widths must agree or one of them be 1, whatever the number of
    peaks. *)
Definition mul_mask_ok (ncols nmask : nat) : bool :=
  (nmask =? ncols)%nat || (nmask =? 1)%nat || (ncols =? 1)%nat.

(** One row times the mask row: a value times [True] is the value,
    times [False] is zero. *)
Definition mul_mask (mrow : list bool) (row : list Q) : list Q :=
  match mrow, row with
  | [b], _ => map (fun x => if b then x else 0%Q) row
  | _, [x] => map (fun b : bool => if b then x else 0%Q) mrow
  | _, _ => zip_with (fun x (b : bool) => if b then x else 0%Q) row mrow
  end.

(** [np.sum] of a boolean row. *)
Definition count_true (l : list bool) : nat := length (np_nonzero l).

(** [wf[idx]]. *)
Definition take_peaks (wf : Waveforms) (idx : list nat)
  : result (list (list (list Q))) :=
  mapM (index_row (wf_data wf)) idx.

(** One turn of the loop of lines 294-301 ([energy]). *)
Definition energy_step (fp : Params) (feature : string) (wf : Waveforms)
    (local_peak : list Peak)
    (acc : list Q * gmap nat (list nat)) (main_chan : nat)
  : result (list Q * gmap nat (list nat)) :=
  let '(idx, loop_idx) := channel_group local_peak (snd acc) main_chan in
  let* mrow := mask_row fp feature main_chan in
  let nb_channels := inject_Z (Z.of_nat (count_true mrow)) in
  let* sub := take_peaks wf idx in
  if mul_mask_ok (wf_channels wf) (length mrow) then
    let masked := map (map (mul_mask mrow)) sub in
    let vals :=
      map (fun w => np_divide (np_linalg_norm (concat w)) (np_sqrt nb_channels)) masked in
    Ok (scatter idx vals (fst acc), loop_idx)
  else Raise ValueError.

(** [(wf[idx][:, :, chan_inds]).ptp(axis=1)] (lines 314 and 328). *)
Definition neighbour_ptp (wf : Waveforms) (idx chan_inds : list nat)
  : result (list (list Q)) :=
  let* sub := take_peaks wf idx in
  if forallb (fun c => (c <? wf_channels wf)%nat) chan_inds then
    np_ptp_axis1
      {| wf_width := wf_width wf; wf_channels := length chan_inds;
         wf_data := map (map (fun row => map (fun c => nth c row 0%Q) chan_inds)) sub |}
  else Raise IndexError.

(** [np.sum] of one row. *)
Definition np_sum (l : list Q) : Q := fold_left Qplus l 0%Q.

(** [np.dot(x, locs)] for one row [x]. *)
Definition dot_row (d : nat) (x : list Q) (locs : list (list Q)) : list Q :=
  map (fun c => np_sum (zip_with Qmult x (column c locs))) (seq 0 d).

(** [a.shape[1]] of a two-dimensional array with at least one row. *)
Definition ncols2 (a : list (list Q)) : nat :=
  match a with
  | [] => 0%nat
  | r :: _ => length r
  end.

(** [feature_params['chan_locs']] and [feature_params['nb_com_dims']]. *)
Definition get_chan_locs (fp : Params) : result (list (list Q)) :=
  match p_chan_locs fp with
  | Some locs => Ok locs
  | None => Raise (KeyError "chan_locs")
  end.

Definition get_nb_com_dims (fp : Params) : result nat :=
  match p_nb_com_dims fp with
  | Some nb => Ok nb
  | None => Raise (KeyError "nb_com_dims")
  end.

(** One turn of the loop of lines 305-315 ([com]). *)
Definition com_step (fp : Params) (feature : string) (wf : Waveforms)
    (local_peak : list Peak) (nb_com_dims : nat)
    (acc : list (list Q) * gmap nat (list nat)) (main_chan : nat)
  : result (list (list Q) * gmap nat (list nat)) :=
  let '(idx, loop_idx) := channel_group local_peak (snd acc) main_chan in
  let* mrow := mask_row fp feature main_chan in
  let chan_inds := np_nonzero mrow in
  let* chan_locs := get_chan_locs fp in
  let* local_contact_locations := mapM (index_row chan_locs) chan_inds in
  let* wf_ptp := neighbour_ptp wf idx chan_inds in
  let d := ncols2 chan_locs in
  let vals :=
    map (fun x => map (fun num => np_divide num (np_sum x))
                      (dot_row d x local_contact_locations)) wf_ptp in
  if broadcast_ok d nb_com_dims then
    Ok (scatter idx (map (broadcast_row d nb_com_dims) vals) (fst acc), loop_idx)
  else Raise ValueError.

(** [peak_waveform_features[i, lo:hi]] on the peaks x features tensor. *)
Definition slice_cols (lo hi : nat) (row : list Q) : list Q :=
  firstn (hi - lo) (skipn lo row).

(** [a - b] on two rows, with broadcasting. *)
Definition sub_rows (a b : list Q) : result (list Q) :=
  if (length a =? length b)%nat then Ok (zip_with Qminus a b)
  else match a, b with
       | [x], _ => Ok (map (fun y => x - y)%Q b)
       | _, [y] => Ok (map (fun x => x - y)%Q a)
       | _, _ => Raise ValueError
       end.

(** The widths for which that subtraction is accepted. *)
Definition sub_ok (d w : nat) : bool :=
  (d =? w)%nat || (d =? 1)%nat || (w =? 1)%nat.

(** One turn of the loop of lines 319-331 ([dist_com_vs_max_ptp_channel]).
    [com_start] is a local variable of [compute_features] that only
    the scalar branch with [com] in the list assigns. *)
Definition dist_step (fp : Params) (feature : string) (wf : Waveforms)
    (local_peak : list Peak) (pwf : tensor) (com_start : option nat)
    (acc : list Q * gmap nat (list nat)) (main_chan : nat)
  : result (list Q * gmap nat (list nat)) :=
  let '(idx, loop_idx) := channel_group local_peak (snd acc) main_chan in
  let* mrow := mask_row fp feature main_chan in
  let chan_inds := np_nonzero mrow in
  let* chan_locs := get_chan_locs fp in
  let* local_contact_locations := mapM (index_row chan_locs) chan_inds in
  let* wf_ptp := neighbour_ptp wf idx chan_inds in
  let* max_ptp_channels :=
    (if (length chan_inds =? 0)%nat then Raise ValueError
     else mapM np_argmax wf_ptp) in
  match com_start, pwf with
  | Some com_start, Tensor2 ncols rows =>
      let* nb_com_dims := get_nb_com_dims fp in
      let lo := Nat.min com_start ncols in
      let hi := Nat.min (com_start + nb_com_dims) ncols in
      let* picked_rows := mapM (index_row rows) idx in
      let coms := map (slice_cols lo hi) picked_rows in
      let* picked := mapM (index_row local_contact_locations) max_ptp_channels in
      if sub_ok (ncols2 chan_locs) (hi - lo) then
        let* diffs := mapM (fun ab => sub_rows (fst ab) (snd ab)) (combine picked coms) in
        Ok (scatter idx (map np_linalg_norm diffs) (fst acc), loop_idx)
      else Raise ValueError
  | _, _ => Raise (NameError "com_start")
  end.

(** Lines 256-263: [nbefore] and [nafter] of the current feature.  The
    shared window is only taken while [wf] is still [None]. *)
Definition window_bounds (fp : Params) (feature : string)
    (wf : option Waveforms) : result (Z * Z) :=
  if p_global_times fp && bool_decide (wf = None) then
    Ok (p_nbefore fp, p_nafter fp)
  else
    let* nbefore := param_get fp feature "nbefore" in
    let* nafter := param_get fp feature "nafter" in
    let* nbefore := as_int nbefore in
    let* nafter := as_int nafter in
    Ok (nbefore, nafter).

(** Lines 259 and 263: the windows of the current feature. *)
Definition feature_window (fp : Params) (feature : string) (traces : Traces)
    (local_peak : list Peak) (wf : option Waveforms) : result Waveforms :=
  let* bounds := window_bounds fp feature wf in
  extract_waveforms traces local_peak (fst bounds) (snd bounds).

(** The variables of [compute_features] that live across the turns of
    its loop. *)
Record loop_state : Type := {
  ls_pwf : tensor;
  ls_feature_idx : nat;
  ls_loop_idx : gmap nat (list nat);
  ls_wf : option Waveforms;
  ls_features : option ndarray
}.

(** Lines 265-331: the branch of the current feature.  A name that is
    none of the five leaves [features] as it was. *)
Definition feature_values (fp : Params) (feature : string) (traces : Traces)
    (wf : Waveforms) (local_peak : list Peak) (com_start : option nat)
    (st : loop_state) : result (option ndarray * gmap nat (list nat)) :=
  let n := length local_peak in
  let chans := seq 0 (tr_channels traces) in
  if String.eqb feature "amplitude" then
    let* f := amplitude_features fp feature wf local_peak (ls_features st) in
    Ok (f, ls_loop_idx st)
  else if String.eqb feature "ptp" then
    let* f := ptp_features fp wf in
    Ok (Some f, ls_loop_idx st)
  else if String.eqb feature "energy" then
    let* r := foldM (energy_step fp feature wf local_peak) chans
                    (repeat 0%Q n, ls_loop_idx st) in
    Ok (Some (Arr1 (fst r)), snd r)
  else if String.eqb feature "com" then
    let* nb_com_dims := get_nb_com_dims fp in
    let* r := foldM (com_step fp feature wf local_peak nb_com_dims) chans
                    (repeat (repeat 0%Q nb_com_dims) n, ls_loop_idx st) in
    Ok (Some (Arr2 nb_com_dims (fst r)), snd r)
  else if String.eqb feature "dist_com_vs_max_ptp_channel" then
    let* r := foldM (dist_step fp feature wf local_peak (ls_pwf st) com_start) chans
                    (repeat 0%Q n, ls_loop_idx st) in
    Ok (Some (Arr1 (fst r)), snd r)
  else Ok (ls_features st, ls_loop_idx st).

(** [rows[:, j] = vals]. *)
Definition set_column (j : nat) (vals : list Q) (rows : list (list Q))
  : list (list Q) :=
  zip_with (fun row v => <[j := v]> row) rows vals.

(** [rows[:, lo:hi] = block]. *)
Definition set_columns (lo hi : nat) (block : list (list Q))
    (rows : list (list Q)) : list (list Q) :=
  zip_with (fun row b => (firstn lo row ++ b ++ skipn hi row)%list) rows block.

(** Lines 334-344: the write into [peak_waveform_features] and the new
    [feature_idx]. *)
Definition write_features (fp : Params) (feature : string) (pwf : tensor)
    (feature_idx : nat) (features : ndarray) : result (tensor * nat) :=
  match pwf with
  | Tensor2 ncols rows =>
      if negb (String.eqb feature "com") then
        if (feature_idx <? ncols)%nat then
          let* vals := broadcast_to1 (length rows) features in
          Ok (Tensor2 ncols (set_column feature_idx vals rows), S feature_idx)
        else Raise IndexError
      else
        let* nb_com_dims := get_nb_com_dims fp in
        let lo := Nat.min feature_idx ncols in
        let hi := Nat.min (feature_idx + nb_com_dims) ncols in
        let* block := broadcast_to2 (length rows) (hi - lo) features in
        Ok (Tensor2 ncols (set_columns lo hi block rows),
            (feature_idx + nb_com_dims)%nat)
  | Tensor3 nchan nfeat data =>
      if (feature_idx <? nfeat)%nat then
        let* slab := broadcast_to2 (length data) nchan features in
        Ok (Tensor3 nchan nfeat
              (zip_with (fun chans vals => set_column feature_idx vals chans) data slab),
            S feature_idx)
      else Raise IndexError
  end.

(** One turn of the loop of lines 254-344. *)
Definition feature_step (fp : Params) (traces : Traces) (local_peak : list Peak)
    (com_start : option nat) (st : loop_state) (feature : string)
  : result loop_state :=
  let* wf := feature_window fp feature traces local_peak (ls_wf st) in
  let* fl := feature_values fp feature traces wf local_peak com_start st in
  match fst fl with
  | None => Raise (NameError "features")
  | Some features =>
      let* w := write_features fp feature (ls_pwf st) (ls_feature_idx st) features in
      Ok {| ls_pwf := fst w; ls_feature_idx := snd w; ls_loop_idx := snd fl;
            ls_wf := Some wf; ls_features := Some features |}
  end.

(** [feature_list.index('com')]. *)
Fixpoint list_index (x : string) (l : list string) : option nat :=
  match l with
  | [] => None
  | y :: l' => if String.eqb y x then Some 0%nat else S <$> list_index x l'
  end.

(** Lines 231-247: the allocation of the output, and [com_start]. *)
Definition allocate_output (traces : Traces) (n : nat)
    (feature_list : list string) (fp : Params) : result (tensor * option nat) :=
  if p_one_feature_per_peak fp then
    match list_index "com" feature_list with
    | Some com_start =>
        let* nb_com_dims := get_nb_com_dims fp in
        let feature_size :=
          Z.to_nat (Z.of_nat (length feature_list) + (Z.of_nat nb_com_dims - 1)) in
        Ok (Tensor2 feature_size (np_zeros2 0%Q n feature_size), Some com_start)
    | None =>
        let feature_size := length feature_list in
        Ok (Tensor2 feature_size (np_zeros2 0%Q n feature_size), None)
    end
  else
    let feature_size := length feature_list in
    Ok (Tensor3 (tr_channels traces) feature_size
          (repeat (np_zeros2 0%Q (tr_channels traces) feature_size) n), None).

(** Lines 226-346. *)
Definition compute_features (traces : Traces) (local_peak : list Peak)
    (feature_list : list string) (feature_params : Params) : result tensor :=
  let* alloc := allocate_output traces (length local_peak) feature_list feature_params in
  let* st :=
    foldM (feature_step feature_params traces local_peak (snd alloc)) feature_list
          {| ls_pwf := fst alloc; ls_feature_idx := 0%nat; ls_loop_idx := ∅;
             ls_wf := None; ls_features := None |} in
  Ok (ls_pwf st).

(** ** The chunk worker and the chunked run (lines 131-223) *)

(** Modelled from the spec: [get_chunk_with_margin] of
    [spikeinterface.core], called with [add_zeros=True].  It reads the
    sample range [start_frame - margin, end_frame + margin) of a segment
    as a samples x channels buffer, zero-padding past the signal edges,
    and returns the buffer with the left and right margins used.
    [padded_sample] is the sample at one absolute position. *)
Definition padded_sample (nchan : nat) (recording_segment : list (list Q)) (i : Z)
  : list Q :=
  if (0 <=? i) && (i <? Z.of_nat (length recording_segment))
  then nth (Z.to_nat i) recording_segment (repeat 0%Q nchan)
  else repeat 0%Q nchan.

Definition get_chunk_with_margin (nchan : nat) (recording_segment : list (list Q))
    (start_frame end_frame margin : Z) : Traces * Z * Z :=
  ({| tr_channels := nchan;
      tr_rows :=
        map (fun k => padded_sample nchan recording_segment (start_frame - margin + k))
            (np_arange 0 (end_frame - start_frame + 2 * margin)) |},
   margin, margin).

(** [np.searchsorted(a, v)] on a sorted array: the first position whose
    element is not less than [v]. *)
Fixpoint np_searchsorted (a : list Z) (v : Z) : nat :=
  match a with
  | [] => 0%nat
  | x :: a' => if (x <? v) then S (np_searchsorted a' v) else 0%nat
  end.

(** [a[i0:i1]]. *)
Definition py_slice {A} (a : list A) (i0 i1 : nat) : list A :=
  firstn (i1 - i0) (skipn i0 a).

(** The dictionary [worker_ctx]. *)
Record WorkerCtx : Type := {
  ctx_recording : Recording;
  ctx_peaks : list Peak;
  ctx_margin : Z;
  ctx_feature_list : list string;
  ctx_feature_params : Params
}.

(** Lines 164-185. *)
Definition _init_worker_compute_features_from_peaks (recording : Recording)
    (peaks : list Peak) (margin : Z) (feature_list : list string)
    (feature_params : Params) : WorkerCtx :=
  {| ctx_recording := recording; ctx_peaks := peaks; ctx_margin := margin;
     ctx_feature_list := feature_list; ctx_feature_params := feature_params |}.

(** Lines 204-214: the peaks of the chunk, with buffer-local sample indices. *)
Definition local_peaks_of_chunk (peaks : list Peak) (segment_index : nat)
    (start_frame end_frame left_margin : Z) : list Peak :=
  let i0 := np_searchsorted (map segment_ind peaks) (Z.of_nat segment_index) in
  let i1 := np_searchsorted (map segment_ind peaks) (Z.of_nat segment_index + 1) in
  let peak_in_segment := py_slice peaks i0 i1 in
  let i0 := np_searchsorted (map sample_ind peak_in_segment) start_frame in
  let i1 := np_searchsorted (map sample_ind peak_in_segment) end_frame in
  let local_peaks := py_slice peak_in_segment i0 i1 in
  map (fun p => {| segment_ind := segment_ind p;
                   sample_ind := sample_ind p - (start_frame - left_margin);
                   channel_ind := channel_ind p;
                   amplitude := amplitude p |}) local_peaks.

(** Lines 188-223. *)
Definition _compute_features_from_peaks_chunk (segment_index : nat)
    (start_frame end_frame : Z) (worker_ctx : WorkerCtx) : result tensor :=
  let recording := ctx_recording worker_ctx in
  let* recording_segment := index_row (segments recording) segment_index in
  let '(traces, left_margin, right_margin) :=
    get_chunk_with_margin (num_channels recording) recording_segment
      start_frame end_frame (ctx_margin worker_ctx) in
  let local_peaks :=
    local_peaks_of_chunk (ctx_peaks worker_ctx) segment_index
      start_frame end_frame left_margin in
  compute_features traces local_peaks
    (ctx_feature_list worker_ctx) (ctx_feature_params worker_ctx).

(** Modelled from the spec: [ChunkRecordingExecutor.run] of
    [spikeinterface.core.job_tools], with [handle_returns=True].  Given
    the per-chunk function and the chunks that the job arguments cut the
    recording into, each a segment index with a start and an end frame,
    it returns the per-chunk outputs in chunk order; the first chunk that
    raises aborts the run. *)
Definition ChunkRecordingExecutor_run {A} (func : nat -> Z -> Z -> result A)
    (chunks : list (nat * Z * Z)) : result (list A) :=
  mapM (fun c => func (fst (fst c)) (snd (fst c)) (snd c)) chunks.

(** [np.concatenate] along the first axis. *)
Definition concat_two (a b : tensor) : result tensor :=
  match a, b with
  | Tensor2 c rows, Tensor2 c' rows' =>
      if (c =? c')%nat then Ok (Tensor2 c (rows ++ rows')%list) else Raise ValueError
  | Tensor3 c f data, Tensor3 c' f' data' =>
      if (c =? c')%nat && (f =? f')%nat then Ok (Tensor3 c f (data ++ data')%list)
      else Raise ValueError
  | _, _ => Raise ValueError
  end.

(** [np.concatenate(arrays)]; an empty list raises. *)
Definition np_concatenate (arrays : list tensor) : result tensor :=
  match arrays with
  | [] => Raise ValueError
  | a :: rest => foldM concat_two rest a
  end.

(** Lines 19-156.  [chunks] stands for the job arguments; the heap of
    the module-level dictionaries goes in and comes out. *)
Definition compute_features_from_peaks (recording : Recording) (peaks : list Peak)
    (feature_list : list string)
    (feature_params : list (string * list (string * pyval)))
    (ms_before ms_after : Q) (one_feature_per_peak : bool)
    (smoothing : option string) (chunks : list (nat * Z * Z)) (h : heap)
  : heap * result tensor :=
  match resolve_params recording peaks feature_list feature_params
          ms_before ms_after one_feature_per_peak smoothing h with
  | (h', Raise e) => (h', Raise e)
  | (h', Ok my_params) =>
      let margin := Z.max (p_nbefore my_params) (p_nafter my_params) in
      let worker_ctx :=
        _init_worker_compute_features_from_peaks recording peaks margin
          feature_list my_params in
      (h',
       let* peak_waveform_features :=
         ChunkRecordingExecutor_run
           (fun segment_index start_frame end_frame =>
              _compute_features_from_peaks_chunk segment_index start_frame end_frame
                worker_ctx)
           chunks in
       np_concatenate peak_waveform_features)
  end.

End FeatureEngine.

(** * Vocabulary of the statements *)

(** ** Errors and entries of the resolution *)

(** The exception is one of the two assertions of the validation loop. *)
Definition is_assertion (e : exn) : bool :=
  match e with
  | AssertionError _ => true
  | _ => false
  end.

(** The feature name is a key of the table. *)
Definition known_in (tbl : table) (feature : string) : Prop :=
  is_Some (tbl !! feature).

(** [n] is [x] truncated toward zero. *)
Definition truncates (x : Q) (n : Z) : Prop :=
  ((0 <= x)%Q /\ (inject_Z n <= x)%Q /\ (x < inject_Z n + 1)%Q) \/
  ((x <= 0)%Q /\ (inject_Z n - 1 < x)%Q /\ (x <= inject_Z n)%Q).

(** The entry of a feature that the table and the heap hold. *)
Definition entry_at (tbl : table) (h : heap) (f : string) (d : pydict) : Prop :=
  exists addr, tbl !! f = Some addr /\ h !! addr = Some d.

(** The state of the window loop at its start (lines 83-86). *)
Definition st_start (ms_before ms_after : Q) : resolve_state :=
  {| rs_ms_before := ms_before; rs_ms_after := ms_after; rs_global_times := true;
     rs_nbefore_max := 0; rs_nafter_max := 0;
     rs_chan_locs := None; rs_nb_com_dims := None |}.

(** ** Peaks and chunks *)

(** The order the peaks come in: by segment, then by sample. *)
Definition peak_le (p q : Peak) : Prop :=
  segment_ind p < segment_ind q \/
  (segment_ind p = segment_ind q /\ sample_ind p <= sample_ind q).

(** The peak list is sorted in that order. *)
Definition peaks_sorted (peaks : list Peak) : Prop := StronglySorted peak_le peaks.

(** A peak belongs to the chunk [(segment, start, end)]. *)
Definition in_chunk (c : nat * Z * Z) (p : Peak) : bool :=
  (segment_ind p =? Z.of_nat (fst (fst c))) &&
  ((snd (fst c) <=? sample_ind p) && (sample_ind p <? snd c)).

(** The peak with its sample index counted from [offset]. *)
Definition rebase (offset : Z) (p : Peak) : Peak :=
  {| segment_ind := segment_ind p; sample_ind := sample_ind p - offset;
     channel_ind := channel_ind p; amplitude := amplitude p |}.

(** [c] lies before [c']: an earlier segment, or the same segment and
    an end not after the start of [c']. *)
Definition chunk_before (c c' : nat * Z * Z) : Prop :=
  (fst (fst c) < fst (fst c'))%nat \/
  (fst (fst c) = fst (fst c') /\ snd c <= snd (fst c')).

(** Every chunk lies before the chunks listed after it. *)
Definition chunks_ordered (chunks : list (nat * Z * Z)) : Prop :=
  StronglySorted chunk_before chunks.

(** Every peak lies in one of the chunks. *)
Definition chunks_cover (chunks : list (nat * Z * Z)) (peaks : list Peak) : Prop :=
  Forall (fun p => existsb (fun c => in_chunk c p) chunks = true) peaks.

(** The window of a peak, read from the recording itself with zeros
    past the edges of the segment. *)
Definition segment_window (nchan : nat) (recording_segment : list (list Q))
    (p : Peak) (nbefore nafter : Z) : list (list Q) :=
  map (fun k => padded_sample nchan recording_segment (sample_ind p + k))
      (np_arange (- nbefore) nafter).

(** ** The default request, peak by peak

    [amplitude] and [ptp] with one value per peak, written for one peak
    and its window, in the words of the feature descriptions.  The
    engine is compared with these. *)

(** A reduction over a non-empty list. *)
Definition fold1 (op : Q -> Q -> Q) (l : list Q) : Q :=
  match l with
  | [] => 0%Q
  | x :: l' => fold_left op l' x
  end.

(** The stored amplitude when the window has no sample; else the
    minimum, the maximum or the maximum absolute value over the window,
    time and channels together. *)
Definition peak_amplitude (sign : string) (stored : Q) (w : list (list Q)) : Q :=
  match w with
  | [] => stored
  | _ :: _ =>
      if String.eqb sign "neg" then fold1 np_minimum (concat w)
      else if String.eqb sign "pos" then fold1 np_maximum (concat w)
      else fold1 np_maximum (map Qabs (concat w))
  end.

(** The largest, over the channels, of maximum minus minimum over time. *)
Definition peak_ptp (nchan : nat) (w : list (list Q)) : Q :=
  fold1 np_maximum
    (map (fun c => (fold1 np_maximum (column c w) - fold1 np_minimum (column c w))%Q)
         (seq 0 nchan)).

(** Some value of [wf] other than [None]. *)
Definition empty_wf : Waveforms :=
  {| wf_width := 0; wf_channels := 0; wf_data := [] |}.

(** The window bounds of a feature, by whether it is the first of the
    request ([wf] still [None]) or a later one. *)
Definition bounds_at (fp : Params) (feature : string) (first : bool) : result (Z * Z) :=
  window_bounds fp feature (if first then None else Some empty_wf).

(** The configured sign of [amplitude]. *)
Definition sign_of (fp : Params) : string :=
  match param_get fp "amplitude" "peak_sign" with
  | Ok (VStr s) => s
  | _ => ""
  end.

(** The segment a peak belongs to. *)
Definition segment_of (recording : Recording) (p : Peak) : list (list Q) :=
  nth (Z.to_nat (segment_ind p)) (segments recording) [].

(** The value of one feature for one peak. *)
Definition peak_value (recording : Recording) (fp : Params) (feature : string)
    (first : bool) (p : Peak) : Q :=
  match bounds_at fp feature first with
  | Ok (nbefore, nafter) =>
      let w := segment_window (num_channels recording) (segment_of recording p)
                 p nbefore nafter in
      if String.eqb feature "amplitude"
      then peak_amplitude (sign_of fp) (amplitude p) w
      else peak_ptp (num_channels recording) w
  | Raise _ => 0%Q
  end.

(** The output row of one peak: one value per requested feature. *)
Fixpoint peak_row (recording : Recording) (fp : Params) (feature_list : list string)
    (first : bool) (p : Peak) : list Q :=
  match feature_list with
  | [] => []
  | feature :: rest =>
      peak_value recording fp feature first p :: peak_row recording fp rest false p
  end.

(** What the comparison asks of the request: scalar mode, at least one
    channel, only [amplitude] (with one of the three signs) and [ptp],
    windows resolved, non-negative and within the margin, and a [ptp]
    window with at least one sample.  First, the window of one
    feature is resolved and fits the margin. *)
Definition window_fits (fp : Params) (margin : Z) (feature : string) (first : bool)
  : bool :=
  match bounds_at fp feature first with
  | Ok (nbefore, nafter) =>
      (0 <=? nbefore) && (nbefore <=? margin) && (0 <=? nafter) && (nafter <=? margin)
      && (String.eqb feature "amplitude" || (0 <? nbefore + nafter))
  | Raise _ => false
  end.

(** The sign of [amplitude] is one of the three the engine knows. *)
Definition sign_ok (fp : Params) : bool :=
  match param_get fp "amplitude" "peak_sign" with
  | Ok (VStr s) => String.eqb s "neg" || String.eqb s "pos" || String.eqb s "both"
  | _ => false
  end.

(** The feature is [amplitude] or [ptp] and its windows fit. *)
Definition feature_ok (fp : Params) (margin : Z) (feature : string) : bool :=
  ((String.eqb feature "amplitude" && sign_ok fp) || String.eqb feature "ptp")
  && window_fits fp margin feature true && window_fits fp margin feature false.

(** The request as a whole. *)
Definition request_ok (recording : Recording) (fp : Params) (margin : Z)
    (feature_list : list string) : bool :=
  p_one_feature_per_peak fp && (0 <? num_channels recording)%nat
  && forallb (feature_ok fp margin) feature_list.

(** Every sample row of every segment has one entry per channel. *)
Definition recording_ok (recording : Recording) : bool :=
  forallb (forallb (fun row => (length row =? num_channels recording)%nat))
          (segments recording).

(** ** The sparsity mask *)

(** The channels of one row of the distance matrix within the radius,
    ties included. *)
Definition within_radius (r : Q) (drow : list Q) : list bool :=
  map (fun d => Qle_bool d r) drow.

(** ** The resolution, turn by turn *)

(** The entry of a feature after its turn of the window loop: the two
    sample counts, and the mask when the entry has a radius. *)
Definition window_entry (d : pydict) (nbefore nafter : Z)
    (mask : option (list (list bool))) : pydict :=
  let d2 := <["nafter" := VInt nafter]> (<["nbefore" := VInt nbefore]> d) in
  match mask with
  | Some m => <["sparsity_mask" := VMask m]> d2
  | None => d2
  end.

(** Every occurrence of [dist_com_vs_max_ptp_channel] has a [com] before it. *)
Definition com_precedes_dist (l : list string) : Prop :=
  forall l1 l2, l = (l1 ++ "dist_com_vs_max_ptp_channel" :: l2)%list -> In "com" l1.

(** Every inner dictionary that the table points to is in the heap. *)
Definition heap_holds (tbl : table) (h : heap) : Prop :=
  forall f addr, tbl !! f = Some addr -> is_Some (h !! addr).

(** The window stored for a feature lies within the two bounds. *)
Definition windows_within (tbl : table) (h : heap) (nbefore_max nafter_max : Z)
    (f : string) : Prop :=
  exists nbefore nafter,
    entry_get tbl h f "nbefore" = Ok (VInt nbefore) /\
    entry_get tbl h f "nafter" = Ok (VInt nafter) /\
    nbefore <= nbefore_max /\ nafter <= nafter_max.

(** The window stored for a feature is the given one. *)
Definition same_window (tbl : table) (h : heap) (nbefore nafter : Z) (f : string) : Prop :=
  entry_get tbl h f "nbefore" = Ok (VInt nbefore) /\
  entry_get tbl h f "nafter" = Ok (VInt nafter).

(** The peak lies in one of the chunks. *)
Definition in_some_chunk (chunks : list (nat * Z * Z)) (p : Peak) : bool :=
  existsb (fun c => in_chunk c p) chunks.

(** ** The per-channel request, peak by peak and channel by channel *)

(** The sign of [amplitude] is one of the two that the per-channel
    branch computes. *)
Definition one_sided_sign (fp : Params) : bool :=
  match param_get fp "amplitude" "peak_sign" with
  | Ok (VStr s) => String.eqb s "neg" || String.eqb s "pos"
  | _ => false
  end.

(** The value of one feature for one peak on one channel: the minimum
    or the maximum over the window for [amplitude], maximum minus
    minimum over the window for [ptp]. *)
Definition peak_channel_value (recording : Recording) (fp : Params) (feature : string)
    (first : bool) (p : Peak) (c : nat) : Q :=
  match bounds_at fp feature first with
  | Ok (nbefore, nafter) =>
      let x := column c (segment_window (num_channels recording)
                           (segment_of recording p) p nbefore nafter) in
      if String.eqb feature "amplitude" then
        if String.eqb (sign_of fp) "neg" then fold1 np_minimum x else fold1 np_maximum x
      else (fold1 np_maximum x - fold1 np_minimum x)%Q
  | Raise _ => 0%Q
  end.

(** One value per requested feature, for one peak and one channel. *)
Fixpoint peak_channel_row (recording : Recording) (fp : Params)
    (feature_list : list string) (first : bool) (p : Peak) (c : nat) : list Q :=
  match feature_list with
  | [] => []
  | feature :: rest =>
      peak_channel_value recording fp feature first p c
        :: peak_channel_row recording fp rest false p c
  end.

(** The output block of one peak: channels x features. *)
Definition peak_block (recording : Recording) (fp : Params)
    (feature_list : list string) (p : Peak) : list (list Q) :=
  map (peak_channel_row recording fp feature_list true p)
      (seq 0 (num_channels recording)).

(** The window of a feature is resolved, fits the margin and has at
    least one sample. *)
Definition window_holds (fp : Params) (margin : Z) (feature : string) (first : bool)
  : bool :=
  match bounds_at fp feature first with
  | Ok (nbefore, nafter) =>
      (0 <=? nbefore) && (nbefore <=? margin) && (0 <=? nafter) && (nafter <=? margin)
      && (0 <? nbefore + nafter)
  | Raise _ => false
  end.

(** The feature is [amplitude] with sign [neg] or [pos], or [ptp], and
    its windows hold. *)
Definition channel_feature_ok (fp : Params) (margin : Z) (feature : string) : bool :=
  ((String.eqb feature "amplitude" && one_sided_sign fp) || String.eqb feature "ptp")
  && window_holds fp margin feature true && window_holds fp margin feature false.

(** The per-channel request as a whole. *)
Definition channel_request_ok (fp : Params) (margin : Z) (feature_list : list string)
  : bool :=
  negb (p_one_feature_per_peak fp) && forallb (channel_feature_ok fp margin) feature_list.

(** ** The features with a neighbourhood, peak by peak *)

(** The peak is on one of the first [nchan] channels. *)
Definition on_channel (nchan : nat) (p : Peak) : bool :=
  (0 <=? channel_ind p) && (channel_ind p <? Z.of_nat nchan).

(** The row of the mask for the channel of a peak. *)
Definition peak_mask (m : list (list bool)) (p : Peak) : list bool :=
  nth (Z.to_nat (channel_ind p)) m [].

(** Every entry of [_loop_idx] holds the indices of the peaks of its channel. *)
Definition memo_ok (local_peak : list Peak) (loop_idx : gmap nat (list nat)) : Prop :=
  forall c idx, loop_idx !! c = Some idx -> idx = np_where_channel local_peak c.

(** Maximum minus minimum over the window, on each of the given channels. *)
Definition neighbour_ptps (chan_inds : list nat) (w : list (list Q)) : list Q :=
  map (fun c => (fold1 np_maximum (column c w) - fold1 np_minimum (column c w))%Q)
      chan_inds.

Section PeakFormulas.

Variable np_linalg_norm : list Q -> Q.
Variable np_sqrt : Q -> Q.
Variable np_divide : Q -> Q -> Q.

(** [energy] of one peak: the norm of its window with the channels
    outside the neighbourhood of its channel set to zero, over the
    square root of the size of the neighbourhood; zero for a peak on
    none of the channels. *)
Definition peak_energy (m : list (list bool)) (nchan : nat) (p : Peak)
    (w : list (list Q)) : Q :=
  if on_channel nchan p then
    np_divide (np_linalg_norm (concat (map (mul_mask (peak_mask m p)) w)))
              (np_sqrt (inject_Z (Z.of_nat (count_true (peak_mask m p)))))
  else 0%Q.

End PeakFormulas.

Section PeakFormulas2.

Variable np_linalg_norm : list Q -> Q.
Variable np_sqrt : Q -> Q.
Variable np_divide : Q -> Q -> Q.

(** The locations of the neighbours of a channel. *)
Definition neighbour_locations (chan_locs : list (list Q)) (chan_inds : list nat)
  : list (list Q) :=
  map (fun c => nth c chan_locs []) chan_inds.

(** [com] of one peak: the locations of the neighbours of its channel
    weighted by their peak-to-peak amplitude over the window, over the
    sum of the weights, then fitted to [nb_com_dims] columns; zeros for
    a peak on none of the channels. *)
Definition peak_com (m : list (list bool)) (chan_locs : list (list Q))
    (nb_com_dims nchan : nat) (p : Peak) (w : list (list Q)) : list Q :=
  if on_channel nchan p then
    let chan_inds := np_nonzero (peak_mask m p) in
    let wf_ptp := neighbour_ptps chan_inds w in
    let d := ncols2 chan_locs in
    broadcast_row d nb_com_dims
      (map (fun num => np_divide num (np_sum wf_ptp))
           (dot_row d wf_ptp (neighbour_locations chan_locs chan_inds)))
  else repeat 0%Q nb_com_dims.

End PeakFormulas2.

(** [a - b] on two rows as numpy broadcasts them; nothing when the
    widths do not fit. *)
Definition row_difference (a b : list Q) : list Q :=
  match sub_rows a b with
  | Ok v => v
  | Raise _ => []
  end.

(** The first position of the maximum of a row; 0 for an empty row. *)
Definition argmax_of (l : list Q) : nat :=
  match np_argmax l with
  | Ok j => j
  | Raise _ => 0%nat
  end.

Section PeakFormulas3.

Variable np_linalg_norm : list Q -> Q.

(** [dist_com_vs_max_ptp_channel] of one peak: the norm of the
    difference between the location of the neighbour of its channel
    with the largest peak-to-peak amplitude over the window and the
    centre of mass [coms] read from the row of the peak; zero for a
    peak on none of the channels. *)
Definition peak_dist (m : list (list bool)) (chan_locs : list (list Q)) (nchan : nat)
    (p : Peak) (w : list (list Q)) (coms : list Q) : Q :=
  if on_channel nchan p then
    let chan_inds := np_nonzero (peak_mask m p) in
    let wf_ptp := neighbour_ptps chan_inds w in
    np_linalg_norm
      (row_difference
         (nth (argmax_of wf_ptp) (neighbour_locations chan_locs chan_inds) [])
         coms)
  else 0%Q.

End PeakFormulas3.

(** The sign is one of the three that the amplitude branch tests for. *)
Definition known_sign (s : string) : bool :=
  String.eqb s "neg" || String.eqb s "pos" || String.eqb s "both".

(** The configuration with another value under ['smoothing']. *)
Definition with_smoothing (fp : Params) (smoothing : option string) : Params :=
  {| p_table := p_table fp; p_heap := p_heap fp; p_global_times := p_global_times fp;
     p_chan_locs := p_chan_locs fp; p_nb_com_dims := p_nb_com_dims fp;
     p_nbefore := p_nbefore fp; p_nafter := p_nafter fp;
     p_smoothing := smoothing;
     p_one_feature_per_peak := p_one_feature_per_peak fp |}.

(** ** The same call twice *)

(** What the window loop reads from an inner dictionary. *)
Definition window_reads (d : pydict) : option pyval * option pyval * option pyval :=
  (d !! "ms_before", d !! "ms_after", d !! "local_radius_um").

(** The two heaps hold dictionaries at the same addresses, and the window
    loop reads the same from them. *)
Definition same_reads (h h2 : heap) : Prop :=
  forall a, window_reads <$> (h !! a) = window_reads <$> (h2 !! a).

(** A sequence of [d.update(...)] on the inner dictionaries at the given
    addresses. *)
Definition heap_updates (ws : list (nat * list (string * pyval))) (h : heap) : heap :=
  fold_left (fun acc w => alter (fun d => dict_update d (snd w)) (fst w) acc) ws h.

(** The part of such a sequence that goes to one address. *)
Definition updates_at (a : nat) (ws : list (nat * list (string * pyval)))
  : list (string * pyval) :=
  flat_map (fun w => if (fst w =? a)%nat then snd w else []) ws.

(** The key is none of those that the window loop reads. *)
Definition not_read (kv : string * pyval) : Prop :=
  fst kv <> "ms_before" /\ fst kv <> "ms_after" /\ fst kv <> "local_radius_um".

(** * Sample recordings and peaks *)

Module Sample.

(** Two channels 10 um apart on a line, four samples, 30 kHz. *)
Definition pair_2d : Recording :=
  {| sampling_frequency := 30000 # 1;
     num_channels := 2;
     channel_locations := [[0%Q; 0%Q]; [10 # 1; 0%Q]];
     channel_distances := [[0%Q; 10 # 1]; [10 # 1; 0%Q]];
     segments := [[[1%Q; 2 # 1]; [-3 # 1; 4 # 1]; [5 # 1; -6 # 1]; [7 # 1; 8 # 1]]] |}.

(** The same two channels with three coordinates each. *)
Definition pair_3d : Recording :=
  {| sampling_frequency := 30000 # 1;
     num_channels := 2;
     channel_locations := [[0%Q; 0%Q; 0%Q]; [10 # 1; 0%Q; 0%Q]];
     channel_distances := [[0%Q; 10 # 1]; [10 # 1; 0%Q]];
     segments := [[[1%Q; 2 # 1]; [-3 # 1; 4 # 1]; [5 # 1; -6 # 1]; [7 # 1; 8 # 1]]] |}.

(** The first recording sampled at 1750 Hz. *)
Definition pair_slow : Recording :=
  {| sampling_frequency := 1750 # 1;
     num_channels := 2;
     channel_locations := channel_locations pair_2d;
     channel_distances := channel_distances pair_2d;
     segments := segments pair_2d |}.

Definition peak_a : Peak :=
  {| segment_ind := 0; sample_ind := 1; channel_ind := 0; amplitude := -5 # 1 |}.
Definition peak_b : Peak :=
  {| segment_ind := 0; sample_ind := 3; channel_ind := 1; amplitude := -7 # 1 |}.

Definition one_peak : list Peak := [peak_a].
Definition two_peaks : list Peak := [peak_a; peak_b].
Definition three_peaks : list Peak :=
  [peak_a; {| segment_ind := 0; sample_ind := 2; channel_ind := 0; amplitude := -6 # 1 |}; peak_b].

(** Exact stand-ins for the three IEEE parameters in closed examples
    that never reach them. *)
Definition norm1 (l : list Q) : Q := fold_left Qplus (map Qabs l) 0%Q.
Definition sqrt_id (x : Q) : Q := x.

(** The configuration resolved for the default request
    [["amplitude"; "ptp"]] with one sample before and after each peak. *)
Definition default_params : Params :=
  match snd (resolve_params pair_2d two_peaks ["amplitude"; "ptp"] []
               (1 # 30) (1 # 30) true None initial_heap) with
  | Ok p => p
  | Raise _ =>
      {| p_table := ∅; p_heap := ∅; p_global_times := true; p_chan_locs := None;
         p_nb_com_dims := None; p_nbefore := 0; p_nafter := 0; p_smoothing := None;
         p_one_feature_per_peak := true |}
  end.

End Sample.

Module Resolved.

(** The configuration that a successful resolution returns. *)
Definition params_of (r : heap * result Params) : Params :=
  match snd r with
  | Ok p => p
  | Raise _ => Sample.default_params
  end.

(** [["amplitude"; "ptp"]] with 2 ms before the peak for [amplitude]
    alone, 1 ms otherwise, at 30 kHz. *)
Definition with_override : Params :=
  params_of (resolve_params Sample.pair_2d Sample.two_peaks ["amplitude"; "ptp"]
               [("amplitude", [("ms_before", VFloat (2 # 1))])]
               1%Q 1%Q true None initial_heap).

(** [["ptp"; "amplitude"]] with the global 1 ms alone. *)
Definition without_override : Params :=
  params_of (resolve_params Sample.pair_2d Sample.two_peaks ["ptp"; "amplitude"] []
               1%Q 1%Q true None initial_heap).

(** [["amplitude"; "ptp"]] in per-channel mode, one sample before and
    after each peak. *)
Definition channel_params : Params :=
  match snd (resolve_params Sample.pair_2d Sample.two_peaks ["amplitude"; "ptp"] []
               (1 # 30) (1 # 30) false None initial_heap) with
  | Ok p => p
  | Raise _ => Sample.default_params
  end.

End Resolved.

Module Engine.

(** The whole segment of the two-channel recording as one chunk, with a
    margin of one sample, and its two peaks. *)
Definition whole_buffer : Traces :=
  fst (fst (get_chunk_with_margin 2 (nth 0 (segments Sample.pair_2d) []) 0 4 1)).
Definition buffer_peaks : list Peak := local_peaks_of_chunk Sample.two_peaks 0 0 4 1.

(** The configurations resolved for [["energy"]] and for
    [["com"; "dist_com_vs_max_ptp_channel"]], one sample before and
    after each peak. *)
Definition energy_params : Params :=
  Resolved.params_of
    (resolve_params Sample.pair_2d Sample.two_peaks ["energy"] []
       (1 # 30) (1 # 30) true None initial_heap).
Definition com_params : Params :=
  Resolved.params_of
    (resolve_params Sample.pair_2d Sample.two_peaks
       ["com"; "dist_com_vs_max_ptp_channel"] []
       (1 # 30) (1 # 30) true None initial_heap).

(** The configuration resolved for [["amplitude"]] with the sign [abs]. *)
Definition abs_params : Params :=
  Resolved.params_of
    (resolve_params Sample.pair_2d Sample.two_peaks ["amplitude"]
       [("amplitude", [("peak_sign", VStr "abs")])]
       (1 # 30) (1 # 30) true None initial_heap).

(** The windows of the two peaks: samples 0-1 and 2-3 of the segment. *)
Definition windows : Waveforms :=
  {| wf_width := 2; wf_channels := 2;
     wf_data := [[[1%Q; 2 # 1]; [-3 # 1; 4 # 1]]; [[5 # 1; -6 # 1]; [7 # 1; 8 # 1]]] |}.

End Engine.

(** * Properties of the parameter resolution *)

(** The table handed to the rest of the function is the scalar one in
    both modes: the test of line 67 is on a non-empty dictionary. *)
Lemma select_table_any_mode (one_feature_per_peak : bool) :
  select_table one_feature_per_peak = one_feature_per_peak_params.
Proof. destruct one_feature_per_peak; vm_compute; reflexivity. Qed.

(** C2, at the request [["com"]] with [one_feature_per_peak = False] on
    the two-channel recording with two peaks: the per-channel table is
    not the one consulted, the validation loop accepts [com], [energy]
    and [dist_com_vs_max_ptp_channel], and the whole resolution returns
    a configuration instead of raising the unknown-feature assertion. *)
Theorem C2_per_channel_mode_accepts_com :
  n_chans_features_per_peak_params !! "com" = None /\
  select_table false = one_feature_per_peak_params /\
  check_feature_list (select_table false)
    ["com"; "energy"; "dist_com_vs_max_ptp_channel"] false = Ok tt /\
  is_ok (snd (resolve_params Sample.pair_2d Sample.two_peaks ["com"] []
                1%Q 1%Q false None initial_heap)) = true.
Proof. repeat split; vm_compute; reflexivity. Qed.

(** C3, at the request [["amplitude"; "ptp"]] where only [amplitude]
    overrides [ms_before] (2 ms against a global 1 ms, 30 kHz): the
    window of [ptp], which has no override, is resolved to 60 samples,
    the override of [amplitude], not to the 30 samples of the global
    default; the shared-window flag is off. *)
Theorem C3_override_reaches_later_feature :
  exists p,
    snd (resolve_params Sample.pair_2d Sample.two_peaks ["amplitude"; "ptp"]
           [("amplitude", [("ms_before", VFloat (2 # 1))])]
           1%Q 1%Q true None initial_heap) = Ok p /\
    param_get p "amplitude" "nbefore" = Ok (VInt 60) /\
    param_get p "ptp" "nbefore" = Ok (VInt 60) /\
    ms_to_samples 1%Q (sampling_frequency Sample.pair_2d) = 30 /\
    p_global_times p = false.
Proof. eexists. repeat split; vm_compute; reflexivity. Qed.


(** C6, on two channels within the radius of each other: with one peak
    the mask has one row and the turn of the second channel raises
    [IndexError]; with three peaks the mask has three rows for two
    channels, the last one all false. *)
Theorem C6_mask_has_one_row_per_peak :
  build_sparsity_mask Sample.pair_2d (length Sample.one_peak) (VInt 50)
    = Raise IndexError /\
  snd (resolve_params Sample.pair_2d Sample.one_peak ["energy"] []
         1%Q 1%Q true None initial_heap) = Raise IndexError /\
  build_sparsity_mask Sample.pair_2d (length Sample.three_peaks) (VInt 50)
    = Ok [[true; true]; [true; true]; [false; false]].
Proof. repeat split; vm_compute; reflexivity. Qed.

(** C10, with two runs in a row on [["amplitude"]]: the first passes
    the override [ms_before = 2] for [amplitude], the second passes no
    override.  The first run leaves the override in the module-level
    entry of [amplitude]; the second run then resolves 60 samples and
    switches the shared window off, where the same call on a fresh
    module resolves 30 samples and keeps it on. *)
Theorem C10_overrides_persist_in_module_tables :
  let run1 :=
    resolve_params Sample.pair_2d Sample.two_peaks ["amplitude"]
      [("amplitude", [("ms_before", VFloat (2 # 1))])] 1%Q 1%Q true None initial_heap in
  let run2 :=
    resolve_params Sample.pair_2d Sample.two_peaks ["amplitude"] []
      1%Q 1%Q true None (fst run1) in
  let fresh :=
    resolve_params Sample.pair_2d Sample.two_peaks ["amplitude"] []
      1%Q 1%Q true None initial_heap in
  entry_get one_feature_per_peak_params initial_heap "amplitude" "ms_before" = Ok VNone /\
  entry_get one_feature_per_peak_params (fst run1) "amplitude" "ms_before"
    = Ok (VFloat (2 # 1)) /\
  (exists p2 p0,
     snd run2 = Ok p2 /\ snd fresh = Ok p0 /\
     param_get p2 "amplitude" "nbefore" = Ok (VInt 60) /\
     param_get p0 "amplitude" "nbefore" = Ok (VInt 30) /\
     p_global_times p2 = false /\ p_global_times p0 = true).
Proof.
  cbv zeta. split; [vm_compute; reflexivity|].
  split; [vm_compute; reflexivity|].
  do 2 eexists. repeat split; vm_compute; reflexivity.
Qed.

(** ** The validation loop and the dependency between features *)

(** The dependency assertion fails exactly at an occurrence of
    [dist_com_vs_max_ptp_channel] that no [com] precedes, provided the
    loop gets that far: every name up to it is a key of the table. *)
Lemma check_feature_list_com_first (tbl : table) (l : list string) (has_com : bool) :
  check_feature_list tbl l has_com = Raise (AssertionError msg_com_first) <->
  has_com = false /\
  exists l1 l2,
    l = (l1 ++ "dist_com_vs_max_ptp_channel" :: l2)%list /\
    ~ In "com" l1 /\
    Forall (known_in tbl) (l1 ++ ["dist_com_vs_max_ptp_channel"])%list.
Proof.
  revert has_com.
  induction l as [|f rest IH]; intros has_com; simpl.
  - split; [discriminate|].
    intros [_ (l1 & l2 & H & _)]. destruct l1; discriminate.
  - destruct (tbl !! f) as [addr|] eqn:Hf.
    + destruct (String.eqb_spec f "com") as [->|Hcom].
      * simpl. rewrite IH. split; [intros [? _]; discriminate|].
        intros [_ (l1 & l2 & H & Hn & _)].
        destruct l1 as [|x l1]; simpl in H; inversion H; subst.
        exfalso. apply Hn. left. reflexivity.
      * destruct (String.eqb_spec f "dist_com_vs_max_ptp_channel") as [->|Hd].
        -- destruct has_com; simpl.
           ++ rewrite IH. split; intros [? _]; discriminate.
           ++ split; [|reflexivity]. intros _. split; [reflexivity|].
              exists [], rest. split; [reflexivity|]. split; [intros []|].
              constructor; [|constructor]. unfold known_in. rewrite Hf. eauto.
        -- simpl. rewrite IH. split.
           ++ intros [Hc (l1 & l2 & -> & Hn & HF)]. split; [exact Hc|].
              exists (f :: l1), l2. split; [reflexivity|]. split.
              ** intros [Heq|Hin]; [congruence|auto].
              ** simpl. constructor; [|exact HF]. unfold known_in. rewrite Hf. eauto.
           ++ intros [Hc (l1 & l2 & H & Hn & HF)]. split; [exact Hc|].
              destruct l1 as [|x l1]; simpl in H; inversion H; subst; [congruence|].
              exists l1, l2. split; [reflexivity|]. split.
              ** intros Hin. apply Hn. right. exact Hin.
              ** simpl in HF. inversion HF; subst. assumption.
    + split; [intros H; inversion H|].
      intros [_ (l1 & l2 & H & _ & HF)].
      destruct l1 as [|x l1]; simpl in H; inversion H; subst;
        simpl in HF; inversion HF as [|? ? Hk ?]; subst;
        unfold known_in in Hk; rewrite Hf in Hk; destruct Hk; discriminate.
Qed.

Lemma foldM_raise_inv {A S} (f : S -> A -> result S) (l : list A) (s : S) (e : exn) :
  foldM f l s = Raise e -> exists s' a, f s' a = Raise e.
Proof.
  revert s. induction l as [|a l IH]; intros s; simpl; [discriminate|].
  destruct (f s a) as [s'|e'] eqn:Hf; simpl.
  - apply IH.
  - intros H. inversion H; subst. eauto.
Qed.

Lemma index_row_not_assertion {A} (a : list A) (i : nat) (e : exn) :
  index_row a i = Raise e -> is_assertion e = false.
Proof. unfold index_row. destruct (a !! i); intros H; inversion H; reflexivity. Qed.

Lemma as_num_not_assertion (v : pyval) (e : exn) :
  as_num v = Raise e -> is_assertion e = false.
Proof. destruct v; simpl; intros H; inversion H; reflexivity. Qed.

Lemma entry_get_not_assertion (tbl : table) (h : heap) (f k : string) (e : exn) :
  entry_get tbl h f k = Raise e -> is_assertion e = false.
Proof.
  unfold entry_get. destruct (tbl !! f) as [addr|]; [|intros H; inversion H; reflexivity].
  destruct (h !! addr) as [d|]; [|intros H; inversion H; reflexivity].
  destruct (d !! k); intros H; inversion H; reflexivity.
Qed.

Lemma pick_ms_not_assertion (own : pyval) (current : Q) (e : exn) :
  pick_ms own current = Raise e -> is_assertion e = false.
Proof. destruct own; simpl; intros H; inversion H; reflexivity. Qed.

Lemma build_sparsity_mask_not_assertion (recording : Recording) (n : nat)
    (radius : pyval) (e : exn) :
  build_sparsity_mask recording n radius = Raise e -> is_assertion e = false.
Proof.
  unfold build_sparsity_mask. intros H.
  apply foldM_raise_inv in H as (mask & c & H).
  unfold sparsity_step in H.
  destruct (index_row (channel_distances recording) c) as [drow|e1] eqn:H1; simpl in H;
    [|inversion H; subst; eapply index_row_not_assertion; eassumption].
  destruct (as_num radius) as [r|e2] eqn:H2; simpl in H;
    [|inversion H; subst; eapply as_num_not_assertion; eassumption].
  unfold mask_set_true in H.
  destruct (index_row mask c) as [row|e3] eqn:H3; simpl in H;
    [|inversion H; subst; eapply index_row_not_assertion; eassumption].
  destruct (forallb _ _); inversion H; reflexivity.
Qed.

Lemma resolve_feature_not_assertion (recording : Recording) (n : nat) (tbl : table)
    (f : string) (st : resolve_state) (h h' : heap) (e : exn) :
  resolve_feature recording n tbl f st h = (h', Raise e) -> is_assertion e = false.
Proof.
  unfold resolve_feature.
  destruct (entry_get tbl h f "ms_before") as [vb|e1] eqn:H1; simpl;
    [|intros H; inversion H; subst; eapply entry_get_not_assertion; eassumption].
  destruct (pick_ms vb (rs_ms_before st)) as [[msb cb]|e2] eqn:H2;
    [|intros H; inversion H; subst; eapply pick_ms_not_assertion; eassumption].
  match goal with |- context [entry_get tbl ?hh f "ms_after"] =>
    destruct (entry_get tbl hh f "ms_after") as [va|e3] eqn:H3; simpl;
    [|intros H; inversion H; subst; eapply entry_get_not_assertion; eassumption] end.
  destruct (pick_ms va (rs_ms_after st)) as [[msa ca]|e4] eqn:H4;
    [|intros H; inversion H; subst; eapply pick_ms_not_assertion; eassumption].
  match goal with |- context [entry_has tbl ?hh f "local_radius_um"] =>
    destruct (entry_has tbl hh f "local_radius_um"); [|intros H; inversion H] end.
  match goal with |- context [entry_get tbl ?hh f "local_radius_um"] =>
    destruct (entry_get tbl hh f "local_radius_um") as [r|e5] eqn:H5; simpl;
    [|intros H; inversion H; subst; eapply entry_get_not_assertion; eassumption] end.
  destruct (build_sparsity_mask recording n r) as [m|e6] eqn:H6;
    intros H; inversion H; subst.
  eapply build_sparsity_mask_not_assertion; eassumption.
Qed.

Lemma resolve_windows_not_assertion (recording : Recording) (n : nat) (tbl : table)
    (l : list string) (st : resolve_state) (h h' : heap) (e : exn) :
  resolve_windows recording n tbl l st h = (h', Raise e) -> is_assertion e = false.
Proof.
  revert st h. induction l as [|f l IH]; intros st h; simpl; [intros H; inversion H|].
  destruct (resolve_feature recording n tbl f st h) as [h1 [st1|e1]] eqn:Hf.
  - apply IH.
  - intros H. inversion H; subst. eapply resolve_feature_not_assertion; eassumption.
Qed.

Lemma apply_overrides_not_assertion (tbl : table)
    (fp : list (string * list (string * pyval))) (h h' : heap) (e : exn) :
  apply_overrides tbl fp h = (h', Raise e) -> is_assertion e = false.
Proof.
  revert h. induction fp as [|[key ov] fp IH]; intros h; simpl; [intros H; inversion H|].
  destruct (tbl !! key) as [addr|]; [|intros H; inversion H; reflexivity].
  destruct (h !! addr) as [d|]; [|intros H; inversion H; reflexivity].
  apply IH.
Qed.

(** C4 fails as stated: with [com] requested after
    [dist_com_vs_max_ptp_channel], [com] is in the request and the
    resolution still raises the dependency assertion. *)
Lemma C4_counterexample_com_after_dist :
  In "com" ["dist_com_vs_max_ptp_channel"; "com"] /\
  snd (resolve_params Sample.pair_2d Sample.two_peaks
         ["dist_com_vs_max_ptp_channel"; "com"] [] 1%Q 1%Q true None initial_heap)
    = Raise (AssertionError msg_com_first).
Proof. split; [right; left; reflexivity | vm_compute; reflexivity]. Qed.

(** A failed resolution is the result of the whole call, whatever the
    chunks are: no chunk is processed. *)
Lemma resolution_error_stops_run (np_linalg_norm : list Q -> Q) (np_sqrt : Q -> Q)
    (np_divide : Q -> Q -> Q) (recording : Recording) (peaks : list Peak)
    (feature_list : list string)
    (feature_params : list (string * list (string * pyval)))
    (ms_before ms_after : Q) (one_feature_per_peak : bool)
    (smoothing : option string) (chunks : list (nat * Z * Z)) (h : heap) (e : exn) :
  snd (resolve_params recording peaks feature_list feature_params
         ms_before ms_after one_feature_per_peak smoothing h) = Raise e ->
  snd (compute_features_from_peaks np_linalg_norm np_sqrt np_divide recording peaks
         feature_list feature_params ms_before ms_after one_feature_per_peak
         smoothing chunks h) = Raise e.
Proof.
  unfold compute_features_from_peaks.
  destruct (resolve_params _ _ _ _ _ _ _ _ _) as [h' [p|e']]; simpl; [discriminate|].
  intros H. inversion H. reflexivity.
Qed.

(** C4, amended: the resolution raises the dependency assertion if and
    only if the overrides were applied without error and some occurrence
    of [dist_com_vs_max_ptp_channel] in the request has no [com] before
    it, every name before that occurrence being a known feature.  A
    [com] placed after it does not count.  When the resolution raises,
    the whole call raises the same error for every choice of chunks. *)
Theorem C4_dependency_error_iff_no_com_before
    (recording : Recording) (peaks : list Peak) (feature_list : list string)
    (feature_params : list (string * list (string * pyval)))
    (ms_before ms_after : Q) (one_feature_per_peak : bool)
    (smoothing : option string) (h : heap) :
  let r := resolve_params recording peaks feature_list feature_params
             ms_before ms_after one_feature_per_peak smoothing h in
  (snd r = Raise (AssertionError msg_com_first) <->
   snd (apply_overrides (select_table one_feature_per_peak) feature_params h) = Ok tt /\
   exists l1 l2,
     feature_list = (l1 ++ "dist_com_vs_max_ptp_channel" :: l2)%list /\
     ~ In "com" l1 /\
     Forall (known_in one_feature_per_peak_params) l1) /\
  (forall np_linalg_norm np_sqrt np_divide chunks,
     snd r = Raise (AssertionError msg_com_first) ->
     snd (compute_features_from_peaks np_linalg_norm np_sqrt np_divide recording peaks
            feature_list feature_params ms_before ms_after one_feature_per_peak
            smoothing chunks h) = Raise (AssertionError msg_com_first)).
Proof.
  cbv zeta. split.
  2: { intros. apply resolution_error_stops_run. assumption. }
  assert (Hdist : known_in one_feature_per_peak_params "dist_com_vs_max_ptp_channel")
    by (unfold known_in; vm_compute; eauto).
  assert (Hlist : forall l1 : list string,
             Forall (known_in one_feature_per_peak_params)
                    (l1 ++ ["dist_com_vs_max_ptp_channel"])%list <->
             Forall (known_in one_feature_per_peak_params) l1).
  { intros l1. rewrite Forall_app. split; [intros [? _]; assumption|].
    intros ?. split; [assumption|]. constructor; [exact Hdist | constructor]. }
  unfold resolve_params. rewrite select_table_any_mode.
  destruct (apply_overrides one_feature_per_peak_params feature_params h)
    as [h1 [[]|e1]] eqn:Ha; simpl.
  - destruct (check_feature_list one_feature_per_peak_params feature_list false)
      as [[]|e2] eqn:Hc.
    + split.
      * intros H.
        destruct (resolve_windows _ _ _ _ _ _) as [h2 [st|e3]] eqn:Hw; simpl in H;
          [discriminate|].
        inversion H; subst. apply resolve_windows_not_assertion in Hw. discriminate.
      * intros [_ (l1 & l2 & Hl & Hn & HF)].
        assert (check_feature_list one_feature_per_peak_params feature_list false
                = Raise (AssertionError msg_com_first)) as Hr.
        { apply check_feature_list_com_first. split; [reflexivity|].
          exists l1, l2. split; [exact Hl|]. split; [exact Hn|].
          apply Hlist. exact HF. }
        rewrite Hr in Hc. discriminate.
    + simpl. split.
      * intros H. inversion H; subst. split; [reflexivity|].
        apply check_feature_list_com_first in Hc as [_ (l1 & l2 & Hl & Hn & HF)].
        exists l1, l2. split; [exact Hl|]. split; [exact Hn|]. apply Hlist. exact HF.
      * intros [_ (l1 & l2 & Hl & Hn & HF)].
        assert (check_feature_list one_feature_per_peak_params feature_list false
                = Raise (AssertionError msg_com_first)) as Hr.
        { apply check_feature_list_com_first. split; [reflexivity|].
          exists l1, l2. split; [exact Hl|]. split; [exact Hn|].
          apply Hlist. exact HF. }
        rewrite Hr in Hc. inversion Hc. reflexivity.
  - split.
    + intros H. inversion H; subst.
      apply apply_overrides_not_assertion in Ha. discriminate.
    + intros [H _]. discriminate.
Qed.

(** ** Millisecond windows in samples *)

Lemma py_int_truncates (x : Q) : truncates x (py_int x).
Proof.
  destruct x as [n d]. unfold truncates, py_int, Qle, Qlt. simpl.
  pose proof (Z.quot_rem' n (Zpos d)) as Hqr.
  destruct (Z_le_gt_dec 0 n) as [Hn|Hn].
  - left. pose proof (Z.rem_bound_pos n (Zpos d) Hn ltac:(lia)) as Hr. nia.
  - right.
    pose proof (Z.rem_bound_abs n (Zpos d) ltac:(lia)) as Ha.
    pose proof (Z.rem_sign_mul n (Zpos d) ltac:(lia)) as Hs.
    assert (Z.rem n (Zpos d) <= 0) as Hle by nia.
    assert (- Zpos d < Z.rem n (Zpos d)) as Hgt by lia.
    nia.
Qed.

Lemma entry_get_ok_inv (tbl : table) (h : heap) (f k : string) (v : pyval) :
  entry_get tbl h f k = Ok v -> exists d, entry_at tbl h f d /\ d !! k = Some v.
Proof.
  unfold entry_get, entry_at.
  destruct (tbl !! f) as [addr|]; [|discriminate].
  destruct (h !! addr) as [d|] eqn:Hd; [|discriminate].
  destruct (d !! k) as [v'|] eqn:Hk; [|discriminate].
  intros H. inversion H; subst. eauto.
Qed.

Lemma entry_set_at (tbl : table) (h : heap) (f k : string) (v : pyval) (d : pydict) :
  entry_at tbl h f d -> entry_at tbl (entry_set tbl h f k v) f (<[k := v]> d).
Proof.
  intros (addr & Ht & Hh). unfold entry_at, entry_set. rewrite Ht, Hh.
  exists addr. split; [reflexivity|]. apply lookup_insert_eq.
Qed.

Lemma entry_get_at (tbl : table) (h : heap) (f k : string) (d : pydict) :
  entry_at tbl h f d ->
  entry_get tbl h f k = match d !! k with Some v => Ok v | None => Raise (KeyError k) end.
Proof. intros (addr & Ht & Hh). unfold entry_get. rewrite Ht, Hh. reflexivity. Qed.

(** What one turn of the window loop leaves in the entry of its feature. *)
Lemma resolve_feature_entry (recording : Recording) (n : nat) (tbl : table)
    (f : string) (st st' : resolve_state) (h h' : heap) :
  resolve_feature recording n tbl f st h = (h', Ok st') ->
  entry_get tbl h' f "nbefore"
    = Ok (VInt (ms_to_samples (rs_ms_before st') (sampling_frequency recording))) /\
  entry_get tbl h' f "nafter"
    = Ok (VInt (ms_to_samples (rs_ms_after st') (sampling_frequency recording))).
Proof.
  unfold resolve_feature.
  destruct (entry_get tbl h f "ms_before") as [vb|e1] eqn:H1; simpl; [|discriminate].
  apply entry_get_ok_inv in H1 as (d & Hat & _).
  destruct (pick_ms vb (rs_ms_before st)) as [[msb cb]|e2]; [|discriminate].
  set (nb := ms_to_samples msb (sampling_frequency recording)).
  pose proof (entry_set_at tbl h f "nbefore" (VInt nb) d Hat) as Hat1.
  destruct (entry_get tbl (entry_set tbl h f "nbefore" (VInt nb)) f "ms_after")
    as [va|e3]; simpl; [|discriminate].
  destruct (pick_ms va (rs_ms_after st)) as [[msa ca]|e4]; [|discriminate].
  set (na := ms_to_samples msa (sampling_frequency recording)).
  pose proof (entry_set_at tbl _ f "nafter" (VInt na) _ Hat1) as Hat2.
  destruct (entry_has tbl _ f "local_radius_um").
  - destruct (entry_get tbl _ f "local_radius_um") as [r|e5]; simpl; [|discriminate].
    destruct (build_sparsity_mask recording n r) as [m|e6]; [|discriminate].
    intros H. inversion H; subst; clear H. simpl.
    pose proof (entry_set_at tbl _ f "sparsity_mask" (VMask m) _ Hat2) as Hat3.
    rewrite !(entry_get_at _ _ _ _ _ Hat3).
    rewrite lookup_insert_ne by discriminate.
    rewrite lookup_insert_ne by discriminate.
    rewrite lookup_insert_eq.
    rewrite lookup_insert_ne by discriminate.
    rewrite lookup_insert_eq. split; reflexivity.
  - intros H. inversion H; subst; clear H. simpl.
    rewrite !(entry_get_at _ _ _ _ _ Hat2).
    rewrite lookup_insert_ne by discriminate.
    rewrite lookup_insert_eq.
    rewrite lookup_insert_eq. split; reflexivity.
Qed.



(** ** Geometry dimensionality *)

(** [len(a.shape)] of a two-dimensional array is 2, whatever its columns. *)
Lemma np_shape2_length {A} (a : list (list A)) : length (np_shape2 a) = 2%nat.
Proof. reflexivity. Qed.

Lemma resolve_feature_nb_com_dims (recording : Recording) (n : nat) (tbl : table)
    (f : string) (st st' : resolve_state) (h h' : heap) :
  resolve_feature recording n tbl f st h = (h', Ok st') ->
  rs_nb_com_dims st' = if String.eqb f "com" then Some 2%nat else rs_nb_com_dims st.
Proof.
  unfold resolve_feature.
  destruct (entry_get tbl h f "ms_before") as [vb|]; simpl; [|discriminate].
  destruct (pick_ms vb (rs_ms_before st)) as [[msb cb]|]; [|discriminate].
  destruct (entry_get tbl _ f "ms_after") as [va|]; simpl; [|discriminate].
  destruct (pick_ms va (rs_ms_after st)) as [[msa ca]|]; [|discriminate].
  destruct (entry_has tbl _ f "local_radius_um").
  - destruct (entry_get tbl _ f "local_radius_um") as [r|]; simpl; [|discriminate].
    destruct (build_sparsity_mask recording n r); [|discriminate].
    intros H. inversion H; subst. reflexivity.
  - intros H. inversion H; subst. reflexivity.
Qed.

Lemma resolve_windows_nb_com_dims (recording : Recording) (n : nat) (tbl : table)
    (l : list string) (st st' : resolve_state) (h h' : heap) :
  resolve_windows recording n tbl l st h = (h', Ok st') ->
  (In "com" l \/ rs_nb_com_dims st = Some 2%nat) ->
  rs_nb_com_dims st' = Some 2%nat.
Proof.
  revert st h. induction l as [|f l IH]; intros st h; simpl.
  - intros H [[]|Hst]. inversion H; subst. exact Hst.
  - destruct (resolve_feature recording n tbl f st h) as [h1 [st1|e1]] eqn:Hf;
      [|discriminate].
    intros Hw Hin. apply (IH _ _ Hw).
    apply resolve_feature_nb_com_dims in Hf.
    destruct (String.eqb_spec f "com") as [->|Hne].
    + right. exact Hf.
    + destruct Hin as [[Heq|Hin]|Hst]; [congruence | left; exact Hin |].
      right. rewrite Hf. exact Hst.
Qed.

(** X5.  Whenever [com] is requested and the resolution succeeds, the
    recorded [nb_com_dims] is 2: it is the number of axes of the
    locations array, channels and coordinates, not the number of
    coordinates. *)
Lemma resolve_params_nb_com_dims (recording : Recording) (peaks : list Peak)
    (feature_list : list string)
    (feature_params : list (string * list (string * pyval)))
    (ms_before ms_after : Q) (one_feature_per_peak : bool)
    (smoothing : option string) (h : heap) (p : Params) :
  In "com" feature_list ->
  snd (resolve_params recording peaks feature_list feature_params
         ms_before ms_after one_feature_per_peak smoothing h) = Ok p ->
  p_nb_com_dims p = Some 2%nat.
Proof.
  intros Hin. unfold resolve_params.
  destruct (apply_overrides _ _ _) as [h1 [[]|]]; simpl; [|discriminate].
  destruct (check_feature_list _ _ _); simpl; [|discriminate].
  destruct (resolve_windows _ _ _ _ _ _) as [h2 [st|]] eqn:Hw; simpl; [|discriminate].
  intros H. inversion H; subst. simpl.
  eapply resolve_windows_nb_com_dims; [exact Hw | left; exact Hin].
Qed.


(** * Properties of the feature engine *)


(** C8, with sign [both] and one sample before and after each peak on
    the two-channel recording: in per-channel mode the run raises
    [TypeError] and returns no tensor, whereas the maximum of the
    absolute values over time is 3 and 4 on the two channels for the
    first peak, 7 and 8 for the second.  The sibling signs return one
    value per channel ([neg] shown), and the scalar mode returns the
    maximum absolute value over time and channels. *)
Theorem C8_both_per_channel_raises_type_error
    (np_linalg_norm : list Q -> Q) (np_sqrt : Q -> Q) (np_divide : Q -> Q -> Q) :
  let run mode sign :=
    snd (compute_features_from_peaks np_linalg_norm np_sqrt np_divide
           Sample.pair_2d Sample.two_peaks ["amplitude"]
           [("amplitude", [("peak_sign", VStr sign)])]
           (1 # 30) (1 # 30) mode None [(0%nat, 0, 4)] initial_heap) in
  let traces :=
    fst (fst (get_chunk_with_margin 2 (nth 0 (segments Sample.pair_2d) []) 0 4 1)) in
  let local_peaks := local_peaks_of_chunk Sample.two_peaks 0 0 4 1 in
  run false "both" = Raise TypeError /\
  (exists wf,
     extract_waveforms traces local_peaks 1 1 = Ok wf /\
     np_reduce_axis1 np_maximum (np_abs wf)
       = Ok [[3 # 1; 4 # 1]; [7 # 1; 8 # 1]]) /\
  run false "neg" = Ok (Tensor3 2 1 [[[-3 # 1]; [2 # 1]]; [[5 # 1]; [-6 # 1]]]) /\
  run true "both" = Ok (Tensor2 1 [[4 # 1]; [8 # 1]]).
Proof.
  cbv zeta. split; [vm_compute; reflexivity|]. split.
  - eexists. split; vm_compute; reflexivity.
  - split; vm_compute; reflexivity.
Qed.

(** ** The zero-width window *)

Lemma mapM_empty_windows {A B} (f : A -> result (list B)) (l : list A) :
  (forall a, f a = Ok []) -> mapM f l = Ok (map (fun _ => []) l).
Proof.
  intros Hf. induction l as [|a l IH]; simpl; [reflexivity|].
  rewrite Hf. simpl. rewrite IH. reflexivity.
Qed.

(** With [nbefore = nafter = 0] the index array has no column: nothing
    is read from [traces], whatever the sample indices are. *)
Lemma extract_waveforms_zero_width (traces : Traces) (local_peak : list Peak) :
  extract_waveforms traces local_peak 0 0
  = Ok {| wf_width := 0; wf_channels := tr_channels traces;
          wf_data := map (fun _ => []) local_peak |}.
Proof.
  unfold extract_waveforms. simpl.
  rewrite (mapM_empty_windows _ local_peak) by reflexivity. reflexivity.
Qed.

Lemma set_column_zeros (v : list Q) :
  set_column 0 v (np_zeros2 0%Q (length v) 1) = map (fun a => [a]) v.
Proof.
  unfold set_column, np_zeros2. induction v as [|a v IH]; simpl; [reflexivity|].
  f_equal. exact IH.
Qed.



(** * Chunking *)

(** C1, in per-channel mode with a zero-width window on the
    two-channel recording with two peaks: as one chunk the run writes
    the two stored amplitudes across the channels of every peak; as two
    chunks of one peak each it writes to each peak its own amplitude on
    both channels.  The two outputs differ, and in the first one row 0
    holds the amplitude of peak 1.  In scalar mode the same request
    gives the same output under both chunkings. *)
Theorem C1_rechunking_changes_per_channel_output
    (np_linalg_norm : list Q -> Q) (np_sqrt : Q -> Q) (np_divide : Q -> Q -> Q) :
  let run mode chunks :=
    snd (compute_features_from_peaks np_linalg_norm np_sqrt np_divide
           Sample.pair_2d Sample.two_peaks ["amplitude"] []
           0%Q 0%Q mode None chunks initial_heap) in
  run false [(0%nat, 0, 4)]
    = Ok (Tensor3 2 1 [[[-5 # 1]; [-7 # 1]]; [[-5 # 1]; [-7 # 1]]]) /\
  run false [(0%nat, 0, 2); (0%nat, 2, 4)]
    = Ok (Tensor3 2 1 [[[-5 # 1]; [-5 # 1]]; [[-7 # 1]; [-7 # 1]]]) /\
  run false [(0%nat, 0, 4)] <> run false [(0%nat, 0, 2); (0%nat, 2, 4)] /\
  run true [(0%nat, 0, 4)] = run true [(0%nat, 0, 2); (0%nat, 2, 4)].
Proof.
  cbv zeta. split; [vm_compute; reflexivity|]. split; [vm_compute; reflexivity|].
  split; [|vm_compute; reflexivity].
  vm_compute. intros H. discriminate H.
Qed.

(** ** The peaks of a chunk (lines 204-214) *)

Lemma filter_none {A} (f : A -> bool) (l : list A) :
  Forall (fun x => f x = false) l -> List.filter f l = [].
Proof.
  induction 1 as [|x l Hx _ IH]; simpl; [reflexivity|]. rewrite Hx. exact IH.
Qed.

Lemma filter_all {A} (f : A -> bool) (l : list A) :
  Forall (fun x => f x = true) l -> List.filter f l = l.
Proof.
  induction 1 as [|x l Hx _ IH]; simpl; [reflexivity|]. rewrite Hx, IH. reflexivity.
Qed.

Lemma filter_ext_Forall {A} (f g : A -> bool) (l : list A) :
  Forall (fun x => f x = g x) l -> List.filter f l = List.filter g l.
Proof.
  induction 1 as [|x l Hx _ IH]; simpl; [reflexivity|]. rewrite Hx, IH. reflexivity.
Qed.

Lemma StronglySorted_weaken {A} (R S : A -> A -> Prop) (l : list A) :
  (forall x y, In x l -> In y l -> R x y -> S x y) ->
  StronglySorted R l -> StronglySorted S l.
Proof.
  intros HRS Hs. induction Hs as [|x l Hs IH Hx]; constructor.
  - apply IH. intros a b Ha Hb. apply HRS; right; assumption.
  - rewrite Forall_forall in *. intros y Hy.
    apply HRS; [left; reflexivity | right; apply list_elem_of_In; exact Hy |].
    apply Hx. exact Hy.
Qed.

Lemma StronglySorted_list_filter {A} (R : A -> A -> Prop) (f : A -> bool) (l : list A) :
  StronglySorted R l -> StronglySorted R (List.filter f l).
Proof.
  induction 1 as [|x l Hs IH Hx]; simpl; [constructor|].
  destruct (f x); [|exact IH]. constructor; [exact IH|].
  rewrite Forall_forall in *. intros y Hy. apply Hx.
  apply list_elem_of_In in Hy. apply filter_In in Hy as [Hy _].
  apply list_elem_of_In. exact Hy.
Qed.

Lemma py_slice_cons_S {A} (x : A) (l : list A) (i j : nat) :
  py_slice (x :: l) (S i) (S j) = py_slice l i j.
Proof. reflexivity. Qed.

Lemma py_slice_cons_0 {A} (x : A) (l : list A) (j : nat) :
  py_slice (x :: l) 0 (S j) = x :: py_slice l 0 j.
Proof. unfold py_slice. simpl. rewrite Nat.sub_0_r. reflexivity. Qed.

Lemma py_slice_to_0 {A} (l : list A) (i : nat) : py_slice l i 0 = [].
Proof. reflexivity. Qed.

Lemma searchsorted_0 (a : list Z) (v : Z) :
  Forall (fun x => v <= x) a -> np_searchsorted a v = 0%nat.
Proof.
  destruct 1 as [|x a Hx _]; simpl; [reflexivity|].
  destruct (Z.ltb_spec x v); [lia | reflexivity].
Qed.

Lemma Forall_map_key {A} (k : A -> Z) (P : Z -> Prop) (l : list A) :
  Forall (fun y => P (k y)) l -> Forall P (map k l).
Proof. induction 1; simpl; constructor; assumption. Qed.

(** On an array sorted by its key, the two binary searches of a
    half-open key range cut out exactly the elements with a key in the
    range, in their order. *)
Lemma slice_of_sorted {A} (k : A -> Z) (l : list A) (lo hi : Z) :
  StronglySorted (fun x y => k x <= k y) l ->
  py_slice l (np_searchsorted (map k l) lo) (np_searchsorted (map k l) hi)
  = List.filter (fun x => (lo <=? k x) && (k x <? hi)) l.
Proof.
  induction 1 as [|x l Hs IH Hx]; [reflexivity|].
  assert (Hbeyond : hi <= k x ->
            List.filter (fun y => (lo <=? k y) && (k y <? hi)) l = []).
  { intros Hhi. apply filter_none.
    eapply List.Forall_impl; [|exact Hx]. simpl. intros y Hy.
    destruct (Z.ltb_spec (k y) hi); [lia|]. apply andb_false_r. }
  simpl.
  destruct (Z.ltb_spec (k x) lo) as [Hlo|Hlo];
    destruct (Z.ltb_spec (k x) hi) as [Hhi|Hhi].
  - rewrite py_slice_cons_S, IH.
    destruct (Z.leb_spec lo (k x)); [lia|]. reflexivity.
  - rewrite py_slice_to_0.
    destruct (Z.leb_spec lo (k x)); [lia|]. simpl.
    symmetry. apply Hbeyond. exact Hhi.
  - rewrite py_slice_cons_0.
    destruct (Z.leb_spec lo (k x)); [|lia]. simpl. f_equal.
    rewrite <- IH. rewrite (searchsorted_0 (map k l) lo); [reflexivity|].
    apply Forall_map_key.
    eapply List.Forall_impl; [|exact Hx]. simpl. intros; lia.
  - rewrite py_slice_to_0.
    destruct (Z.leb_spec lo (k x)); [|lia]. simpl.
    symmetry. apply Hbeyond. exact Hhi.
Qed.

(** The chunk worker selects the peaks of its chunk, in input order,
    and rebases their sample index to the start of the buffer. *)
Lemma local_peaks_of_chunk_sorted (peaks : list Peak) (segment_index : nat)
    (start_frame end_frame left_margin : Z) :
  peaks_sorted peaks ->
  local_peaks_of_chunk peaks segment_index start_frame end_frame left_margin
  = map (rebase (start_frame - left_margin))
        (List.filter (in_chunk (segment_index, start_frame, end_frame)) peaks).
Proof.
  intros Hs. unfold local_peaks_of_chunk.
  change (fun p : Peak => _) with (rebase (start_frame - left_margin)). f_equal.
  assert (Hseg : StronglySorted (fun p q => segment_ind p <= segment_ind q) peaks).
  { eapply StronglySorted_weaken; [|exact Hs].
    intros p q _ _ [H|[H _]]; lia. }
  rewrite (slice_of_sorted segment_ind peaks _ _ Hseg).
  set (g := Z.of_nat segment_index).
  set (in_seg := fun x : Peak => (g <=? segment_ind x) && (segment_ind x <? g + 1)).
  assert (Hsam : StronglySorted (fun p q => sample_ind p <= sample_ind q)
                   (List.filter in_seg peaks)).
  { eapply StronglySorted_weaken;
      [|apply StronglySorted_list_filter; exact Hs].
    intros p q Hp Hq Hpq.
    apply filter_In in Hp as [_ Hp]. apply filter_In in Hq as [_ Hq].
    unfold in_seg in Hp, Hq. destruct Hpq as [H|[_ H]]; lia. }
  rewrite (slice_of_sorted sample_ind _ _ _ Hsam).
  clear Hsam Hseg Hs. induction peaks as [|p peaks IH]; simpl; [reflexivity|].
  unfold in_chunk at 1. simpl. fold g. unfold in_seg at 1.
  destruct (Z.leb_spec g (segment_ind p)); destruct (Z.ltb_spec (segment_ind p) (g + 1));
    destruct (Z.eqb_spec (segment_ind p) g); try lia; simpl; try exact IH.
  destruct (_ && _); [f_equal|]; exact IH.
Qed.

(** ** Chunks that tile the peaks *)

Lemma in_chunk_spec (c : nat * Z * Z) (p : Peak) :
  in_chunk c p = true <->
  segment_ind p = Z.of_nat (fst (fst c)) /\ snd (fst c) <= sample_ind p < snd c.
Proof.
  unfold in_chunk. rewrite !andb_true_iff, Z.eqb_eq, Z.leb_le, Z.ltb_lt. tauto.
Qed.

(** A peak of a later chunk is not before a peak of an earlier chunk. *)
Lemma chunk_before_peaks (c c' : nat * Z * Z) (p q : Peak) :
  chunk_before c c' -> in_chunk c q = true -> in_chunk c' p = true -> ~ peak_le p q.
Proof.
  intros Hb Hq Hp. apply in_chunk_spec in Hq, Hp.
  unfold chunk_before in Hb. unfold peak_le. lia.
Qed.

Lemma chunk_before_disjoint (c c' : nat * Z * Z) (p : Peak) :
  chunk_before c c' -> in_chunk c' p = true -> in_chunk c p = false.
Proof.
  intros Hb Hp. destruct (in_chunk c p) eqn:Hc; [|reflexivity].
  exfalso. apply (chunk_before_peaks c c' p p Hb Hc Hp).
  right. split; [reflexivity | lia].
Qed.

Lemma list_filter_filter {A} (f g : A -> bool) (l : list A) :
  List.filter f (List.filter g l) = List.filter (fun x => g x && f x) l.
Proof.
  induction l as [|x l IH]; simpl; [reflexivity|].
  destruct (g x); simpl; [destruct (f x); rewrite IH; reflexivity | exact IH].
Qed.

(** In sorted peaks covered by ordered chunks, the peaks of the first
    chunk come first. *)
Lemma first_chunk_is_prefix (c : nat * Z * Z) (cs : list (nat * Z * Z))
    (peaks : list Peak) :
  peaks_sorted peaks ->
  Forall (chunk_before c) cs ->
  chunks_cover (c :: cs) peaks ->
  peaks = (List.filter (in_chunk c) peaks
           ++ List.filter (fun p => negb (in_chunk c p)) peaks)%list.
Proof.
  intros Hs Hb Hc. induction Hs as [|p ps Hs IH Hp]; [reflexivity|].
  inversion Hc as [|? ? Hcp Hcps]; subst. simpl.
  destruct (in_chunk c p) eqn:Hin; simpl.
  - f_equal. apply IH. exact Hcps.
  - simpl in Hcp. rewrite Hin in Hcp. simpl in Hcp.
    apply existsb_exists in Hcp as (c' & Hc' & Hpc').
    assert (Hbc : chunk_before c c').
    { rewrite List.Forall_forall in Hb. apply Hb. exact Hc'. }
    rewrite filter_none.
    + simpl. f_equal. symmetry. apply filter_all.
      eapply List.Forall_impl; [|exact Hp]. simpl. intros q Hpq.
      destruct (in_chunk c q) eqn:Hq; [|reflexivity].
      exfalso. exact (chunk_before_peaks c c' p q Hbc Hq Hpc' Hpq).
    + eapply List.Forall_impl; [|exact Hp]. simpl. intros q Hpq.
      destruct (in_chunk c q) eqn:Hq; [|reflexivity].
      exfalso. exact (chunk_before_peaks c c' p q Hbc Hq Hpc' Hpq).
Qed.

(** The chunk dispatcher hands every peak to exactly one chunk and
    keeps the input order: concatenating, in chunk order, the peaks of
    each chunk gives back the peak list. *)
Lemma chunks_tile_peaks (chunks : list (nat * Z * Z)) (peaks : list Peak) :
  peaks_sorted peaks ->
  chunks_ordered chunks ->
  chunks_cover chunks peaks ->
  concat (map (fun c => List.filter (in_chunk c) peaks) chunks) = peaks.
Proof.
  intros Hs Ho. revert peaks Hs.
  induction Ho as [|c cs Ho IH Hb]; intros peaks Hs Hc.
  - destruct Hc as [|p ps Hp _]; [reflexivity | discriminate].
  - simpl.
    set (rest := List.filter (fun p => negb (in_chunk c p)) peaks).
    assert (Hmap : map (fun c' => List.filter (in_chunk c') peaks) cs
                   = map (fun c' => List.filter (in_chunk c') rest) cs).
    { apply map_ext_in. intros c' Hc'. unfold rest.
      rewrite list_filter_filter. apply filter_ext_Forall.
      apply List.Forall_forall. intros p _.
      destruct (in_chunk c' p) eqn:Hp; [|rewrite andb_false_r; reflexivity].
      rewrite List.Forall_forall in Hb.
      rewrite (chunk_before_disjoint c c' p (Hb c' Hc') Hp). reflexivity. }
    rewrite Hmap, IH.
    + symmetry. apply (first_chunk_is_prefix c cs); assumption.
    + apply StronglySorted_list_filter. exact Hs.
    + unfold rest, chunks_cover in *.
      rewrite List.Forall_forall in *. intros p Hp.
      apply filter_In in Hp as [Hp Hn]. specialize (Hc p Hp). simpl in Hc.
      destruct (in_chunk c p); [discriminate | exact Hc].
Qed.

(** ** Windows read through a chunk buffer *)

Lemma np_arange_In (a b k : Z) : In k (np_arange a b) -> a <= k < b.
Proof.
  unfold np_arange. intros H. apply in_map_iff in H as (i & <- & Hi).
  apply in_seq in Hi. lia.
Qed.

Lemma np_arange_length (a b : Z) : length (np_arange a b) = Z.to_nat (b - a).
Proof. unfold np_arange. rewrite length_map, length_seq. reflexivity. Qed.

Lemma lookup_map_seq {A} (g : nat -> A) (a n i : nat) :
  (i < n)%nat -> map g (seq a n) !! i = Some (g (a + i)%nat).
Proof.
  revert a i. induction n as [|n IH]; intros a i Hi; [lia|].
  destruct i as [|i]; simpl.
  - rewrite Nat.add_0_r. reflexivity.
  - rewrite IH by lia. f_equal. f_equal. lia.
Qed.

Lemma take_row_arange {A} (g : Z -> A) (n i : Z) :
  0 <= i < n -> take_row (map g (np_arange 0 n)) i = Ok (g i).
Proof.
  intros Hi. unfold take_row.
  rewrite length_map, np_arange_length.
  destruct (Z.leb_spec 0 i); [|lia].
  destruct (Z.ltb_spec i (Z.of_nat (Z.to_nat (n - 0)))); [|lia]. simpl.
  unfold index_row, np_arange. rewrite map_map.
  rewrite lookup_map_seq by lia. f_equal. f_equal. lia.
Qed.

Lemma mapM_pointwise {A B} (f : A -> result B) (g : A -> B) (l : list A) :
  (forall a, In a l -> f a = Ok (g a)) -> mapM f l = Ok (map g l).
Proof.
  induction l as [|a l IH]; intros H; simpl; [reflexivity|].
  rewrite (H a) by (left; reflexivity). simpl.
  rewrite IH by (intros; apply H; right; assumption). reflexivity.
Qed.

(** Margin handling: for a peak of the chunk and a window no wider than
    the margin on either side, every index of the window falls inside
    the chunk buffer, and the rows read there are the rows of the
    segment around the peak. *)
Lemma chunk_buffer_window (nchan : nat) (recording_segment : list (list Q))
    (start_frame end_frame margin nbefore nafter : Z) (p : Peak) :
  start_frame <= sample_ind p < end_frame ->
  0 <= nbefore <= margin -> 0 <= nafter <= margin ->
  let traces := fst (fst (get_chunk_with_margin nchan recording_segment
                            start_frame end_frame margin)) in
  mapM (fun k => take_row (tr_rows traces)
                   (sample_ind (rebase (start_frame - margin) p) + k))
       (np_arange (- nbefore) nafter)
  = Ok (segment_window nchan recording_segment p nbefore nafter).
Proof.
  intros Hp Hb Ha. cbv zeta. unfold segment_window. simpl.
  apply mapM_pointwise. intros k Hk. apply np_arange_In in Hk.
  rewrite take_row_arange by lia. f_equal. f_equal. lia.
Qed.

Lemma extract_waveforms_chunk (nchan : nat) (recording_segment : list (list Q))
    (start_frame end_frame margin nbefore nafter : Z) (chunk_peaks : list Peak) :
  Forall (fun p => start_frame <= sample_ind p < end_frame) chunk_peaks ->
  0 <= nbefore <= margin -> 0 <= nafter <= margin ->
  extract_waveforms
    (fst (fst (get_chunk_with_margin nchan recording_segment
                 start_frame end_frame margin)))
    (map (rebase (start_frame - margin)) chunk_peaks) nbefore nafter
  = Ok {| wf_width := length (np_arange (- nbefore) nafter);
          wf_channels := nchan;
          wf_data := map (fun p => segment_window nchan recording_segment p
                                     nbefore nafter) chunk_peaks |}.
Proof.
  intros Hp Hb Ha. unfold extract_waveforms.
  rewrite (mapM_pointwise _
             (fun q => segment_window nchan recording_segment
                         (rebase (margin - start_frame) q) nbefore nafter)).
  - simpl. rewrite map_map. do 2 f_equal.
    apply map_ext. intros p. unfold segment_window. apply map_ext. intros k.
    f_equal. simpl. lia.
  - intros q Hq. apply in_map_iff in Hq as (p & <- & Hin).
    rewrite List.Forall_forall in Hp. specialize (Hp p Hin).
    pose proof (chunk_buffer_window nchan recording_segment start_frame end_frame
                  margin nbefore nafter p Hp Hb Ha) as Hw.
    cbv zeta in Hw. rewrite Hw. f_equal.
    unfold segment_window. apply map_ext. intros k. f_equal. simpl. lia.
Qed.

(** ** The engine on the default request *)

Lemma window_bounds_first (fp : Params) (feature : string) (wf : option Waveforms) :
  window_bounds fp feature wf = bounds_at fp feature (bool_decide (wf = None)).
Proof. destruct wf; reflexivity. Qed.

Lemma reduce_fold1 (op : Q -> Q -> Q) (l : list Q) :
  l <> [] -> reduce op l = Ok (fold1 op l).
Proof. destruct l; [congruence | reflexivity]. Qed.

Lemma padded_sample_length (nchan : nat) (seg : list (list Q)) (i : Z) :
  forallb (fun row => (length row =? nchan)%nat) seg = true ->
  length (padded_sample nchan seg i) = nchan.
Proof.
  intros Hseg. unfold padded_sample.
  destruct (_ && _) eqn:Hi; [|apply repeat_length].
  apply andb_true_iff in Hi as [H0 H1].
  apply Z.leb_le in H0. apply Z.ltb_lt in H1.
  rewrite forallb_forall in Hseg. apply Nat.eqb_eq, Hseg.
  apply nth_In. lia.
Qed.

Lemma segment_of_ok (recording : Recording) (p : Peak) :
  recording_ok recording = true ->
  forallb (fun row => (length row =? num_channels recording)%nat)
          (segment_of recording p) = true.
Proof.
  intros Hrec. unfold recording_ok in Hrec. rewrite forallb_forall in Hrec.
  unfold segment_of.
  destruct (Nat.lt_ge_cases (Z.to_nat (segment_ind p)) (length (segments recording))).
  - apply Hrec. apply nth_In. assumption.
  - rewrite nth_overflow by assumption. reflexivity.
Qed.

(** A window has one row per offset, each with one entry per channel. *)
Lemma segment_window_rows (nchan : nat) (seg : list (list Q)) (p : Peak)
    (nbefore nafter : Z) :
  forallb (fun row => (length row =? nchan)%nat) seg = true ->
  length (segment_window nchan seg p nbefore nafter)
    = length (np_arange (- nbefore) nafter) /\
  Forall (fun row => length row = nchan) (segment_window nchan seg p nbefore nafter).
Proof.
  intros Hseg. unfold segment_window. split; [apply length_map|].
  apply List.Forall_forall. intros row Hrow.
  apply in_map_iff in Hrow as (k & <- & _).
  apply padded_sample_length. exact Hseg.
Qed.

Lemma concat_nonempty {A} (w : list (list A)) (n : nat) :
  w <> [] -> (0 < n)%nat -> Forall (fun row => length row = n) w -> concat w <> [].
Proof.
  intros Hw Hn Hrows. destruct w as [|row w]; [congruence|].
  inversion Hrows; subst. destruct row; simpl in *; [lia | discriminate].
Qed.

Lemma column_length (c : nat) (w : list (list Q)) : length (column c w) = length w.
Proof. apply length_map. Qed.

Lemma nonempty_length {A} (l : list A) : (0 < length l)%nat -> l <> [].
Proof. destruct l; simpl; [lia | discriminate]. Qed.

Lemma mapM_map_pointwise {A B C} (f : B -> result C) (g : B -> C) (h : A -> B)
    (l : list A) :
  (forall a, In a l -> f (h a) = Ok (g (h a))) ->
  mapM f (map h l) = Ok (map (fun a => g (h a)) l).
Proof.
  intros H. rewrite (mapM_pointwise f g).
  - rewrite map_map. reflexivity.
  - intros b Hb. apply in_map_iff in Hb as (a & <- & Ha). apply H. exact Ha.
Qed.

Section PeakByPeak.

Variables (fp : Params) (width nchan : nat) (win : Peak -> list (list Q)).
Variables (local_peak chunk_peaks : list Peak).

Hypothesis scalar_mode : p_one_feature_per_peak fp = true.
Hypothesis some_channel : (0 < nchan)%nat.
Hypothesis win_rows :
  forall p, length (win p) = width /\ Forall (fun row => length row = nchan) (win p).
Hypothesis same_amplitudes : map amplitude local_peak = map amplitude chunk_peaks.

Local Abbreviation wf :=
  {| wf_width := width; wf_channels := nchan; wf_data := map win chunk_peaks |}.

Lemma reduce_window (op : Q -> Q -> Q) (p : Peak) :
  (0 < width)%nat -> reduce op (concat (win p)) = Ok (fold1 op (concat (win p))).
Proof.
  intros Hw. apply reduce_fold1. destruct (win_rows p) as [Hlen Hrows].
  apply (concat_nonempty _ nchan); [|exact some_channel | exact Hrows].
  apply nonempty_length. lia.
Qed.

Lemma np_reduce_axis12_windows (op : Q -> Q -> Q) :
  (0 < width)%nat ->
  np_reduce_axis12 op wf = Ok (map (fun p => fold1 op (concat (win p))) chunk_peaks).
Proof.
  intros Hw. unfold np_reduce_axis12. simpl.
  destruct (Nat.eqb_spec width 0); [lia|].
  destruct (Nat.eqb_spec nchan 0); [lia|]. simpl.
  apply (mapM_map_pointwise (fun w => reduce op (concat w))
                            (fun w => fold1 op (concat w))).
  intros p _. apply reduce_window. exact Hw.
Qed.

Lemma np_reduce_axis12_abs_windows :
  (0 < width)%nat ->
  np_reduce_axis12 np_maximum (np_abs wf)
  = Ok (map (fun p => fold1 np_maximum (map Qabs (concat (win p)))) chunk_peaks).
Proof.
  intros Hw. unfold np_reduce_axis12, np_abs. simpl.
  destruct (Nat.eqb_spec width 0); [lia|].
  destruct (Nat.eqb_spec nchan 0); [lia|]. simpl.
  rewrite map_map.
  rewrite (mapM_map_pointwise (fun w => reduce np_maximum (concat w))
             (fun w => fold1 np_maximum (concat w))
             (fun p => map (map Qabs) (win p))).
  - f_equal. apply map_ext. intros p. rewrite <- concat_map. reflexivity.
  - intros p _. rewrite <- concat_map. apply reduce_fold1.
    pose proof (reduce_window np_maximum p Hw) as Hr.
    destruct (concat (win p)); [discriminate | discriminate].
Qed.

(** The amplitude branch in scalar mode computes [peak_amplitude] for
    every peak of the chunk. *)
Lemma amplitude_features_scalar (features : option ndarray) :
  sign_ok fp = true ->
  amplitude_features fp "amplitude" wf local_peak features
  = Ok (Some (Arr1 (map (fun p => peak_amplitude (sign_of fp) (amplitude p) (win p))
                        chunk_peaks))).
Proof.
  intros Hsign. unfold amplitude_features. simpl.
  destruct (Nat.eqb_spec width 0) as [Hw|Hw].
  - rewrite same_amplitudes. do 3 f_equal. apply map_ext. intros p.
    destruct (win_rows p) as [Hlen _].
    destruct (win p); [reflexivity | simpl in Hlen; lia].
  - assert (Hpos : (0 < width)%nat) by lia.
    assert (Hcons : forall p sign,
              peak_amplitude sign (amplitude p) (win p)
              = if String.eqb sign "neg" then fold1 np_minimum (concat (win p))
                else if String.eqb sign "pos" then fold1 np_maximum (concat (win p))
                else fold1 np_maximum (map Qabs (concat (win p)))).
    { intros p sign. destruct (win_rows p) as [Hlen _].
      destruct (win p); [simpl in Hlen; lia | reflexivity]. }
    rewrite scalar_mode. unfold sign_ok, sign_of in *.
    destruct (param_get fp "amplitude" "peak_sign") as [[| | |s|]|]; try discriminate.
    simpl.
    destruct (String.eqb s "neg") eqn:Hneg.
    + rewrite np_reduce_axis12_windows by exact Hpos. simpl. do 3 f_equal.
      apply map_ext. intros p. rewrite Hcons, Hneg. reflexivity.
    + destruct (String.eqb s "pos") eqn:Hp.
      * rewrite np_reduce_axis12_windows by exact Hpos. simpl. do 3 f_equal.
        apply map_ext. intros p. rewrite Hcons, Hneg, Hp. reflexivity.
      * simpl in Hsign. rewrite Hsign.
        rewrite np_reduce_axis12_abs_windows by exact Hpos. simpl. do 3 f_equal.
        apply map_ext. intros p. rewrite Hcons, Hneg, Hp. reflexivity.
Qed.

(** The [ptp] branch in scalar mode computes [peak_ptp] for every peak
    of the chunk. *)
Lemma ptp_features_scalar :
  (0 < width)%nat ->
  ptp_features fp wf = Ok (Arr1 (map (fun p => peak_ptp nchan (win p)) chunk_peaks)).
Proof.
  intros Hw. unfold ptp_features. rewrite scalar_mode.
  unfold np_ptp_axis1. simpl.
  destruct (Nat.eqb_spec width 0); [lia|].
  rewrite (mapM_map_pointwise _
             (fun w => map (fun c => (fold1 np_maximum (column c w)
                                      - fold1 np_minimum (column c w))%Q)
                           (seq 0 nchan))).
  - simpl. unfold np_max_rows.
    destruct (Nat.eqb_spec nchan 0); [lia|].
    rewrite (mapM_map_pointwise (reduce np_maximum) (fold1 np_maximum)).
    + reflexivity.
    + intros p _. apply reduce_fold1. apply nonempty_length.
      rewrite length_map, length_seq. exact some_channel.
  - intros p _. apply mapM_pointwise. intros c _.
    destruct (win_rows p) as [Hlen _].
    rewrite !reduce_fold1; [reflexivity | |];
      apply nonempty_length; rewrite column_length; lia.
Qed.

End PeakByPeak.

Lemma zip_with_map_same {A B C D} (h : B -> C -> D) (a : A -> B) (b : A -> C)
    (l : list A) :
  zip_with h (map a l) (map b l) = map (fun x => h (a x) (b x)) l.
Proof. induction l as [|x l IH]; simpl; [reflexivity|]. rewrite IH. reflexivity. Qed.

Lemma repeat_as_map {A B} (x : B) (l : list A) :
  repeat x (length l) = map (fun _ => x) l.
Proof. induction l as [|a l IH]; simpl; [reflexivity|]. rewrite IH. reflexivity. Qed.

Lemma insert_after_prefix {A} (done : list A) (v x : A) (rest : list A) :
  <[length done := v]> (done ++ x :: rest)%list = ((done ++ [v]) ++ rest)%list.
Proof.
  induction done as [|d done IH]; simpl; [reflexivity|]. rewrite IH. reflexivity.
Qed.

Lemma list_index_none (x : string) (l : list string) :
  forallb (fun y => negb (String.eqb y x)) l = true -> list_index x l = None.
Proof.
  induction l as [|y l IH]; simpl; [reflexivity|].
  intros H. apply andb_true_iff in H as [Hy Hl].
  destruct (String.eqb y x); [discriminate|]. rewrite IH by exact Hl. reflexivity.
Qed.

Section EngineOnChunk.

Variables (np_linalg_norm : list Q -> Q) (np_sqrt : Q -> Q) (np_divide : Q -> Q -> Q).
Variables (recording : Recording) (fp : Params) (margin : Z).
Variables (traces : Traces) (local_peak chunk_peaks : list Peak).

Hypothesis scalar_mode : p_one_feature_per_peak fp = true.
Hypothesis some_channel : (0 < num_channels recording)%nat.
Hypothesis rows_ok : recording_ok recording = true.
Hypothesis same_amplitudes : map amplitude local_peak = map amplitude chunk_peaks.

(** What the buffer of the chunk gives for every window within the margin. *)
Hypothesis buffer_windows :
  forall nbefore nafter,
    0 <= nbefore <= margin -> 0 <= nafter <= margin ->
    extract_waveforms traces local_peak nbefore nafter
    = Ok {| wf_width := length (np_arange (- nbefore) nafter);
            wf_channels := num_channels recording;
            wf_data := map (fun p => segment_window (num_channels recording)
                                       (segment_of recording p) p nbefore nafter)
                           chunk_peaks |}.

Lemma feature_step_scalar (st : loop_state) (feature : string) (ncols : nat)
    (rowfn : Peak -> list Q) :
  feature_ok fp margin feature = true ->
  ls_pwf st = Tensor2 ncols (map rowfn chunk_peaks) ->
  (ls_feature_idx st < ncols)%nat ->
  exists st',
    feature_step np_linalg_norm np_sqrt np_divide fp traces local_peak None st feature
      = Ok st' /\
    ls_pwf st'
      = Tensor2 ncols
          (map (fun p => <[ls_feature_idx st :=
                             peak_value recording fp feature
                               (bool_decide (ls_wf st = None)) p]> (rowfn p))
               chunk_peaks) /\
    ls_feature_idx st' = S (ls_feature_idx st) /\
    bool_decide (ls_wf st' = None) = false.
Proof.
  intros Hok Hpwf Hidx.
  unfold feature_ok in Hok.
  apply andb_true_iff in Hok as [Hok Hfalse].
  apply andb_true_iff in Hok as [Hkind Htrue].
  set (first := bool_decide (ls_wf st = None)).
  assert (Hfits : window_fits fp margin feature first = true)
    by (destruct first; assumption).
  unfold window_fits in Hfits.
  destruct (bounds_at fp feature first) as [[nbefore nafter]|] eqn:Hb; [|discriminate].
  apply andb_true_iff in Hfits as [Hfits Hwidth].
  apply andb_true_iff in Hfits as [Hfits H4].
  apply andb_true_iff in Hfits as [Hfits H3].
  apply andb_true_iff in Hfits as [H1 H2].
  apply Z.leb_le in H1, H2, H3, H4.
  unfold feature_step, feature_window.
  rewrite window_bounds_first. fold first. rewrite Hb. simpl.
  rewrite buffer_windows by lia. simpl.
  set (win := fun p => segment_window (num_channels recording)
                         (segment_of recording p) p nbefore nafter).
  assert (Hwin : forall p,
             length (win p) = length (np_arange (- nbefore) nafter) /\
             Forall (fun row => length row = num_channels recording) (win p)).
  { intros p. apply segment_window_rows. apply segment_of_ok. exact rows_ok. }
  assert (Hvals : exists vals,
             feature_values np_linalg_norm np_sqrt np_divide fp feature traces
               {| wf_width := length (np_arange (- nbefore) nafter);
                  wf_channels := num_channels recording;
                  wf_data := map win chunk_peaks |} local_peak None st
             = Ok (Some (Arr1 (map vals chunk_peaks)), ls_loop_idx st) /\
             forall p, vals p = peak_value recording fp feature first p).
  { unfold feature_values.
    destruct (String.eqb_spec feature "amplitude") as [->|Hne].
    - simpl in Hkind. rewrite orb_false_r in Hkind.
      rewrite (amplitude_features_scalar fp _ _ win local_peak chunk_peaks
                 scalar_mode some_channel Hwin same_amplitudes _ Hkind).
      simpl. eexists. split; [reflexivity|].
      intros p. unfold peak_value. rewrite Hb. reflexivity.
    - simpl in Hkind. apply String.eqb_eq in Hkind. subst feature.
      simpl in Hwidth. apply Z.ltb_lt in Hwidth.
      rewrite (ptp_features_scalar fp _ _ win chunk_peaks
                 scalar_mode some_channel Hwin).
      + simpl. eexists. split; [reflexivity|].
        intros p. unfold peak_value. rewrite Hb. reflexivity.
      + rewrite np_arange_length. lia. }
  destruct Hvals as (vals & Hfv & Hval). rewrite Hfv. simpl.
  unfold write_features. rewrite Hpwf.
  assert (Hcom : String.eqb feature "com" = false).
  { apply orb_true_iff in Hkind as [Hk|Hk].
    - apply andb_true_iff in Hk as [Hk _]. apply String.eqb_eq in Hk. subst. reflexivity.
    - apply String.eqb_eq in Hk. subst. reflexivity. }
  rewrite Hcom. simpl.
  destruct (Nat.ltb_spec (ls_feature_idx st) ncols); [|lia].
  unfold broadcast_ok, broadcast_row. rewrite !length_map, Nat.eqb_refl. simpl.
  eexists. split; [reflexivity|]. simpl. split; [|split; reflexivity].
  f_equal. unfold set_column. rewrite zip_with_map_same.
  apply map_ext. intros p. rewrite Hval. reflexivity.
Qed.

(** The loop over the request, from a state whose rows hold the values
    written so far followed by zeros. *)
Lemma features_loop_scalar (rest : list string) :
  forall (st : loop_state) (done : Peak -> list Q),
    forallb (feature_ok fp margin) rest = true ->
    (forall p, length (done p) = ls_feature_idx st) ->
    ls_pwf st
      = Tensor2 (ls_feature_idx st + length rest)
          (map (fun p => (done p ++ repeat 0%Q (length rest))%list) chunk_peaks) ->
    exists st',
      foldM (feature_step np_linalg_norm np_sqrt np_divide fp traces local_peak None)
            rest st = Ok st' /\
      ls_pwf st'
        = Tensor2 (ls_feature_idx st + length rest)
            (map (fun p => (done p
                            ++ peak_row recording fp rest
                                 (bool_decide (ls_wf st = None)) p)%list)
                 chunk_peaks).
Proof.
  induction rest as [|feature rest IH]; intros st done Hok Hdone Hpwf.
  - exists st. split; [reflexivity|]. exact Hpwf.
  - simpl in Hok. apply andb_true_iff in Hok as [Hf Hrest].
    destruct (feature_step_scalar st feature _ _ Hf Hpwf)
      as (st1 & Hstep & Hpwf1 & Hidx1 & Hwf1); [simpl; lia|].
    simpl. rewrite Hstep. simpl.
    destruct (IH st1
                (fun p => (done p ++ [peak_value recording fp feature
                                        (bool_decide (ls_wf st = None)) p])%list)
                Hrest)
      as (st' & Hrun & Hpwf').
    + intros p. rewrite length_app, Hdone, Hidx1. simpl. lia.
    + rewrite Hpwf1, Hidx1. f_equal; [simpl; lia|].
      apply map_ext. intros p. simpl. rewrite <- (Hdone p).
      apply insert_after_prefix.
    + exists st'. split; [exact Hrun|]. rewrite Hpwf', Hidx1, Hwf1.
      f_equal; [simpl; lia|].
      apply map_ext. intros p. simpl. rewrite <- app_assoc. reflexivity.
Qed.

(** On the peaks of one chunk the engine returns, for the default
    request in scalar mode, one row per peak, the row of the peak. *)
Lemma compute_features_scalar (feature_list : list string) :
  tr_channels traces = num_channels recording ->
  forallb (feature_ok fp margin) feature_list = true ->
  compute_features np_linalg_norm np_sqrt np_divide traces local_peak feature_list fp
  = Ok (Tensor2 (length feature_list)
          (map (peak_row recording fp feature_list true) chunk_peaks)).
Proof.
  intros Hchan Hok.
  assert (Hlen : length local_peak = length chunk_peaks).
  { rewrite <- (length_map amplitude local_peak), same_amplitudes. apply length_map. }
  unfold compute_features, allocate_output. rewrite scalar_mode.
  rewrite list_index_none.
  2: { rewrite forallb_forall in *. intros f Hf. specialize (Hok f Hf).
       unfold feature_ok in Hok.
       apply andb_true_iff in Hok as [Hok _]. apply andb_true_iff in Hok as [Hk _].
       apply orb_true_iff in Hk as [Hk|Hk].
       - apply andb_true_iff in Hk as [Hk _]. apply String.eqb_eq in Hk. subst.
         reflexivity.
       - apply String.eqb_eq in Hk. subst. reflexivity. }
  simpl.
  destruct (features_loop_scalar feature_list
              {| ls_pwf := Tensor2 (length feature_list)
                             (np_zeros2 0%Q (length local_peak) (length feature_list));
                 ls_feature_idx := 0; ls_loop_idx := ∅;
                 ls_wf := None; ls_features := None |}
              (fun _ => []) Hok)
    as (st' & Hrun & Hpwf).
  - reflexivity.
  - simpl. f_equal. unfold np_zeros2. rewrite Hlen. apply repeat_as_map.
  - rewrite Hrun. simpl. rewrite Hpwf. reflexivity.
Qed.

End EngineOnChunk.

(** * Chunking the default request *)

Lemma foldM_concat_tensor2 {A} (ncols : nat) (rows : A -> list (list Q))
    (l : list A) (acc : list (list Q)) :
  foldM concat_two (map (fun x => Tensor2 ncols (rows x)) l) (Tensor2 ncols acc)
  = Ok (Tensor2 ncols (acc ++ concat (map rows l))%list).
Proof.
  revert acc. induction l as [|x l IH]; intros acc; simpl.
  - rewrite app_nil_r. reflexivity.
  - rewrite Nat.eqb_refl. simpl. rewrite IH, <- app_assoc. reflexivity.
Qed.

Lemma np_concatenate_tensor2 {A} (ncols : nat) (rows : A -> list (list Q))
    (l : list A) :
  l <> [] ->
  np_concatenate (map (fun x => Tensor2 ncols (rows x)) l)
  = Ok (Tensor2 ncols (concat (map rows l))).
Proof.
  destruct l as [|x l]; [congruence|]. intros _. simpl.
  apply foldM_concat_tensor2.
Qed.

Section ChunkedRun.

Variables (np_linalg_norm : list Q -> Q) (np_sqrt : Q -> Q) (np_divide : Q -> Q -> Q).
Variables (recording : Recording) (peaks : list Peak) (feature_list : list string).
Variables (fp : Params) (margin : Z).

Hypothesis request : request_ok recording fp margin feature_list = true.
Hypothesis rows_ok : recording_ok recording = true.
Hypothesis sorted : peaks_sorted peaks.

Local Abbreviation worker_ctx :=
  (_init_worker_compute_features_from_peaks recording peaks margin feature_list fp).

(** One chunk: the rows of its peaks, in input order. *)
Lemma chunk_output (segment_index : nat) (start_frame end_frame : Z) :
  (segment_index < length (segments recording))%nat ->
  _compute_features_from_peaks_chunk np_linalg_norm np_sqrt np_divide
    segment_index start_frame end_frame worker_ctx
  = Ok (Tensor2 (length feature_list)
          (map (peak_row recording fp feature_list true)
               (List.filter (in_chunk (segment_index, start_frame, end_frame)) peaks))).
Proof.
  intros Hseg.
  unfold request_ok in request.
  apply andb_true_iff in request as [Hreq Hfeatures].
  apply andb_true_iff in Hreq as [Hmode Hchan].
  apply Nat.ltb_lt in Hchan.
  unfold _compute_features_from_peaks_chunk. simpl.
  destruct (lookup_lt_is_Some_2 (segments recording) segment_index Hseg) as [seg Hl].
  unfold index_row. rewrite Hl. simpl.
  rewrite local_peaks_of_chunk_sorted by exact sorted.
  set (chunk_peaks := List.filter (in_chunk (segment_index, start_frame, end_frame)) peaks).
  assert (Hin : forall p, In p chunk_peaks ->
                  segment_of recording p = seg /\ start_frame <= sample_ind p < end_frame).
  { intros p Hp. apply filter_In in Hp as [_ Hp].
    apply in_chunk_spec in Hp as [Hg Hs]. simpl in Hg, Hs. split; [|exact Hs].
    unfold segment_of. rewrite Hg, Nat2Z.id.
    apply nth_lookup_Some with (d := []) in Hl. exact Hl. }
  assert (Hseg_ok : forallb (fun row => (length row =? num_channels recording)%nat) seg
                    = true).
  { unfold recording_ok in rows_ok. rewrite forallb_forall in rows_ok.
    apply rows_ok. apply list_elem_of_In. eapply list_elem_of_lookup_2. exact Hl. }
  apply (compute_features_scalar np_linalg_norm np_sqrt np_divide recording fp margin
           _ _ chunk_peaks Hmode Hchan rows_ok).
  - rewrite map_map. reflexivity.
  - intros nbefore nafter Hb Ha.
    pose proof (extract_waveforms_chunk (num_channels recording) seg start_frame
                  end_frame margin nbefore nafter chunk_peaks) as Hex.
    simpl in Hex. rewrite Hex; [| |exact Hb|exact Ha].
    + do 2 f_equal. apply map_ext_in. intros p Hp.
      destruct (Hin p Hp) as [-> _]. reflexivity.
    + apply List.Forall_forall. intros p Hp. apply (Hin p Hp).
  - reflexivity.
  - exact Hfeatures.
Qed.

(** The chunked run of lines 144-154: whatever ordered chunks cover the
    peaks, the concatenated output has one row per peak, row [i] being
    the row of peak [i]. *)
Lemma chunked_run_output (chunks : list (nat * Z * Z)) :
  chunks <> [] ->
  chunks_ordered chunks ->
  chunks_cover chunks peaks ->
  Forall (fun c => (fst (fst c) < length (segments recording))%nat) chunks ->
  (let* outputs :=
     ChunkRecordingExecutor_run
       (fun segment_index start_frame end_frame =>
          _compute_features_from_peaks_chunk np_linalg_norm np_sqrt np_divide
            segment_index start_frame end_frame worker_ctx)
       chunks in
   np_concatenate outputs)
  = Ok (Tensor2 (length feature_list)
          (map (peak_row recording fp feature_list true) peaks)).
Proof.
  intros Hne Hord Hcov Hsegs.
  unfold ChunkRecordingExecutor_run.
  rewrite (mapM_pointwise _
             (fun c => Tensor2 (length feature_list)
                         (map (peak_row recording fp feature_list true)
                              (List.filter (in_chunk c) peaks)))).
  - simpl. rewrite np_concatenate_tensor2 by exact Hne.
    do 2 f_equal.
    transitivity (map (peak_row recording fp feature_list true)
                      (concat (map (fun c => List.filter (in_chunk c) peaks) chunks))).
    + rewrite concat_map, map_map. reflexivity.
    + rewrite (chunks_tile_peaks chunks peaks sorted Hord Hcov). reflexivity.
  - intros [[g s] e] Hc. simpl.
    rewrite List.Forall_forall in Hsegs. specialize (Hsegs _ Hc). simpl in Hsegs.
    apply chunk_output. exact Hsegs.
Qed.

End ChunkedRun.



(** * Further properties of the dispatcher and the resolver *)

Lemma rebase_undo (offset : Z) (p : Peak) : rebase (- offset) (rebase offset p) = p.
Proof. destruct p as [g s c a]. unfold rebase. simpl. f_equal. lia. Qed.

(** X2.  Order and coverage: for sorted peaks and ordered chunks that cover
    them, the local peaks of the chunks, taken in chunk order and counted
    again from the start of the segment, are the input peaks: none is
    lost, repeated or moved. *)
Theorem dispatcher_keeps_peak_order (peaks : list Peak)
    (chunks : list (nat * Z * Z)) (margin : Z) :
  peaks_sorted peaks ->
  chunks_ordered chunks ->
  chunks_cover chunks peaks ->
  concat (map (fun c =>
                 map (rebase (- (snd (fst c) - margin)))
                     (local_peaks_of_chunk peaks (fst (fst c)) (snd (fst c)) (snd c)
                        margin))
              chunks)
  = peaks.
Proof.
  intros Hs Ho Hc.
  transitivity (concat (map (fun c => List.filter (in_chunk c) peaks) chunks));
    [|apply chunks_tile_peaks; assumption].
  f_equal. apply map_ext. intros [[g s] e]. simpl.
  rewrite local_peaks_of_chunk_sorted by exact Hs.
  rewrite map_map.
  transitivity (map (fun p => p) (List.filter (in_chunk (g, s, e)) peaks));
    [|apply map_id].
  apply map_ext. intros p. apply rebase_undo.
Qed.

(** X2 on three peaks and two chunks with a margin of one sample. *)
Lemma dispatcher_keeps_peak_order_witness :
  concat (map (fun c =>
                 map (rebase (- (snd (fst c) - 1)))
                     (local_peaks_of_chunk Sample.three_peaks (fst (fst c))
                        (snd (fst c)) (snd c) 1))
              [(0%nat, 0, 2); (0%nat, 2, 4)])
  = Sample.three_peaks.
Proof.
  apply (dispatcher_keeps_peak_order Sample.three_peaks [(0%nat, 0, 2); (0%nat, 2, 4)] 1).
  - apply SSorted_cons; [apply SSorted_cons; [apply SSorted_cons;
      [apply SSorted_nil | constructor]|]|].
    + constructor; [|constructor]. right. simpl. lia.
    + constructor; [|constructor; [|constructor]]; right; simpl; lia.
  - apply SSorted_cons; [apply SSorted_cons; [apply SSorted_nil | constructor]|].
    constructor; [|constructor]. right. simpl. lia.
  - repeat (constructor; [reflexivity|]). constructor.
Defined.

(** X3.  Margin handling: the windows read through the buffer of a chunk are
    the windows read through the buffer of the whole segment, for every
    peak of the chunk and every window within the margin. *)
Theorem chunk_windows_match_unchunked (nchan : nat)
    (recording_segment : list (list Q))
    (start_frame end_frame margin nbefore nafter : Z) (chunk_peaks : list Peak) :
  Forall (fun p => start_frame <= sample_ind p < end_frame) chunk_peaks ->
  0 <= start_frame -> end_frame <= Z.of_nat (length recording_segment) ->
  0 <= nbefore <= margin -> 0 <= nafter <= margin ->
  extract_waveforms
    (fst (fst (get_chunk_with_margin nchan recording_segment
                 start_frame end_frame margin)))
    (map (rebase (start_frame - margin)) chunk_peaks) nbefore nafter
  = extract_waveforms
      (fst (fst (get_chunk_with_margin nchan recording_segment
                   0 (Z.of_nat (length recording_segment)) margin)))
      (map (rebase (0 - margin)) chunk_peaks) nbefore nafter
  /\ is_ok (extract_waveforms
              (fst (fst (get_chunk_with_margin nchan recording_segment
                           start_frame end_frame margin)))
              (map (rebase (start_frame - margin)) chunk_peaks) nbefore nafter)
     = true.
Proof.
  intros Hp Hs He Hb Ha.
  rewrite !extract_waveforms_chunk; try assumption.
  - split; reflexivity.
  - eapply List.Forall_impl; [|exact Hp]. simpl. intros; lia.
Qed.

(** X3 for the last peak of the sample segment, whose window reaches
    past the end of the signal. *)
Lemma chunk_windows_match_unchunked_witness :
  extract_waveforms
    (fst (fst (get_chunk_with_margin 2 (nth 0 (segments Sample.pair_2d) []) 2 4 1)))
    (map (rebase (2 - 1)) [Sample.peak_b]) 1 1
  = extract_waveforms
      (fst (fst (get_chunk_with_margin 2 (nth 0 (segments Sample.pair_2d) []) 0 4 1)))
      (map (rebase (0 - 1)) [Sample.peak_b]) 1 1.
Proof.
  apply (chunk_windows_match_unchunked 2 (nth 0 (segments Sample.pair_2d) [])
           2 4 1 1 1 [Sample.peak_b]).
  - constructor; [simpl; lia | constructor].
  - lia.
  - simpl. lia.
  - lia.
  - lia.
Defined.

(** ** What the sparsity loop computes *)

Lemma nonzero_from_insert (b pre : list bool) (i : nat) :
  length pre = i ->
  fold_left (fun r j => <[j := true]> r) (nonzero_from i b)
            (pre ++ repeat false (length b))%list
  = (pre ++ b)%list.
Proof.
  revert pre i. induction b as [|x b IH]; intros pre i Hi; simpl; [reflexivity|].
  destruct x; simpl.
  - rewrite <- Hi, insert_after_prefix. rewrite IH by (rewrite length_app; simpl; lia).
    rewrite <- app_assoc. reflexivity.
  - change (pre ++ false :: repeat false (length b))%list
      with (pre ++ [false] ++ repeat false (length b))%list.
    rewrite app_assoc. rewrite IH by (rewrite length_app; simpl; lia).
    rewrite <- app_assoc. reflexivity.
Qed.

Lemma nonzero_from_bound (b : list bool) (i j : nat) :
  In j (nonzero_from i b) -> (j < i + length b)%nat.
Proof.
  revert i. induction b as [|x b IH]; intros i; simpl; [intros []|].
  destruct x; simpl.
  - intros [<-|H]; [lia|]. apply IH in H. lia.
  - intros H. apply IH in H. lia.
Qed.

Lemma mask_set_true_fresh (done : list (list bool)) (b : list bool) (rest : nat) :
  mask_set_true (done ++ repeat (repeat false (length b)) (S rest))%list
    (length done) (np_nonzero b)
  = Ok ((done ++ [b]) ++ repeat (repeat false (length b)) rest)%list.
Proof.
  unfold mask_set_true, index_row.
  rewrite lookup_app_r by lia. rewrite Nat.sub_diag. simpl.
  rewrite repeat_length.
  replace (forallb _ (np_nonzero b)) with true.
  - rewrite insert_after_prefix.
    pose proof (nonzero_from_insert b [] 0 eq_refl) as Hb. simpl in Hb.
    unfold np_nonzero. rewrite Hb. reflexivity.
  - symmetry. apply forallb_forall. intros j Hj.
    apply nonzero_from_bound in Hj. apply Nat.ltb_lt. lia.
Qed.

Lemma sparsity_loop (recording : Recording) (peaks_size : nat) (radius : pyval)
    (r : Q) (n : nat) :
  as_num radius = Ok r ->
  (num_channels recording <= peaks_size)%nat ->
  length (channel_distances recording) = num_channels recording ->
  Forall (fun drow => length drow = num_channels recording)
         (channel_distances recording) ->
  forall k : nat,
    (k + n = num_channels recording)%nat ->
    foldM (sparsity_step (channel_distances recording) radius) (seq k n)
      (map (within_radius r) (firstn k (channel_distances recording))
       ++ repeat (repeat false (num_channels recording)) (peaks_size - k))%list
    = Ok (map (within_radius r) (firstn (k + n) (channel_distances recording))
          ++ repeat (repeat false (num_channels recording))
               (peaks_size - (k + n)))%list.
Proof.
  intros Hr Hpeaks Hlen Hrows.
  induction n as [|n IH]; intros k Hk; simpl.
  - rewrite Nat.add_0_r. reflexivity.
  - destruct (lookup_lt_is_Some_2 (channel_distances recording) k ltac:(lia))
      as [drow Hd].
    assert (Hdrow : length drow = num_channels recording).
    { rewrite List.Forall_forall in Hrows. apply Hrows.
      apply list_elem_of_In. eapply list_elem_of_lookup_2. exact Hd. }
    unfold sparsity_step at 1. unfold index_row at 1. rewrite Hd. simpl.
    rewrite Hr. simpl.
    replace (peaks_size - k)%nat with (S (peaks_size - S k)) by lia.
    assert (Hdone : length (map (within_radius r)
                              (firstn k (channel_distances recording))) = k).
    { rewrite length_map, length_take. lia. }
    pose proof (mask_set_true_fresh
                  (map (within_radius r) (firstn k (channel_distances recording)))
                  (within_radius r drow) (peaks_size - S k)) as Hset.
    assert (Hb : length (within_radius r drow) = num_channels recording)
      by (unfold within_radius; rewrite length_map; exact Hdrow).
    rewrite Hb, Hdone in Hset. unfold within_radius at 2 in Hset.
    rewrite Hset. simpl.
    replace (k + S n)%nat with (S k + n)%nat by lia.
    rewrite <- IH by lia. f_equal. f_equal.
    rewrite (take_S_r _ _ _ Hd), map_app. reflexivity.
Qed.

(** X4.  With at least as many peaks as channels and a square distance
    matrix, the sparsity loop succeeds and returns one row per peak:
    row [i] of the first [num_chans] rows marks the channels whose
    distance to channel [i] is at most the radius (ties included), and
    the remaining rows are all false. *)
Theorem sparsity_mask_with_enough_peaks (recording : Recording) (peaks_size : nat)
    (radius : pyval) (r : Q) :
  as_num radius = Ok r ->
  (num_channels recording <= peaks_size)%nat ->
  length (channel_distances recording) = num_channels recording ->
  Forall (fun drow => length drow = num_channels recording)
         (channel_distances recording) ->
  build_sparsity_mask recording peaks_size radius
  = Ok (map (within_radius r) (channel_distances recording)
        ++ repeat (repeat false (num_channels recording))
             (peaks_size - num_channels recording))%list.
Proof.
  intros Hr Hpeaks Hlen Hrows. unfold build_sparsity_mask, np_zeros2.
  pose proof (sparsity_loop recording peaks_size radius r (num_channels recording)
                Hr Hpeaks Hlen Hrows 0%nat eq_refl) as Hloop.
  simpl in Hloop. rewrite Nat.sub_0_r in Hloop. rewrite Hloop.
  rewrite <- Hlen at 1. rewrite firstn_all. reflexivity.
Qed.

(** X4 on two channels and three peaks. *)
Lemma sparsity_mask_with_enough_peaks_witness :
  build_sparsity_mask Sample.pair_2d 3 (VInt 50)
  = Ok (map (within_radius (inject_Z 50)) (channel_distances Sample.pair_2d)
        ++ repeat (repeat false (num_channels Sample.pair_2d))
             (3 - num_channels Sample.pair_2d))%list.
Proof.
  apply (sparsity_mask_with_enough_peaks Sample.pair_2d 3 (VInt 50) (inject_Z 50)).
  - reflexivity.
  - simpl. lia.
  - reflexivity.
  - repeat (constructor; [reflexivity|]). constructor.
Defined.

(** X5 on the recording with three coordinates per channel. *)
Lemma resolve_params_nb_com_dims_witness :
  p_nb_com_dims
    (match snd (resolve_params Sample.pair_3d Sample.two_peaks ["ptp"; "com"] []
                  1%Q 1%Q true None initial_heap) with
     | Ok p => p
     | Raise _ => Sample.default_params
     end) = Some 2%nat.
Proof.
  apply (resolve_params_nb_com_dims Sample.pair_3d Sample.two_peaks ["ptp"; "com"] []
           1%Q 1%Q true None initial_heap).
  - right. left. reflexivity.
  - vm_compute. reflexivity.
Defined.


Lemma entry_set_lookup (tbl : table) (h : heap) (f k : string) (v : pyval)
    (addr : nat) (d : pydict) :
  tbl !! f = Some addr -> h !! addr = Some d ->
  entry_set tbl h f k v = <[addr := <[k := v]> d]> h.
Proof. intros Ht Hh. unfold entry_set. rewrite Ht, Hh. reflexivity. Qed.

Lemma entry_get_lookup (tbl : table) (h : heap) (f k : string)
    (addr : nat) (d : pydict) :
  tbl !! f = Some addr -> h !! addr = Some d ->
  entry_get tbl h f k = match d !! k with Some v => Ok v | None => Raise (KeyError k) end.
Proof. intros Ht Hh. unfold entry_get. rewrite Ht, Hh. reflexivity. Qed.

Lemma entry_has_lookup (tbl : table) (h : heap) (f k : string)
    (addr : nat) (d : pydict) :
  tbl !! f = Some addr -> h !! addr = Some d ->
  entry_has tbl h f k = bool_decide (is_Some (d !! k)).
Proof. intros Ht Hh. unfold entry_has. rewrite Ht, Hh. reflexivity. Qed.

(** What a successful turn of the window loop read and wrote. *)
Lemma resolve_feature_ok_inv (recording : Recording) (n : nat) (tbl : table)
    (f : string) (st st' : resolve_state) (h h' : heap) :
  resolve_feature recording n tbl f st h = (h', Ok st') ->
  exists addr d vb va cb ca mask,
    tbl !! f = Some addr /\ h !! addr = Some d /\
    d !! "ms_before" = Some vb /\ d !! "ms_after" = Some va /\
    pick_ms vb (rs_ms_before st) = Ok (rs_ms_before st', cb) /\
    pick_ms va (rs_ms_after st) = Ok (rs_ms_after st', ca) /\
    rs_global_times st' = (if cb || ca then false else rs_global_times st) /\
    rs_nbefore_max st'
      = Z.max (rs_nbefore_max st)
              (ms_to_samples (rs_ms_before st') (sampling_frequency recording)) /\
    rs_nafter_max st'
      = Z.max (rs_nafter_max st)
              (ms_to_samples (rs_ms_after st') (sampling_frequency recording)) /\
    h' = <[addr := window_entry d
                     (ms_to_samples (rs_ms_before st') (sampling_frequency recording))
                     (ms_to_samples (rs_ms_after st') (sampling_frequency recording))
                     mask]> h /\
    match d !! "local_radius_um" with
    | Some r => exists m, build_sparsity_mask recording n r = Ok m /\ mask = Some m
    | None => mask = None
    end.
Proof.
  unfold resolve_feature.
  destruct (tbl !! f) as [addr|] eqn:Ht.
  2: { unfold entry_get. rewrite Ht. simpl. discriminate. }
  destruct (h !! addr) as [d|] eqn:Hh.
  2: { unfold entry_get. rewrite Ht, Hh. simpl. discriminate. }
  rewrite (entry_get_lookup _ _ _ _ _ _ Ht Hh).
  destruct (d !! "ms_before") as [vb|] eqn:Hvb; simpl; [|discriminate].
  destruct (pick_ms vb (rs_ms_before st)) as [[msb cb]|e2] eqn:Hpb; [|discriminate].
  set (nb := ms_to_samples msb (sampling_frequency recording)).
  rewrite (entry_set_lookup _ _ _ _ _ _ _ Ht Hh).
  set (h1 := <[addr := <["nbefore" := VInt nb]> d]> h).
  assert (Hh1 : h1 !! addr = Some (<["nbefore" := VInt nb]> d)) by apply lookup_insert_eq.
  rewrite (entry_get_lookup _ _ _ _ _ _ Ht Hh1).
  rewrite lookup_insert_ne by discriminate.
  destruct (d !! "ms_after") as [va|] eqn:Hva; simpl; [|discriminate].
  destruct (pick_ms va (rs_ms_after st)) as [[msa ca]|e4] eqn:Hpa; [|discriminate].
  set (na := ms_to_samples msa (sampling_frequency recording)).
  rewrite (entry_set_lookup _ _ _ _ _ _ _ Ht Hh1).
  set (d2 := <["nafter" := VInt na]> (<["nbefore" := VInt nb]> d)).
  set (h2 := <[addr := d2]> h1).
  assert (Hh2 : h2 !! addr = Some d2) by apply lookup_insert_eq.
  assert (Hh2' : h2 = <[addr := d2]> h) by (unfold h2, h1; apply insert_insert_eq).
  rewrite (entry_has_lookup _ _ _ _ _ _ Ht Hh2).
  rewrite (entry_get_lookup _ _ _ _ _ _ Ht Hh2).
  assert (Hr : d2 !! "local_radius_um" = d !! "local_radius_um").
  { unfold d2. rewrite !lookup_insert_ne by discriminate. reflexivity. }
  rewrite Hr.
  destruct (d !! "local_radius_um") as [r|] eqn:Hrad.
  - rewrite bool_decide_eq_true_2 by eauto. simpl.
    destruct (build_sparsity_mask recording n r) as [m|e6] eqn:Hm; [|discriminate].
    intros H. inversion H; subst; clear H. simpl.
    exists addr, d, vb, va, cb, ca, (Some m).
    repeat split; try assumption; try reflexivity.
    + destruct (Z.ltb_spec (rs_nbefore_max st) nb); lia.
    + destruct (Z.ltb_spec (rs_nafter_max st) na); lia.
    + rewrite (entry_set_lookup _ _ _ _ _ _ _ Ht Hh2), Hh2'.
      rewrite insert_insert_eq. reflexivity.
    + rewrite Hrad. exists m. split; [exact Hm | reflexivity].
  - rewrite bool_decide_eq_false_2 by (intros [? ?]; discriminate).
    intros H. inversion H; subst; clear H. simpl.
    exists addr, d, vb, va, cb, ca, None.
    repeat split; try assumption; try reflexivity.
    + destruct (Z.ltb_spec (rs_nbefore_max st) nb); lia.
    + destruct (Z.ltb_spec (rs_nafter_max st) na); lia.
    + rewrite Hrad. reflexivity.
Qed.

(** ** The validation loop, in full *)

Lemma com_precedes_dist_nil : com_precedes_dist [].
Proof. intros l1 l2 H. destruct l1; discriminate. Qed.

Lemma com_precedes_dist_com (l : list string) : com_precedes_dist ("com" :: l).
Proof.
  intros l1 l2 H. destruct l1 as [|x l1]; simpl in H; inversion H; subst.
  left. reflexivity.
Qed.

Lemma com_precedes_dist_dist (l : list string) :
  ~ com_precedes_dist ("dist_com_vs_max_ptp_channel" :: l).
Proof. intros H. destruct (H [] l eq_refl). Qed.

Lemma com_precedes_dist_other (f : string) (l : list string) :
  f <> "com" -> f <> "dist_com_vs_max_ptp_channel" ->
  com_precedes_dist (f :: l) <-> com_precedes_dist l.
Proof.
  intros Hc Hd. split; intros H l1 l2 Hl.
  - destruct (H (f :: l1) l2) as [Heq|Hin]; [simpl; rewrite Hl; reflexivity | congruence | exact Hin].
  - destruct l1 as [|x l1]; simpl in Hl; inversion Hl; subst; [congruence|].
    right. apply (H l1 l2). reflexivity.
Qed.

Lemma check_feature_list_ok (tbl : table) (l : list string) (has_com : bool) :
  check_feature_list tbl l has_com = Ok tt <->
  Forall (known_in tbl) l /\ (has_com = false -> com_precedes_dist l).
Proof.
  revert has_com. induction l as [|f rest IH]; intros has_com; simpl.
  - split; [|reflexivity]. intros _. split; [constructor|].
    intros _. apply com_precedes_dist_nil.
  - destruct (tbl !! f) as [addr|] eqn:Hf.
    + assert (Hk : known_in tbl f) by (unfold known_in; rewrite Hf; eauto).
      destruct (String.eqb_spec f "com") as [->|Hcom].
      * simpl. rewrite IH. split.
        -- intros [HF _]. split; [constructor; assumption|].
           intros _. apply com_precedes_dist_com.
        -- intros [HF _]. inversion HF; subst. split; [assumption | discriminate].
      * destruct (String.eqb_spec f "dist_com_vs_max_ptp_channel") as [->|Hd].
        -- destruct has_com; simpl.
           ++ rewrite IH. split.
              ** intros [HF _]. split; [constructor; assumption | discriminate].
              ** intros [HF _]. inversion HF; subst. split; [assumption | discriminate].
           ++ split; [discriminate|]. intros [_ H].
              exfalso. apply (com_precedes_dist_dist rest). apply H. reflexivity.
        -- simpl. rewrite IH. split.
           ++ intros [HF H]. split; [constructor; assumption|].
              intros Hc. apply com_precedes_dist_other; auto.
           ++ intros [HF H]. inversion HF; subst. split; [assumption|].
              intros Hc. apply (com_precedes_dist_other f rest); auto.
    + split; [discriminate|]. intros [HF _]. inversion HF as [|? ? Hk ?]; subst.
      unfold known_in in Hk. rewrite Hf in Hk. destruct Hk; discriminate.
Qed.

Lemma known_feature_names (f : string) :
  known_in one_feature_per_peak_params f <->
  In f ["amplitude"; "ptp"; "com"; "dist_com_vs_max_ptp_channel"; "energy"].
Proof.
  unfold known_in, one_feature_per_peak_params. split.
  - intros [a Ha].
    repeat (apply lookup_insert_Some in Ha as [[<- _]|[_ Ha]]; [simpl; tauto|]).
    rewrite lookup_empty in Ha. discriminate.
  - simpl. intros [<-|[<-|[<-|[<-|[<-|[]]]]]]; vm_compute; eauto.
Qed.

(** X7.  The validation loop passes exactly when every requested name
    is one of the five keys of the scalar table, in both modes, and
    every [dist_com_vs_max_ptp_channel] has a [com] before it. *)
Theorem validation_passes_iff (one_feature_per_peak : bool) (feature_list : list string) :
  check_feature_list (select_table one_feature_per_peak) feature_list false = Ok tt <->
  Forall (fun f => In f ["amplitude"; "ptp"; "com"; "dist_com_vs_max_ptp_channel"; "energy"])
         feature_list /\
  com_precedes_dist feature_list.
Proof.
  rewrite select_table_any_mode, check_feature_list_ok. split.
  - intros [HF H]. split; [|auto].
    eapply List.Forall_impl; [|exact HF]. intros f. apply known_feature_names.
  - intros [HF H]. split; [|auto].
    eapply List.Forall_impl; [|exact HF]. intros f. apply known_feature_names.
Qed.

Lemma check_feature_list_unknown (tbl : table) (l : list string) (has_com : bool) :
  check_feature_list tbl l has_com = Raise (AssertionError msg_unknown) <->
  exists l1 x l2,
    l = (l1 ++ x :: l2)%list /\ tbl !! x = None /\
    check_feature_list tbl l1 has_com = Ok tt.
Proof.
  revert has_com. induction l as [|f rest IH]; intros has_com; simpl.
  - split; [discriminate|]. intros (l1 & x & l2 & H & _). destruct l1; discriminate.
  - destruct (tbl !! f) as [addr|] eqn:Hf.
    + set (hc := if String.eqb f "com" then true else has_com).
      destruct (String.eqb f "dist_com_vs_max_ptp_channel" && negb hc) eqn:Hdep.
      * split; [intros H; inversion H|].
        intros (l1 & x & l2 & H & Hx & Hok).
        destruct l1 as [|y l1]; simpl in H; inversion H; subst; [congruence|].
        simpl in Hok. rewrite Hf in Hok. fold hc in Hok. rewrite Hdep in Hok. discriminate.
      * rewrite IH. split.
        -- intros (l1 & x & l2 & -> & Hx & Hok).
           exists (f :: l1), x, l2. split; [reflexivity|]. split; [exact Hx|].
           simpl. rewrite Hf. fold hc. rewrite Hdep. exact Hok.
        -- intros (l1 & x & l2 & H & Hx & Hok).
           destruct l1 as [|y l1]; simpl in H; inversion H; subst; [congruence|].
           exists l1, x, l2. split; [reflexivity|]. split; [exact Hx|].
           simpl in Hok. rewrite Hf in Hok. fold hc in Hok. rewrite Hdep in Hok. exact Hok.
    + split; [|reflexivity]. intros _. exists [], f, rest. repeat split. exact Hf.
Qed.

Lemma check_feature_list_unknown_names (l : list string) :
  check_feature_list one_feature_per_peak_params l false
    = Raise (AssertionError msg_unknown) <->
  exists l1 x l2,
    l = (l1 ++ x :: l2)%list /\
    ~ In x ["amplitude"; "ptp"; "com"; "dist_com_vs_max_ptp_channel"; "energy"] /\
    Forall (fun f => In f ["amplitude"; "ptp"; "com"; "dist_com_vs_max_ptp_channel"; "energy"])
           l1 /\
    com_precedes_dist l1.
Proof.
  rewrite check_feature_list_unknown. split.
  - intros (l1 & x & l2 & Hl & Hx & Hok). exists l1, x, l2.
    apply check_feature_list_ok in Hok as [HF Hc].
    split; [exact Hl|]. split; [|split; [|auto]].
    + rewrite <- known_feature_names. unfold known_in. rewrite Hx.
      intros [? ?]; discriminate.
    + eapply List.Forall_impl; [|exact HF]. intros f. apply known_feature_names.
  - intros (l1 & x & l2 & Hl & Hx & HF & Hc). exists l1, x, l2.
    split; [exact Hl|]. split.
    + rewrite <- known_feature_names in Hx. unfold known_in in Hx.
      destruct (one_feature_per_peak_params !! x); [|reflexivity].
      exfalso. apply Hx. eauto.
    + apply check_feature_list_ok. split; [|auto].
      eapply List.Forall_impl; [|exact HF]. intros f. apply known_feature_names.
Qed.

(** X8.  The call raises the unknown-feature assertion exactly when the
    overrides were applied without error and the request holds a name
    outside the five keys of the scalar table with a valid request
    before it; the mode plays no part.  The error is then the result of
    the whole call, whatever the chunks. *)
Theorem unknown_feature_error_iff
    (recording : Recording) (peaks : list Peak) (feature_list : list string)
    (feature_params : list (string * list (string * pyval)))
    (ms_before ms_after : Q) (one_feature_per_peak : bool)
    (smoothing : option string) (h : heap) :
  let r := resolve_params recording peaks feature_list feature_params
             ms_before ms_after one_feature_per_peak smoothing h in
  (snd r = Raise (AssertionError msg_unknown) <->
   snd (apply_overrides (select_table one_feature_per_peak) feature_params h) = Ok tt /\
   exists l1 x l2,
     feature_list = (l1 ++ x :: l2)%list /\
     ~ In x ["amplitude"; "ptp"; "com"; "dist_com_vs_max_ptp_channel"; "energy"] /\
     Forall (fun f => In f ["amplitude"; "ptp"; "com"; "dist_com_vs_max_ptp_channel";
                            "energy"]) l1 /\
     com_precedes_dist l1) /\
  (forall np_linalg_norm np_sqrt np_divide chunks,
     snd r = Raise (AssertionError msg_unknown) ->
     snd (compute_features_from_peaks np_linalg_norm np_sqrt np_divide recording peaks
            feature_list feature_params ms_before ms_after one_feature_per_peak
            smoothing chunks h) = Raise (AssertionError msg_unknown)).
Proof.
  cbv zeta. split.
  2: { intros. apply resolution_error_stops_run. assumption. }
  rewrite <- check_feature_list_unknown_names.
  unfold resolve_params. rewrite select_table_any_mode.
  destruct (apply_overrides one_feature_per_peak_params feature_params h)
    as [h1 [[]|e1]] eqn:Ha; simpl.
  - destruct (check_feature_list one_feature_per_peak_params feature_list false)
      as [[]|e2] eqn:Hc.
    + split; [|intros [_ H]; discriminate].
      intros H.
      destruct (resolve_windows _ _ _ _ _ _) as [h2 [st|e3]] eqn:Hw; simpl in H;
        [discriminate|].
      inversion H; subst. apply resolve_windows_not_assertion in Hw. discriminate.
    + simpl. split.
      * intros H. inversion H; subst. split; reflexivity.
      * intros [_ H]. inversion H. reflexivity.
  - split.
    + intros H. inversion H; subst.
      apply apply_overrides_not_assertion in Ha. discriminate.
    + intros [H _]. discriminate.
Qed.

(** ** Overrides with an unknown key *)

Lemma heap_holds_insert (tbl : table) (h : heap) (a : nat) (d : pydict) :
  heap_holds tbl h -> heap_holds tbl (<[a := d]> h).
Proof.
  intros H f addr Hf. destruct (decide (a = addr)) as [->|Hne].
  - rewrite lookup_insert_eq. eauto.
  - rewrite lookup_insert_ne by exact Hne. eapply H. exact Hf.
Qed.

Lemma apply_overrides_unknown_key (tbl : table)
    (l1 : list (string * list (string * pyval))) (key : string)
    (ov : list (string * pyval)) (l2 : list (string * list (string * pyval)))
    (h : heap) :
  heap_holds tbl h ->
  Forall (fun kv => known_in tbl (fst kv)) l1 ->
  tbl !! key = None ->
  apply_overrides tbl (l1 ++ (key, ov) :: l2) h
  = (fst (apply_overrides tbl l1 h), Raise (KeyError key)).
Proof.
  revert h. induction l1 as [|[k o] l1 IH]; intros h Hh HF Hkey; simpl.
  - rewrite Hkey. reflexivity.
  - inversion HF as [|? ? Hk HF']; subst. simpl in Hk.
    destruct Hk as [addr Ha]. rewrite Ha.
    destruct (Hh k addr Ha) as [d Hd]. rewrite Hd.
    apply IH; [apply heap_holds_insert; exact Hh | exact HF' | exact Hkey].
Qed.

(** X9.  An override for a name that is no key of the table makes the
    call raise [KeyError] with that name, whatever the request, the mode
    and the chunks; the overrides listed before it have by then been
    written into the module-level dictionaries and stay there. *)
Theorem unknown_override_key_raises
    (np_linalg_norm : list Q -> Q) (np_sqrt : Q -> Q) (np_divide : Q -> Q -> Q)
    (recording : Recording) (peaks : list Peak) (feature_list : list string)
    (l1 : list (string * list (string * pyval))) (key : string)
    (ov : list (string * pyval)) (l2 : list (string * list (string * pyval)))
    (ms_before ms_after : Q) (one_feature_per_peak : bool)
    (smoothing : option string) (chunks : list (nat * Z * Z)) (h : heap) :
  heap_holds one_feature_per_peak_params h ->
  Forall (fun kv => In (fst kv)
                      ["amplitude"; "ptp"; "com"; "dist_com_vs_max_ptp_channel"; "energy"])
         l1 ->
  ~ In key ["amplitude"; "ptp"; "com"; "dist_com_vs_max_ptp_channel"; "energy"] ->
  let r := compute_features_from_peaks np_linalg_norm np_sqrt np_divide recording peaks
             feature_list (l1 ++ (key, ov) :: l2)%list ms_before ms_after
             one_feature_per_peak smoothing chunks h in
  snd r = Raise (KeyError key) /\
  fst r = fst (apply_overrides one_feature_per_peak_params l1 h).
Proof.
  intros Hh HF Hkey. cbv zeta.
  unfold compute_features_from_peaks, resolve_params.
  rewrite select_table_any_mode.
  rewrite apply_overrides_unknown_key.
  - split; reflexivity.
  - exact Hh.
  - eapply List.Forall_impl; [|exact HF]. intros kv. apply known_feature_names.
  - rewrite <- known_feature_names in Hkey. unfold known_in in Hkey.
    destruct (one_feature_per_peak_params !! key); [|reflexivity].
    exfalso. apply Hkey. eauto.
Qed.

Lemma initial_heap_holds : heap_holds one_feature_per_peak_params initial_heap.
Proof.
  intros f addr Hf. unfold one_feature_per_peak_params in Hf.
  repeat (apply lookup_insert_Some in Hf as [[_ <-]|[_ Hf]]; [vm_compute; eauto|]).
  rewrite lookup_empty in Hf. discriminate.
Qed.

(** X9 with an override of [peak_sign] followed by one under the name
    that the docstring gives to the distance feature. *)
Lemma unknown_override_key_raises_witness :
  let r := compute_features_from_peaks Sample.norm1 Sample.sqrt_id Qdiv
             Sample.pair_2d Sample.two_peaks ["amplitude"]
             ([("amplitude", [("peak_sign", VStr "pos")])]
              ++ ("dist_com_vs_max_p2p_channel", [("local_radius_um", VInt 75)]) :: [])%list
             1%Q 1%Q true None [(0%nat, 0, 4)] initial_heap in
  snd r = Raise (KeyError "dist_com_vs_max_p2p_channel") /\
  fst r = fst (apply_overrides one_feature_per_peak_params
                 [("amplitude", [("peak_sign", VStr "pos")])] initial_heap).
Proof.
  apply (unknown_override_key_raises Sample.norm1 Sample.sqrt_id Qdiv
           Sample.pair_2d Sample.two_peaks ["amplitude"]
           [("amplitude", [("peak_sign", VStr "pos")])]
           "dist_com_vs_max_p2p_channel" [("local_radius_um", VInt 75)] []
           1%Q 1%Q true None [(0%nat, 0, 4)] initial_heap).
  - exact initial_heap_holds.
  - constructor; [simpl; tauto | constructor].
  - simpl. intros [H|[H|[H|[H|[H|[]]]]]]; discriminate.
Defined.

(** ** What the resolution writes, and where *)

Lemma entry_set_frame (tbl : table) (h : heap) (f k : string) (v : pyval) (a : nat) :
  tbl !! f <> Some a -> entry_set tbl h f k v !! a = h !! a.
Proof.
  intros Hne. unfold entry_set.
  destruct (tbl !! f) as [addr|]; [|reflexivity].
  destruct (h !! addr) as [d|]; [|reflexivity].
  apply lookup_insert_ne. congruence.
Qed.

Lemma resolve_feature_frame (recording : Recording) (n : nat) (tbl : table)
    (f : string) (st : resolve_state) (h : heap) (a : nat) :
  tbl !! f <> Some a ->
  fst (resolve_feature recording n tbl f st h) !! a = h !! a.
Proof.
  intros Hne. unfold resolve_feature.
  destruct (let* own_before := entry_get tbl h f "ms_before" in
            pick_ms own_before (rs_ms_before st)) as [[msb cb]|e1]; [|reflexivity].
  match goal with |- context [let* own_after := entry_get tbl ?hh f "ms_after" in _] =>
    destruct (let* own_after := entry_get tbl hh f "ms_after" in
              pick_ms own_after (rs_ms_after st)) as [[msa ca]|e2] end.
  2: { simpl. apply entry_set_frame. exact Hne. }
  match goal with |- context [entry_has tbl ?hh f "local_radius_um"] =>
    destruct (entry_has tbl hh f "local_radius_um") end.
  2: { simpl. rewrite !entry_set_frame by exact Hne. reflexivity. }
  match goal with |- context [let* radius := ?x in _] =>
    destruct (let* radius := x in build_sparsity_mask recording n radius) as [m|e3] end;
    simpl; rewrite !entry_set_frame by exact Hne; reflexivity.
Qed.

Lemma resolve_windows_frame (recording : Recording) (n : nat) (tbl : table)
    (l : list string) (st : resolve_state) (h : heap) (a : nat) :
  (forall f, In f l -> tbl !! f <> Some a) ->
  fst (resolve_windows recording n tbl l st h) !! a = h !! a.
Proof.
  revert st h. induction l as [|f l IH]; intros st h Hne; simpl; [reflexivity|].
  pose proof (resolve_feature_frame recording n tbl f st h a (Hne f (or_introl eq_refl)))
    as Hf.
  destruct (resolve_feature recording n tbl f st h) as [h1 [st1|e1]]; simpl in *.
  - rewrite IH by (intros g Hg; apply Hne; right; exact Hg). exact Hf.
  - exact Hf.
Qed.

Lemma apply_overrides_frame (tbl : table)
    (fps : list (string * list (string * pyval))) (h : heap) (a : nat) :
  (forall f, In f (map fst fps) -> tbl !! f <> Some a) ->
  fst (apply_overrides tbl fps h) !! a = h !! a.
Proof.
  revert h. induction fps as [|[k o] fps IH]; intros h Hne; simpl; [reflexivity|].
  destruct (tbl !! k) as [addr|] eqn:Hk; [|reflexivity].
  destruct (h !! addr) as [d|]; [|reflexivity].
  rewrite IH by (intros g Hg; apply Hne; right; exact Hg).
  apply lookup_insert_ne. intros ->. apply (Hne k); [left; reflexivity | exact Hk].
Qed.

Lemma resolve_params_frame (recording : Recording) (peaks : list Peak)
    (feature_list : list string)
    (feature_params : list (string * list (string * pyval)))
    (ms_before ms_after : Q) (one_feature_per_peak : bool)
    (smoothing : option string) (h : heap) (a : nat) :
  (forall f, In f feature_list \/ In f (map fst feature_params) ->
             one_feature_per_peak_params !! f <> Some a) ->
  fst (resolve_params recording peaks feature_list feature_params
         ms_before ms_after one_feature_per_peak smoothing h) !! a = h !! a.
Proof.
  intros Hne. unfold resolve_params. rewrite select_table_any_mode.
  pose proof (apply_overrides_frame one_feature_per_peak_params feature_params h a
                (fun f Hf => Hne f (or_intror Hf))) as Ha.
  destruct (apply_overrides one_feature_per_peak_params feature_params h)
    as [h1 [[]|e1]]; simpl in *; [|exact Ha].
  destruct (check_feature_list one_feature_per_peak_params feature_list false)
    as [[]|e2]; simpl; [|exact Ha].
  pose proof (resolve_windows_frame recording (length peaks) one_feature_per_peak_params
                feature_list
                {| rs_ms_before := ms_before; rs_ms_after := ms_after;
                   rs_global_times := true; rs_nbefore_max := 0; rs_nafter_max := 0;
                   rs_chan_locs := None; rs_nb_com_dims := None |} h1 a
                (fun f Hf => Hne f (or_introl Hf))) as Hw.
  destruct (resolve_windows _ _ _ _ _ _) as [h2 [st|e3]]; simpl in *;
    rewrite Hw; exact Ha.
Qed.

Lemma table_injective (f g : string) (a : nat) :
  one_feature_per_peak_params !! f = Some a ->
  one_feature_per_peak_params !! g = Some a -> f = g.
Proof.
  unfold one_feature_per_peak_params. intros Hf Hg.
  repeat (apply lookup_insert_Some in Hf as [[<- <-]|[_ Hf]];
          [repeat (apply lookup_insert_Some in Hg as [[<- Hg]|[_ Hg]];
                   [first [reflexivity | discriminate]|]);
           rewrite lookup_empty in Hg; discriminate|]).
  rewrite lookup_empty in Hf. discriminate.
Qed.

Lemma tables_disjoint (f g : string) (a : nat) :
  one_feature_per_peak_params !! f = Some a ->
  n_chans_features_per_peak_params !! g = Some a -> False.
Proof.
  unfold one_feature_per_peak_params, n_chans_features_per_peak_params. intros Hf Hg.
  repeat (apply lookup_insert_Some in Hg as [[_ <-]|[_ Hg]];
          [repeat (apply lookup_insert_Some in Hf as [[_ Hf]|[_ Hf]]; [discriminate|]);
           rewrite lookup_empty in Hf; discriminate|]).
  rewrite lookup_empty in Hg. discriminate.
Qed.

(** X10.  A call writes only into the dictionaries of the features that
    the request or the overrides name: the module-level dictionary of
    any other feature is the same object after the call as before,
    whether the call returns or raises; and no call touches the
    dictionaries of the per-channel table. *)
Theorem call_writes_only_named_features
    (np_linalg_norm : list Q -> Q) (np_sqrt : Q -> Q) (np_divide : Q -> Q -> Q)
    (recording : Recording) (peaks : list Peak) (feature_list : list string)
    (feature_params : list (string * list (string * pyval)))
    (ms_before ms_after : Q) (one_feature_per_peak : bool)
    (smoothing : option string) (chunks : list (nat * Z * Z)) (h : heap) :
  let h' := fst (compute_features_from_peaks np_linalg_norm np_sqrt np_divide recording
                   peaks feature_list feature_params ms_before ms_after
                   one_feature_per_peak smoothing chunks h) in
  (forall g a,
     one_feature_per_peak_params !! g = Some a ->
     ~ In g feature_list -> ~ In g (map fst feature_params) ->
     h' !! a = h !! a) /\
  (forall g a, n_chans_features_per_peak_params !! g = Some a -> h' !! a = h !! a).
Proof.
  cbv zeta.
  assert (Hfst : fst (compute_features_from_peaks np_linalg_norm np_sqrt np_divide recording
                        peaks feature_list feature_params ms_before ms_after
                        one_feature_per_peak smoothing chunks h)
                 = fst (resolve_params recording peaks feature_list feature_params
                          ms_before ms_after one_feature_per_peak smoothing h)).
  { unfold compute_features_from_peaks.
    destruct (resolve_params _ _ _ _ _ _ _ _ _) as [h' [p|e]]; reflexivity. }
  rewrite Hfst. split.
  - intros g a Hg H1 H2. apply resolve_params_frame. intros f Hf Hfa.
    assert (f = g) as -> by (eapply table_injective; eassumption).
    tauto.
  - intros g a Hg. apply resolve_params_frame. intros f _ Hfa.
    eapply tables_disjoint; eassumption.
Qed.

(** ** Invariants of the window loop *)

Lemma window_entry_nbefore (d : pydict) (nb na : Z) (mask : option (list (list bool))) :
  window_entry d nb na mask !! "nbefore" = Some (VInt nb).
Proof.
  unfold window_entry. destruct mask.
  - rewrite lookup_insert_ne by discriminate. rewrite lookup_insert_ne by discriminate.
    apply lookup_insert_eq.
  - rewrite lookup_insert_ne by discriminate. apply lookup_insert_eq.
Qed.

Lemma window_entry_nafter (d : pydict) (nb na : Z) (mask : option (list (list bool))) :
  window_entry d nb na mask !! "nafter" = Some (VInt na).
Proof.
  unfold window_entry. destruct mask.
  - rewrite lookup_insert_ne by discriminate. apply lookup_insert_eq.
  - apply lookup_insert_eq.
Qed.

Lemma window_entry_other (d : pydict) (nb na : Z) (mask : option (list (list bool)))
    (k : string) :
  k <> "nbefore" -> k <> "nafter" -> k <> "sparsity_mask" ->
  window_entry d nb na mask !! k = d !! k.
Proof.
  intros H1 H2 H3. unfold window_entry. destruct mask.
  - rewrite !lookup_insert_ne by congruence. reflexivity.
  - rewrite !lookup_insert_ne by congruence. reflexivity.
Qed.

Lemma entry_get_insert_same (tbl : table) (h : heap) (addr : nat) (d' : pydict)
    (g k : string) :
  tbl !! g = Some addr ->
  entry_get tbl (<[addr := d']> h) g k
  = match d' !! k with Some v => Ok v | None => Raise (KeyError k) end.
Proof. intros Hg. unfold entry_get. rewrite Hg, lookup_insert_eq. reflexivity. Qed.

Lemma entry_get_insert_other (tbl : table) (h : heap) (addr : nat) (d' : pydict)
    (g k : string) :
  tbl !! g <> Some addr ->
  entry_get tbl (<[addr := d']> h) g k = entry_get tbl h g k.
Proof.
  intros Hg. unfold entry_get. destruct (tbl !! g) as [a|]; [|reflexivity].
  rewrite lookup_insert_ne by congruence. reflexivity.
Qed.

(** A turn of the window loop leaves every key other than the three it
    writes as it was, in every entry. *)
Lemma resolve_feature_keeps_keys (recording : Recording) (n : nat) (tbl : table)
    (f : string) (st st' : resolve_state) (h h' : heap) (g k : string) :
  resolve_feature recording n tbl f st h = (h', Ok st') ->
  k <> "nbefore" -> k <> "nafter" -> k <> "sparsity_mask" ->
  entry_get tbl h' g k = entry_get tbl h g k.
Proof.
  intros H H1 H2 H3.
  apply resolve_feature_ok_inv in H
    as (addr & d & vb & va & cb & ca & mask & Ht & Hh & _ & _ & _ & _ & _ & _ & _ & -> & _).
  destruct (decide (tbl !! g = Some addr)) as [Hg|Hg].
  - rewrite entry_get_insert_same by exact Hg.
    rewrite window_entry_other by assumption.
    unfold entry_get. rewrite Hg, Hh. reflexivity.
  - apply entry_get_insert_other. exact Hg.
Qed.

Lemma resolve_windows_keeps_keys (recording : Recording) (n : nat) (tbl : table)
    (l : list string) (st st' : resolve_state) (h h' : heap) (g k : string) :
  resolve_windows recording n tbl l st h = (h', Ok st') ->
  k <> "nbefore" -> k <> "nafter" -> k <> "sparsity_mask" ->
  entry_get tbl h' g k = entry_get tbl h g k.
Proof.
  revert st h. induction l as [|f l IH]; intros st h H H1 H2 H3; simpl in H.
  - inversion H; subst. reflexivity.
  - destruct (resolve_feature recording n tbl f st h) as [h1 [st1|e1]] eqn:Hf;
      [|discriminate].
    rewrite (IH _ _ H H1 H2 H3).
    eapply resolve_feature_keeps_keys; eassumption.
Qed.

(** *** The maxima cover every window *)

Lemma resolve_feature_within (recording : Recording) (n : nat) (tbl : table)
    (f : string) (st st' : resolve_state) (h h' : heap) :
  resolve_feature recording n tbl f st h = (h', Ok st') ->
  rs_nbefore_max st <= rs_nbefore_max st' /\
  rs_nafter_max st <= rs_nafter_max st' /\
  windows_within tbl h' (rs_nbefore_max st') (rs_nafter_max st') f /\
  forall g, windows_within tbl h (rs_nbefore_max st) (rs_nafter_max st) g ->
            windows_within tbl h' (rs_nbefore_max st') (rs_nafter_max st') g.
Proof.
  intros H.
  apply resolve_feature_ok_inv in H
    as (addr & d & vb & va & cb & ca & mask & Ht & Hh & _ & _ & _ & _ & _ & Hb & Ha & -> & _).
  split; [lia|]. split; [lia|].
  assert (Hsame : forall g, tbl !! g = Some addr ->
            windows_within tbl
              (<[addr := window_entry d
                           (ms_to_samples (rs_ms_before st') (sampling_frequency recording))
                           (ms_to_samples (rs_ms_after st') (sampling_frequency recording))
                           mask]> h)
              (rs_nbefore_max st') (rs_nafter_max st') g).
  { intros g Hg. unfold windows_within.
    rewrite !entry_get_insert_same by exact Hg.
    rewrite window_entry_nbefore, window_entry_nafter.
    do 2 eexists. split; [reflexivity|]. split; [reflexivity|]. lia. }
  split; [apply Hsame; exact Ht|].
  intros g (nb & na & Hnb & Hna & Hle1 & Hle2).
  destruct (decide (tbl !! g = Some addr)) as [Hg|Hg]; [apply Hsame; exact Hg|].
  exists nb, na. rewrite !entry_get_insert_other by exact Hg.
  split; [exact Hnb|]. split; [exact Hna|]. lia.
Qed.

Lemma resolve_windows_within (recording : Recording) (n : nat) (tbl : table)
    (l : list string) (st st' : resolve_state) (h h' : heap) :
  resolve_windows recording n tbl l st h = (h', Ok st') ->
  rs_nbefore_max st <= rs_nbefore_max st' /\
  rs_nafter_max st <= rs_nafter_max st' /\
  Forall (windows_within tbl h' (rs_nbefore_max st') (rs_nafter_max st')) l /\
  forall g, windows_within tbl h (rs_nbefore_max st) (rs_nafter_max st) g ->
            windows_within tbl h' (rs_nbefore_max st') (rs_nafter_max st') g.
Proof.
  revert st h. induction l as [|f l IH]; intros st h H; simpl in H.
  - inversion H; subst. split; [lia|]. split; [lia|]. split; [constructor | auto].
  - destruct (resolve_feature recording n tbl f st h) as [h1 [st1|e1]] eqn:Hf;
      [|discriminate].
    apply resolve_feature_within in Hf as (Hb1 & Ha1 & Hf1 & Hkeep1).
    apply IH in H as (Hb2 & Ha2 & Hl & Hkeep2).
    split; [lia|]. split; [lia|]. split; [constructor; auto | auto].
Qed.

(** X11.  When the resolution returns, the two maxima it hands to the
    workers are not negative and cover the window stored for every
    requested feature, so the margin read around each chunk (the larger
    of the two) is at least as wide as every window on either side. *)
Theorem margin_covers_every_window
    (recording : Recording) (peaks : list Peak) (feature_list : list string)
    (feature_params : list (string * list (string * pyval)))
    (ms_before ms_after : Q) (one_feature_per_peak : bool)
    (smoothing : option string) (h : heap) (fp : Params) :
  snd (resolve_params recording peaks feature_list feature_params
         ms_before ms_after one_feature_per_peak smoothing h) = Ok fp ->
  let margin := Z.max (p_nbefore fp) (p_nafter fp) in
  0 <= p_nbefore fp <= margin /\ 0 <= p_nafter fp <= margin /\
  Forall (fun f => exists nbefore nafter,
            param_get fp f "nbefore" = Ok (VInt nbefore) /\
            param_get fp f "nafter" = Ok (VInt nafter) /\
            nbefore <= p_nbefore fp /\ nafter <= p_nafter fp)
         feature_list.
Proof.
  intros H. cbv zeta. unfold resolve_params in H.
  destruct (apply_overrides _ _ _) as [h1 [[]|e1]]; simpl in H; [|discriminate].
  destruct (check_feature_list _ _ _) as [[]|e2]; simpl in H; [|discriminate].
  destruct (resolve_windows _ _ _ _ _ _) as [h2 [st|e3]] eqn:Hw; simpl in H;
    [|discriminate].
  inversion H; subst; clear H. simpl.
  apply resolve_windows_within in Hw as (Hb & Ha & Hl & _). simpl in Hb, Ha.
  split; [lia|]. split; [lia|]. exact Hl.
Qed.

(** *** The shared-window flag *)

Lemma pick_ms_changed (own : pyval) (current x : Q) (changed : bool) :
  pick_ms own current = Ok (x, changed) ->
  (changed = false <-> own = VNone) /\ (changed = false -> x = current).
Proof.
  destruct own; simpl; intros H; inversion H; subst; split;
    try (split; [reflexivity | discriminate]); try (split; discriminate);
    try reflexivity; try discriminate.
  - split; reflexivity.
Qed.

Lemma resolve_feature_flag (recording : Recording) (n : nat) (tbl : table)
    (f : string) (st st' : resolve_state) (h h' : heap) :
  resolve_feature recording n tbl f st h = (h', Ok st') ->
  (rs_global_times st' = true <->
   rs_global_times st = true /\
   entry_get tbl h f "ms_before" = Ok VNone /\
   entry_get tbl h f "ms_after" = Ok VNone) /\
  (rs_global_times st' = true ->
   rs_ms_before st' = rs_ms_before st /\ rs_ms_after st' = rs_ms_after st).
Proof.
  intros H.
  apply resolve_feature_ok_inv in H
    as (addr & d & vb & va & cb & ca & mask & Ht & Hh & Hvb & Hva & Hpb & Hpa & Hg & _).
  apply pick_ms_changed in Hpb as [Hcb Hxb].
  apply pick_ms_changed in Hpa as [Hca Hxa].
  unfold entry_get. rewrite Ht, Hh, Hvb, Hva. rewrite Hg.
  split.
  - split.
    + destruct cb, ca; simpl; try discriminate.
      intros Hf. split; [exact Hf|].
      rewrite (proj1 Hcb eq_refl), (proj1 Hca eq_refl). split; reflexivity.
    + intros (Hf & Hb & Ha). inversion Hb; subst. inversion Ha; subst.
      rewrite (proj2 Hcb eq_refl), (proj2 Hca eq_refl). exact Hf.
  - destruct cb, ca; simpl; try discriminate. intros _. split; auto.
Qed.

Lemma resolve_windows_flag (recording : Recording) (n : nat) (tbl : table)
    (l : list string) (st st' : resolve_state) (h h' : heap) :
  resolve_windows recording n tbl l st h = (h', Ok st') ->
  (rs_global_times st' = true <->
   rs_global_times st = true /\
   Forall (fun f => entry_get tbl h f "ms_before" = Ok VNone /\
                    entry_get tbl h f "ms_after" = Ok VNone) l) /\
  (rs_global_times st' = true ->
   rs_ms_before st' = rs_ms_before st /\ rs_ms_after st' = rs_ms_after st).
Proof.
  revert st h. induction l as [|f l IH]; intros st h H; simpl in H.
  - inversion H; subst. split; [|auto]. split; [intros ?; split; [assumption | constructor]|].
    intros [? _]. assumption.
  - destruct (resolve_feature recording n tbl f st h) as [h1 [st1|e1]] eqn:Hf;
      [|discriminate].
    pose proof (resolve_feature_flag _ _ _ _ _ _ _ _ Hf) as [Hflag1 Hms1].
    pose proof (IH _ _ H) as [Hflag2 Hms2].
    assert (Hkeys : forall g,
              (entry_get tbl h1 g "ms_before" = Ok VNone /\
               entry_get tbl h1 g "ms_after" = Ok VNone) <->
              (entry_get tbl h g "ms_before" = Ok VNone /\
               entry_get tbl h g "ms_after" = Ok VNone)).
    { intros g.
      rewrite (resolve_feature_keeps_keys _ _ _ _ _ _ _ _ g "ms_before" Hf)
        by discriminate.
      rewrite (resolve_feature_keeps_keys _ _ _ _ _ _ _ _ g "ms_after" Hf)
        by discriminate.
      reflexivity. }
    split.
    + rewrite Hflag2, Hflag1. split.
      * intros [(H0 & Hb & Ha) HF]. split; [exact H0|].
        constructor; [split; assumption|].
        eapply List.Forall_impl; [|exact HF]. intros g. apply Hkeys.
      * intros [H0 HF]. inversion HF as [|? ? [Hb Ha] HF']; subst.
        split; [auto|].
        eapply List.Forall_impl; [|exact HF']. intros g. apply Hkeys.
    + intros Hend. destruct (Hms2 Hend) as [E1 E2].
      apply Hflag2 in Hend as [H1 _]. destruct (Hms1 H1) as [E3 E4].
      split; congruence.
Qed.

(** X12.  The shared-window flag handed to the workers is on exactly
    when no requested feature has a window of its own: both [ms_before]
    and [ms_after] are [None] in the entry of every requested feature,
    after the overrides and whatever earlier calls left there. *)
Theorem global_times_iff_no_own_window
    (recording : Recording) (peaks : list Peak) (feature_list : list string)
    (feature_params : list (string * list (string * pyval)))
    (ms_before ms_after : Q) (one_feature_per_peak : bool)
    (smoothing : option string) (h : heap) (fp : Params) :
  snd (resolve_params recording peaks feature_list feature_params
         ms_before ms_after one_feature_per_peak smoothing h) = Ok fp ->
  (p_global_times fp = true <->
   Forall (fun f => param_get fp f "ms_before" = Ok VNone /\
                    param_get fp f "ms_after" = Ok VNone) feature_list).
Proof.
  intros H. unfold resolve_params in H.
  destruct (apply_overrides _ _ _) as [h1 [[]|e1]]; simpl in H; [|discriminate].
  destruct (check_feature_list _ _ _) as [[]|e2]; simpl in H; [|discriminate].
  destruct (resolve_windows _ _ _ _ _ _) as [h2 [st|e3]] eqn:Hw; simpl in H;
    [|discriminate].
  inversion H; subst; clear H. simpl. unfold param_get. simpl.
  pose proof (resolve_windows_flag _ _ _ _ _ _ _ _ Hw) as [Hflag _].
  rewrite Hflag. simpl. split.
  - intros [_ HF]. eapply List.Forall_impl; [|exact HF]. intros g [Hb Ha].
    cbv beta.
    rewrite (resolve_windows_keeps_keys _ _ _ _ _ _ _ _ g "ms_before" Hw) by discriminate.
    rewrite (resolve_windows_keeps_keys _ _ _ _ _ _ _ _ g "ms_after" Hw) by discriminate.
    split; assumption.
  - intros HF. split; [reflexivity|].
    eapply List.Forall_impl; [|exact HF]. intros g. cbv beta.
    rewrite (resolve_windows_keeps_keys _ _ _ _ _ _ _ _ g "ms_before" Hw) by discriminate.
    rewrite (resolve_windows_keeps_keys _ _ _ _ _ _ _ _ g "ms_after" Hw) by discriminate.
    auto.
Qed.

(** *** With the flag on, one window for every feature *)

Lemma resolve_feature_uniform (recording : Recording) (n : nat) (tbl : table)
    (f : string) (st st' : resolve_state) (h h' : heap) (nb0 na0 : Z) :
  resolve_feature recording n tbl f st h = (h', Ok st') ->
  rs_global_times st' = true ->
  nb0 = ms_to_samples (rs_ms_before st) (sampling_frequency recording) ->
  na0 = ms_to_samples (rs_ms_after st) (sampling_frequency recording) ->
  rs_nbefore_max st' = Z.max (rs_nbefore_max st) nb0 /\
  rs_nafter_max st' = Z.max (rs_nafter_max st) na0 /\
  same_window tbl h' nb0 na0 f /\
  forall g, same_window tbl h nb0 na0 g -> same_window tbl h' nb0 na0 g.
Proof.
  intros H Hflag -> ->.
  destruct (proj2 (resolve_feature_flag _ _ _ _ _ _ _ _ H) Hflag) as [E1 E2].
  apply resolve_feature_ok_inv in H
    as (addr & d & vb & va & cb & ca & mask & Ht & Hh & _ & _ & _ & _ & _ & Hb & Ha & -> & _).
  rewrite E1 in *. rewrite E2 in *.
  split; [exact Hb|]. split; [exact Ha|].
  assert (Hsame : forall g, tbl !! g = Some addr ->
            same_window tbl
              (<[addr := window_entry d
                           (ms_to_samples (rs_ms_before st) (sampling_frequency recording))
                           (ms_to_samples (rs_ms_after st) (sampling_frequency recording))
                           mask]> h)
              (ms_to_samples (rs_ms_before st) (sampling_frequency recording))
              (ms_to_samples (rs_ms_after st) (sampling_frequency recording)) g).
  { intros g Hg. unfold same_window.
    rewrite !entry_get_insert_same by exact Hg.
    rewrite window_entry_nbefore, window_entry_nafter. split; reflexivity. }
  split; [apply Hsame; exact Ht|].
  intros g [Hnb Hna].
  destruct (decide (tbl !! g = Some addr)) as [Hg|Hg]; [apply Hsame; exact Hg|].
  unfold same_window. rewrite !entry_get_insert_other by exact Hg.
  split; assumption.
Qed.

Lemma resolve_windows_uniform (recording : Recording) (n : nat) (tbl : table)
    (l : list string) (st st' : resolve_state) (h h' : heap) (nb0 na0 : Z) :
  resolve_windows recording n tbl l st h = (h', Ok st') ->
  rs_global_times st' = true ->
  nb0 = ms_to_samples (rs_ms_before st) (sampling_frequency recording) ->
  na0 = ms_to_samples (rs_ms_after st) (sampling_frequency recording) ->
  (l <> [] -> rs_nbefore_max st' = Z.max (rs_nbefore_max st) nb0 /\
              rs_nafter_max st' = Z.max (rs_nafter_max st) na0) /\
  Forall (same_window tbl h' nb0 na0) l /\
  forall g, same_window tbl h nb0 na0 g -> same_window tbl h' nb0 na0 g.
Proof.
  revert st h. induction l as [|f l IH]; intros st h H Hflag Hnb Hna; simpl in H.
  - inversion H; subst. split; [congruence|]. split; [constructor | auto].
  - destruct (resolve_feature recording n tbl f st h) as [h1 [st1|e1]] eqn:Hf;
      [|discriminate].
    pose proof (resolve_windows_flag _ _ _ _ _ _ _ _ H) as [Hflag2 _].
    apply Hflag2 in Hflag as Hflag1. destruct Hflag1 as [Hflag1 _].
    destruct (proj2 (resolve_feature_flag _ _ _ _ _ _ _ _ Hf) Hflag1) as [E1 E2].
    destruct (resolve_feature_uniform _ _ _ _ _ _ _ _ nb0 na0 Hf Hflag1 Hnb Hna)
      as (Hb1 & Ha1 & Hf1 & Hkeep1).
    destruct (IH _ _ H Hflag) as (Hmax & Hl & Hkeep2); [congruence | congruence |].
    split; [|split; [constructor; auto | auto]].
    intros _. destruct l as [|f2 l].
    + simpl in H. inversion H; subst. split; assumption.
    + destruct Hmax as [Hb2 Ha2]; [discriminate|]. lia.
Qed.

Lemma as_int_VInt (z : Z) : as_int (VInt z) = Ok z.
Proof. reflexivity. Qed.

(** X13.  With the shared-window flag on and a non-empty request, the
    sample counts come from the two global durations alone: the first
    feature of a chunk is read with the two maxima, which are these
    counts with a negative one replaced by zero, and every later
    feature with the counts themselves. *)
Theorem shared_window_is_the_global_one
    (recording : Recording) (peaks : list Peak) (feature_list : list string)
    (feature_params : list (string * list (string * pyval)))
    (ms_before ms_after : Q) (one_feature_per_peak : bool)
    (smoothing : option string) (h : heap) (fp : Params) :
  snd (resolve_params recording peaks feature_list feature_params
         ms_before ms_after one_feature_per_peak smoothing h) = Ok fp ->
  p_global_times fp = true ->
  feature_list <> [] ->
  let nbefore := ms_to_samples ms_before (sampling_frequency recording) in
  let nafter := ms_to_samples ms_after (sampling_frequency recording) in
  p_nbefore fp = Z.max 0 nbefore /\ p_nafter fp = Z.max 0 nafter /\
  Forall (fun f => bounds_at fp f true = Ok (Z.max 0 nbefore, Z.max 0 nafter) /\
                   bounds_at fp f false = Ok (nbefore, nafter))
         feature_list.
Proof.
  intros H Hflag Hne. cbv zeta. unfold resolve_params in H.
  destruct (apply_overrides _ _ _) as [h1 [[]|e1]]; simpl in H; [|discriminate].
  destruct (check_feature_list _ _ _) as [[]|e2]; simpl in H; [|discriminate].
  destruct (resolve_windows _ _ _ _ _ _) as [h2 [st|e3]] eqn:Hw; simpl in H;
    [|discriminate].
  inversion H; subst; clear H. simpl in *.
  destruct (resolve_windows_uniform _ _ _ _ _ _ _ _ _ _ Hw Hflag eq_refl eq_refl)
    as (Hmax & Hl & _).
  destruct (Hmax Hne) as [Hb Ha]. simpl in Hb, Ha, Hl.
  split; [exact Hb|]. split; [exact Ha|].
  eapply List.Forall_impl; [|exact Hl]. intros f [Hnb Hna].
  unfold bounds_at, window_bounds, param_get. simpl. rewrite Hflag. simpl.
  rewrite Hb, Ha. split; [reflexivity|].
  rewrite Hnb, Hna. reflexivity.
Qed.

(** ** The sparsity mask with fewer peaks than channels *)

Lemma mask_set_true_length (mask mask' : list (list bool)) (i : nat) (cols : list nat) :
  mask_set_true mask i cols = Ok mask' -> length mask' = length mask.
Proof.
  unfold mask_set_true, index_row.
  destruct (mask !! i) as [row|]; simpl; [|discriminate].
  destruct (forallb _ _); [|discriminate].
  intros H. inversion H; subst. apply length_insert.
Qed.

Lemma mask_set_true_raise (mask : list (list bool)) (i : nat) (cols : list nat) (e : exn) :
  mask_set_true mask i cols = Raise e -> e = IndexError.
Proof.
  unfold mask_set_true, index_row.
  destruct (mask !! i) as [row|]; simpl; [|intros H; inversion H; reflexivity].
  destruct (forallb _ _); intros H; inversion H; reflexivity.
Qed.

Lemma mask_set_true_outside (mask : list (list bool)) (i : nat) (cols : list nat) :
  (length mask <= i)%nat -> mask_set_true mask i cols = Raise IndexError.
Proof.
  intros Hi. unfold mask_set_true, index_row.
  rewrite (lookup_ge_None_2 mask i Hi). reflexivity.
Qed.

Lemma sparsity_step_length (dist : list (list Q)) (radius : pyval)
    (mask mask' : list (list bool)) (c : nat) :
  sparsity_step dist radius mask c = Ok mask' -> length mask' = length mask.
Proof.
  unfold sparsity_step.
  destruct (index_row dist c) as [drow|]; simpl; [|discriminate].
  destruct (as_num radius) as [r|]; simpl; [|discriminate].
  apply mask_set_true_length.
Qed.

Lemma sparsity_step_raise (dist : list (list Q)) (radius : pyval) (r : Q)
    (mask : list (list bool)) (c : nat) (e : exn) :
  as_num radius = Ok r ->
  sparsity_step dist radius mask c = Raise e -> e = IndexError.
Proof.
  intros Hr. unfold sparsity_step, index_row at 1.
  destruct (dist !! c) as [drow|]; simpl; [|intros H; inversion H; reflexivity].
  rewrite Hr. simpl. apply mask_set_true_raise.
Qed.

Lemma sparsity_step_outside (dist : list (list Q)) (radius : pyval)
    (mask : list (list bool)) (c : nat) :
  (length mask <= c)%nat -> is_ok (sparsity_step dist radius mask c) = false.
Proof.
  intros Hc. unfold sparsity_step.
  destruct (index_row dist c) as [drow|]; simpl; [|reflexivity].
  destruct (as_num radius) as [r|]; simpl; [|reflexivity].
  rewrite mask_set_true_outside by exact Hc. reflexivity.
Qed.

Lemma sparsity_loop_fails (dist : list (list Q)) (radius : pyval)
    (k a : nat) (mask : list (list bool)) :
  (a <= length mask < a + k)%nat ->
  is_ok (foldM (sparsity_step dist radius) (seq a k) mask) = false.
Proof.
  revert a mask. induction k as [|k IH]; intros a mask Hlen; [lia|]. simpl.
  destruct (sparsity_step dist radius mask a) as [mask'|e] eqn:Hs; simpl; [|reflexivity].
  destruct (Nat.eq_dec a (length mask)) as [->|Hne].
  - pose proof (sparsity_step_outside dist radius mask (length mask) (Nat.le_refl _)) as Ho.
    rewrite Hs in Ho. discriminate.
  - apply IH. rewrite (sparsity_step_length _ _ _ _ _ Hs). lia.
Qed.

Lemma foldM_raise_all {A S} (f : S -> A -> result S) (P : exn -> Prop) (l : list A)
    (s : S) (e : exn) :
  (forall s' a e', f s' a = Raise e' -> P e') ->
  foldM f l s = Raise e -> P e.
Proof.
  intros Hf H. apply foldM_raise_inv in H as (s' & a & H). eapply Hf. exact H.
Qed.

(** X14.  With fewer peaks than channels the construction of the mask
    raises [IndexError] for every numeric radius and every distance
    matrix: the mask is allocated with one row per peak and the loop
    writes one row per channel. *)
Theorem sparsity_mask_needs_as_many_peaks_as_channels
    (recording : Recording) (peaks_size : nat) (radius : pyval) (r : Q) :
  as_num radius = Ok r ->
  (peaks_size < num_channels recording)%nat ->
  build_sparsity_mask recording peaks_size radius = Raise IndexError.
Proof.
  intros Hr Hn. unfold build_sparsity_mask.
  pose proof (sparsity_loop_fails (channel_distances recording) radius
                (num_channels recording) 0
                (np_zeros2 false peaks_size (num_channels recording))) as Hfail.
  destruct (foldM _ _ _) as [m|e] eqn:Hf.
  - assert (Hok : is_ok (Ok m : result (list (list bool))) = false).
    { apply Hfail. unfold np_zeros2. rewrite repeat_length. lia. }
    discriminate.
  - f_equal.
    apply (foldM_raise_all _ (fun e => e = IndexError) _ _ _
             (fun s a e' => sparsity_step_raise _ _ r s a e' Hr) Hf).
Qed.

(** X14 with no peak at all on the two-channel recording. *)
Lemma sparsity_mask_needs_as_many_peaks_as_channels_witness :
  build_sparsity_mask Sample.pair_2d 0 (VInt 50) = Raise IndexError.
Proof.
  apply (sparsity_mask_needs_as_many_peaks_as_channels Sample.pair_2d 0 (VInt 50) (50 # 1)).
  - reflexivity.
  - simpl. lia.
Defined.

(** ** Keys are only ever added *)

Lemma insert_keeps_key (d : pydict) (k k' : string) (v : pyval) :
  is_Some (d !! k) -> is_Some (<[k' := v]> d !! k).
Proof.
  intros H. destruct (decide (k' = k)) as [->|Hne].
  - rewrite lookup_insert_eq. eauto.
  - rewrite lookup_insert_ne by exact Hne. exact H.
Qed.

Lemma dict_update_keeps_key (d : pydict) (other : list (string * pyval)) (k : string) :
  is_Some (d !! k) -> is_Some (dict_update d other !! k).
Proof.
  unfold dict_update. revert d. induction other as [|[k' v] other IH]; intros d H; simpl.
  - exact H.
  - apply IH. apply insert_keeps_key. exact H.
Qed.

Lemma entry_has_true (tbl : table) (h : heap) (f k : string) :
  entry_has tbl h f k = true <->
  exists addr d, tbl !! f = Some addr /\ h !! addr = Some d /\ is_Some (d !! k).
Proof.
  unfold entry_has. split.
  - destruct (tbl !! f) as [addr|] eqn:Ht; [|discriminate].
    destruct (h !! addr) as [d|] eqn:Hh; [|discriminate].
    intros H. apply bool_decide_eq_true in H.
    exists addr, d. split; [reflexivity|]. split; [exact Hh | exact H].
  - intros (addr & d & -> & -> & H). apply bool_decide_eq_true. exact H.
Qed.

Lemma heap_insert_keeps_key (tbl : table) (h : heap) (addr : nat) (d0 d1 : pydict)
    (g k : string) :
  h !! addr = Some d0 ->
  (is_Some (d0 !! k) -> is_Some (d1 !! k)) ->
  entry_has tbl h g k = true -> entry_has tbl (<[addr := d1]> h) g k = true.
Proof.
  intros Hh Hd. rewrite !entry_has_true. intros (a & d & Ht & Ha & Hk).
  destruct (decide (addr = a)) as [->|Hne].
  - exists a, d1. rewrite lookup_insert_eq. split; [exact Ht|]. split; [reflexivity|].
    apply Hd. congruence.
  - exists a, d. rewrite lookup_insert_ne by exact Hne. auto.
Qed.

Lemma entry_set_keeps_key (tbl : table) (h : heap) (f k' : string) (v : pyval)
    (g k : string) :
  entry_has tbl h g k = true -> entry_has tbl (entry_set tbl h f k' v) g k = true.
Proof.
  intros H. unfold entry_set.
  destruct (tbl !! f) as [addr|]; [|exact H].
  destruct (h !! addr) as [d0|] eqn:Hh; [|exact H].
  eapply heap_insert_keeps_key; [exact Hh | apply insert_keeps_key | exact H].
Qed.

Lemma resolve_feature_keeps_key (recording : Recording) (n : nat) (tbl : table)
    (f : string) (st : resolve_state) (h : heap) (g k : string) :
  entry_has tbl h g k = true ->
  entry_has tbl (fst (resolve_feature recording n tbl f st h)) g k = true.
Proof.
  intros H. unfold resolve_feature.
  destruct (let* own_before := entry_get tbl h f "ms_before" in
            pick_ms own_before (rs_ms_before st)) as [[msb cb]|e1]; [|exact H].
  match goal with |- context [let* own_after := entry_get tbl ?hh f "ms_after" in _] =>
    destruct (let* own_after := entry_get tbl hh f "ms_after" in
              pick_ms own_after (rs_ms_after st)) as [[msa ca]|e2] end.
  2: { simpl. apply entry_set_keeps_key. exact H. }
  match goal with |- context [entry_has tbl ?hh f "local_radius_um"] =>
    destruct (entry_has tbl hh f "local_radius_um") end.
  2: { simpl. do 2 apply entry_set_keeps_key. exact H. }
  match goal with |- context [let* radius := ?x in _] =>
    destruct (let* radius := x in build_sparsity_mask recording n radius) as [m|e3] end;
    simpl; repeat apply entry_set_keeps_key; exact H.
Qed.

Lemma resolve_windows_keeps_key (recording : Recording) (n : nat) (tbl : table)
    (l : list string) (st : resolve_state) (h : heap) (g k : string) :
  entry_has tbl h g k = true ->
  entry_has tbl (fst (resolve_windows recording n tbl l st h)) g k = true.
Proof.
  revert st h. induction l as [|f l IH]; intros st h H; simpl; [exact H|].
  pose proof (resolve_feature_keeps_key recording n tbl f st h g k H) as Hf.
  destruct (resolve_feature recording n tbl f st h) as [h1 [st1|e1]]; simpl in *.
  - apply IH. exact Hf.
  - exact Hf.
Qed.

Lemma apply_overrides_keeps_key (tbl : table)
    (fps : list (string * list (string * pyval))) (h : heap) (g k : string) :
  entry_has tbl h g k = true ->
  entry_has tbl (fst (apply_overrides tbl fps h)) g k = true.
Proof.
  revert h. induction fps as [|[key ov] fps IH]; intros h H; simpl; [exact H|].
  destruct (tbl !! key) as [addr|]; [|exact H].
  destruct (h !! addr) as [d|] eqn:Hh; [|exact H].
  apply IH. eapply heap_insert_keeps_key; [exact Hh | apply dict_update_keeps_key | exact H].
Qed.

Lemma resolve_params_keeps_key (recording : Recording) (peaks : list Peak)
    (feature_list : list string)
    (feature_params : list (string * list (string * pyval)))
    (ms_before ms_after : Q) (one_feature_per_peak : bool)
    (smoothing : option string) (h : heap) (g k : string) :
  entry_has one_feature_per_peak_params h g k = true ->
  entry_has one_feature_per_peak_params
    (fst (resolve_params recording peaks feature_list feature_params
            ms_before ms_after one_feature_per_peak smoothing h)) g k = true.
Proof.
  intros H. unfold resolve_params. rewrite select_table_any_mode.
  pose proof (apply_overrides_keeps_key one_feature_per_peak_params feature_params h g k H)
    as Ha.
  destruct (apply_overrides one_feature_per_peak_params feature_params h)
    as [h1 [[]|e1]]; simpl in *; [|exact Ha].
  destruct (check_feature_list one_feature_per_peak_params feature_list false)
    as [[]|e2]; simpl; [|exact Ha].
  pose proof (resolve_windows_keeps_key recording (length peaks)
                one_feature_per_peak_params feature_list
                {| rs_ms_before := ms_before; rs_ms_after := ms_after;
                   rs_global_times := true; rs_nbefore_max := 0; rs_nafter_max := 0;
                   rs_chan_locs := None; rs_nb_com_dims := None |} h1 g k Ha) as Hw.
  destruct (resolve_windows _ _ _ _ _ _) as [h2 [st|e3]]; simpl in *; exact Hw.
Qed.

(** X15.  No call removes a key from a module-level dictionary: a key
    present in the entry of a feature before the call is present after
    it, whether the call returns or raises. *)
Theorem call_never_removes_a_key
    (np_linalg_norm : list Q -> Q) (np_sqrt : Q -> Q) (np_divide : Q -> Q -> Q)
    (recording : Recording) (peaks : list Peak) (feature_list : list string)
    (feature_params : list (string * list (string * pyval)))
    (ms_before ms_after : Q) (one_feature_per_peak : bool)
    (smoothing : option string) (chunks : list (nat * Z * Z)) (h : heap)
    (g k : string) :
  entry_has one_feature_per_peak_params h g k = true ->
  entry_has one_feature_per_peak_params
    (fst (compute_features_from_peaks np_linalg_norm np_sqrt np_divide recording
            peaks feature_list feature_params ms_before ms_after
            one_feature_per_peak smoothing chunks h)) g k = true.
Proof.
  intros H.
  pose proof (resolve_params_keeps_key recording peaks feature_list feature_params
                ms_before ms_after one_feature_per_peak smoothing h g k H) as Hr.
  unfold compute_features_from_peaks.
  destruct (resolve_params _ _ _ _ _ _ _ _ _) as [h' [p|e]]; exact Hr.
Qed.

(** ** A radius feature with fewer peaks than channels *)

Lemma build_sparsity_mask_fails (recording : Recording) (peaks_size : nat)
    (radius : pyval) :
  (peaks_size < num_channels recording)%nat ->
  is_ok (build_sparsity_mask recording peaks_size radius) = false.
Proof.
  intros Hn. unfold build_sparsity_mask. apply sparsity_loop_fails.
  unfold np_zeros2. rewrite repeat_length. lia.
Qed.

Lemma resolve_feature_radius_fails (recording : Recording) (n : nat) (tbl : table)
    (f : string) (st : resolve_state) (h : heap) :
  entry_has tbl h f "local_radius_um" = true ->
  (n < num_channels recording)%nat ->
  is_ok (snd (resolve_feature recording n tbl f st h)) = false.
Proof.
  intros Hhas Hn.
  destruct (resolve_feature recording n tbl f st h) as [h' [st'|e]] eqn:Hf; [|reflexivity].
  exfalso.
  apply resolve_feature_ok_inv in Hf
    as (addr & d & vb & va & cb & ca & mask & Ht & Hh & _ & _ & _ & _ & _ & _ & _ & _ & Hm).
  apply entry_has_true in Hhas as (a & d' & Ht' & Hh' & [r Hr]).
  assert (a = addr) as -> by congruence. assert (d' = d) as -> by congruence.
  rewrite Hr in Hm. destruct Hm as (m & Hb & _).
  pose proof (build_sparsity_mask_fails recording n r Hn) as Hfail.
  rewrite Hb in Hfail. discriminate.
Qed.

Lemma resolve_windows_radius_fails (recording : Recording) (n : nat) (tbl : table)
    (l : list string) (f : string) (st : resolve_state) (h : heap) :
  In f l ->
  entry_has tbl h f "local_radius_um" = true ->
  (n < num_channels recording)%nat ->
  is_ok (snd (resolve_windows recording n tbl l st h)) = false.
Proof.
  revert st h. induction l as [|g l IH]; intros st h Hin Hhas Hn; [destruct Hin|].
  simpl.
  pose proof (resolve_feature_keeps_key recording n tbl g st h f "local_radius_um" Hhas)
    as Hkeep.
  destruct (resolve_feature recording n tbl g st h) as [h1 [st1|e1]] eqn:Hg;
    [|reflexivity].
  destruct Hin as [->|Hin].
  - pose proof (resolve_feature_radius_fails recording n tbl f st h Hhas Hn) as Hfail.
    rewrite Hg in Hfail. discriminate.
  - apply IH; assumption.
Qed.

(** X16.  With fewer peaks than channels, a request naming a feature
    whose entry has a [local_radius_um] ([com], [energy] and
    [dist_com_vs_max_ptp_channel] on a freshly imported module, and ever
    after) never returns: the call raises for every choice of the other
    arguments, an empty peak list included. *)
Theorem radius_feature_needs_as_many_peaks_as_channels
    (np_linalg_norm : list Q -> Q) (np_sqrt : Q -> Q) (np_divide : Q -> Q -> Q)
    (recording : Recording) (peaks : list Peak) (feature_list : list string)
    (feature_params : list (string * list (string * pyval)))
    (ms_before ms_after : Q) (one_feature_per_peak : bool)
    (smoothing : option string) (chunks : list (nat * Z * Z)) (h : heap)
    (f : string) :
  In f feature_list ->
  entry_has one_feature_per_peak_params h f "local_radius_um" = true ->
  (length peaks < num_channels recording)%nat ->
  is_ok (snd (compute_features_from_peaks np_linalg_norm np_sqrt np_divide recording
                peaks feature_list feature_params ms_before ms_after
                one_feature_per_peak smoothing chunks h)) = false.
Proof.
  intros Hin Hhas Hn.
  unfold compute_features_from_peaks.
  destruct (resolve_params _ _ _ _ _ _ _ _ _) as [h' [p|e]] eqn:Hr; [|reflexivity].
  exfalso. unfold resolve_params in Hr. rewrite select_table_any_mode in Hr.
  pose proof (apply_overrides_keeps_key one_feature_per_peak_params feature_params h
                f "local_radius_um" Hhas) as Ha.
  destruct (apply_overrides one_feature_per_peak_params feature_params h)
    as [h1 [[]|e1]]; simpl in *; [|discriminate].
  destruct (check_feature_list one_feature_per_peak_params feature_list false)
    as [[]|e2]; simpl in Hr; [|discriminate].
  match type of Hr with context [resolve_windows ?r ?n ?t ?l ?s ?hh] =>
    pose proof (resolve_windows_radius_fails r n t l f s hh Hin Ha Hn) as Hfail;
    destruct (resolve_windows r n t l s hh) as [h2 [st|e3]] end;
    simpl in *; discriminate.
Qed.

(** ** Peaks that fall in no chunk *)

(** Whatever the chunks cover, concatenating the peaks of each chunk in
    chunk order gives the peaks that lie in some chunk, in input order. *)
Lemma chunks_select_peaks (chunks : list (nat * Z * Z)) (peaks : list Peak) :
  peaks_sorted peaks ->
  chunks_ordered chunks ->
  concat (map (fun c => List.filter (in_chunk c) peaks) chunks)
  = List.filter (in_some_chunk chunks) peaks.
Proof.
  intros Hs Ho.
  set (kept := List.filter (in_some_chunk chunks) peaks).
  transitivity (concat (map (fun c => List.filter (in_chunk c) kept) chunks)).
  - f_equal. apply map_ext_in. intros c Hc. unfold kept.
    rewrite list_filter_filter. apply filter_ext_Forall.
    apply List.Forall_forall. intros p _.
    destruct (in_chunk c p) eqn:Hp; [|symmetry; apply andb_false_r].
    rewrite andb_true_r. symmetry. unfold in_some_chunk.
    apply existsb_exists. exists c. split; assumption.
  - apply chunks_tile_peaks.
    + apply StronglySorted_list_filter. exact Hs.
    + exact Ho.
    + unfold chunks_cover, kept. apply List.Forall_forall. intros p Hp.
      apply filter_In in Hp as [_ Hp]. exact Hp.
Qed.



(** * The engine in per-channel mode *)

Section ChannelByChannel.

Variables (fp : Params) (width nchan : nat) (win : Peak -> list (list Q)).
Variables (local_peak chunk_peaks : list Peak).

Hypothesis channel_mode : p_one_feature_per_peak fp = false.
Hypothesis win_rows : forall p, length (win p) = width.
Hypothesis some_sample : (0 < width)%nat.

Local Abbreviation wf :=
  {| wf_width := width; wf_channels := nchan; wf_data := map win chunk_peaks |}.

Lemma reduce_column (op : Q -> Q -> Q) (p : Peak) (c : nat) :
  reduce op (column c (win p)) = Ok (fold1 op (column c (win p))).
Proof.
  apply reduce_fold1. apply nonempty_length. rewrite column_length, win_rows.
  exact some_sample.
Qed.

Lemma np_reduce_axis1_windows (op : Q -> Q -> Q) :
  np_reduce_axis1 op wf
  = Ok (map (fun p => map (fun c => fold1 op (column c (win p))) (seq 0 nchan))
            chunk_peaks).
Proof.
  unfold np_reduce_axis1. simpl.
  destruct (Nat.eqb_spec width 0); [lia|].
  apply (mapM_map_pointwise
           (fun w => mapM (fun c => reduce op (column c w)) (seq 0 nchan))
           (fun w => map (fun c => fold1 op (column c w)) (seq 0 nchan))).
  intros p _. apply mapM_pointwise. intros c _. apply reduce_column.
Qed.

Lemma np_ptp_axis1_windows :
  np_ptp_axis1 wf
  = Ok (map (fun p => map (fun c => (fold1 np_maximum (column c (win p))
                                      - fold1 np_minimum (column c (win p)))%Q)
                          (seq 0 nchan))
            chunk_peaks).
Proof.
  unfold np_ptp_axis1. simpl.
  destruct (Nat.eqb_spec width 0); [lia|].
  apply (mapM_map_pointwise _
           (fun w => map (fun c => (fold1 np_maximum (column c w)
                                    - fold1 np_minimum (column c w))%Q)
                         (seq 0 nchan))).
  intros p _. apply mapM_pointwise. intros c _.
  rewrite !reduce_column. reflexivity.
Qed.

(** The amplitude branch in per-channel mode, for the signs [neg] and
    [pos]: the extremum over time, channel by channel. *)
Lemma amplitude_features_channel (features : option ndarray) :
  one_sided_sign fp = true ->
  amplitude_features fp "amplitude" wf local_peak features
  = Ok (Some (Arr2 nchan
                (map (fun p => map (fun c =>
                                      if String.eqb (sign_of fp) "neg"
                                      then fold1 np_minimum (column c (win p))
                                      else fold1 np_maximum (column c (win p)))
                                   (seq 0 nchan))
                     chunk_peaks))).
Proof.
  intros Hsign. unfold amplitude_features. simpl.
  destruct (Nat.eqb_spec width 0); [lia|].
  rewrite channel_mode. unfold one_sided_sign, sign_of in *.
  destruct (param_get fp "amplitude" "peak_sign") as [[| | |s|]|]; try discriminate.
  simpl.
  destruct (String.eqb_spec s "both") as [->|Hboth]; [discriminate|].
  destruct (String.eqb s "neg") eqn:Hneg.
  - rewrite np_reduce_axis1_windows. reflexivity.
  - simpl in Hsign. rewrite Hsign. rewrite np_reduce_axis1_windows. reflexivity.
Qed.

(** The [ptp] branch in per-channel mode. *)
Lemma ptp_features_channel :
  ptp_features fp wf
  = Ok (Arr2 nchan
          (map (fun p => map (fun c => (fold1 np_maximum (column c (win p))
                                        - fold1 np_minimum (column c (win p)))%Q)
                             (seq 0 nchan))
               chunk_peaks)).
Proof.
  unfold ptp_features. rewrite channel_mode, np_ptp_axis1_windows. reflexivity.
Qed.

End ChannelByChannel.

Lemma map_broadcast_row_same (n : nat) (rows : list (list Q)) :
  map (broadcast_row n n) rows = rows.
Proof.
  unfold broadcast_row. rewrite Nat.eqb_refl. apply map_id.
Qed.

Section EngineOnChunkChannels.

Variables (np_linalg_norm : list Q -> Q) (np_sqrt : Q -> Q) (np_divide : Q -> Q -> Q).
Variables (recording : Recording) (fp : Params) (margin : Z).
Variables (traces : Traces) (local_peak chunk_peaks : list Peak).

Hypothesis channel_mode : p_one_feature_per_peak fp = false.
Hypothesis same_length : length local_peak = length chunk_peaks.

(** What the buffer of the chunk gives for every window within the margin. *)
Hypothesis buffer_windows :
  forall nbefore nafter,
    0 <= nbefore <= margin -> 0 <= nafter <= margin ->
    extract_waveforms traces local_peak nbefore nafter
    = Ok {| wf_width := length (np_arange (- nbefore) nafter);
            wf_channels := num_channels recording;
            wf_data := map (fun p => segment_window (num_channels recording)
                                       (segment_of recording p) p nbefore nafter)
                           chunk_peaks |}.

Lemma feature_step_channel (st : loop_state) (feature : string) (nfeat : nat)
    (rowfn : Peak -> nat -> list Q) :
  channel_feature_ok fp margin feature = true ->
  ls_pwf st = Tensor3 (num_channels recording) nfeat
                (map (fun p => map (rowfn p) (seq 0 (num_channels recording)))
                     chunk_peaks) ->
  (ls_feature_idx st < nfeat)%nat ->
  exists st',
    feature_step np_linalg_norm np_sqrt np_divide fp traces local_peak None st feature
      = Ok st' /\
    ls_pwf st'
      = Tensor3 (num_channels recording) nfeat
          (map (fun p =>
                  map (fun c => <[ls_feature_idx st :=
                                    peak_channel_value recording fp feature
                                      (bool_decide (ls_wf st = None)) p c]> (rowfn p c))
                      (seq 0 (num_channels recording)))
               chunk_peaks) /\
    ls_feature_idx st' = S (ls_feature_idx st) /\
    bool_decide (ls_wf st' = None) = false.
Proof.
  intros Hok Hpwf Hidx.
  unfold channel_feature_ok in Hok.
  apply andb_true_iff in Hok as [Hok Hfalse].
  apply andb_true_iff in Hok as [Hkind Htrue].
  set (first := bool_decide (ls_wf st = None)).
  assert (Hfits : window_holds fp margin feature first = true)
    by (destruct first; assumption).
  unfold window_holds in Hfits.
  destruct (bounds_at fp feature first) as [[nbefore nafter]|] eqn:Hb; [|discriminate].
  apply andb_true_iff in Hfits as [Hfits Hwidth].
  apply andb_true_iff in Hfits as [Hfits H4].
  apply andb_true_iff in Hfits as [Hfits H3].
  apply andb_true_iff in Hfits as [H1 H2].
  apply Z.leb_le in H1, H2, H3, H4. apply Z.ltb_lt in Hwidth.
  unfold feature_step, feature_window.
  rewrite window_bounds_first. fold first. rewrite Hb. simpl.
  rewrite buffer_windows by lia. simpl.
  set (win := fun p => segment_window (num_channels recording)
                         (segment_of recording p) p nbefore nafter).
  set (width := length (np_arange (- nbefore) nafter)).
  assert (Hwin : forall p, length (win p) = width).
  { intros p. unfold win, segment_window. apply length_map. }
  assert (Hpos : (0 < width)%nat).
  { unfold width. rewrite np_arange_length. lia. }
  assert (Hvals : exists vals,
             feature_values np_linalg_norm np_sqrt np_divide fp feature traces
               {| wf_width := width; wf_channels := num_channels recording;
                  wf_data := map win chunk_peaks |} local_peak None st
             = Ok (Some (Arr2 (num_channels recording)
                           (map (fun p => map (vals p) (seq 0 (num_channels recording)))
                                chunk_peaks)),
                   ls_loop_idx st) /\
             forall p c, vals p c = peak_channel_value recording fp feature first p c).
  { unfold feature_values.
    destruct (String.eqb_spec feature "amplitude") as [->|Hne].
    - simpl in Hkind. rewrite orb_false_r in Hkind.
      rewrite (amplitude_features_channel fp width _ win local_peak chunk_peaks
                 channel_mode Hwin Hpos _ Hkind).
      simpl. eexists. split; [reflexivity|].
      intros p c. unfold peak_channel_value. rewrite Hb. reflexivity.
    - simpl in Hkind. apply String.eqb_eq in Hkind. subst feature.
      rewrite (ptp_features_channel fp width _ win chunk_peaks channel_mode Hwin Hpos).
      simpl. eexists. split; [reflexivity|].
      intros p c. unfold peak_channel_value. rewrite Hb. reflexivity. }
  destruct Hvals as (vals & Hfv & Hval). rewrite Hfv. simpl.
  unfold write_features. rewrite Hpwf.
  destruct (Nat.ltb_spec (ls_feature_idx st) nfeat); [|lia].
  unfold broadcast_to2, broadcast_ok. rewrite Nat.eqb_refl. simpl.
  rewrite !length_map, Nat.eqb_refl. simpl.
  rewrite map_broadcast_row_same.
  eexists. split; [reflexivity|]. simpl. split; [|split; reflexivity].
  f_equal. rewrite zip_with_map_same.
  apply map_ext. intros p. unfold set_column. rewrite zip_with_map_same.
  apply map_ext. intros c. rewrite Hval. reflexivity.
Qed.

(** The loop over the request, from a state whose blocks hold the
    values written so far followed by zeros. *)
Lemma features_loop_channel (rest : list string) :
  forall (st : loop_state) (done : Peak -> nat -> list Q),
    forallb (channel_feature_ok fp margin) rest = true ->
    (forall p c, length (done p c) = ls_feature_idx st) ->
    ls_pwf st
      = Tensor3 (num_channels recording) (ls_feature_idx st + length rest)
          (map (fun p => map (fun c => (done p c ++ repeat 0%Q (length rest))%list)
                             (seq 0 (num_channels recording)))
               chunk_peaks) ->
    exists st',
      foldM (feature_step np_linalg_norm np_sqrt np_divide fp traces local_peak None)
            rest st = Ok st' /\
      ls_pwf st'
        = Tensor3 (num_channels recording) (ls_feature_idx st + length rest)
            (map (fun p =>
                    map (fun c => (done p c
                                   ++ peak_channel_row recording fp rest
                                        (bool_decide (ls_wf st = None)) p c)%list)
                        (seq 0 (num_channels recording)))
                 chunk_peaks).
Proof.
  induction rest as [|feature rest IH]; intros st done Hok Hdone Hpwf.
  - exists st. split; [reflexivity|]. exact Hpwf.
  - simpl in Hok. apply andb_true_iff in Hok as [Hf Hrest].
    destruct (feature_step_channel st feature _ _ Hf Hpwf)
      as (st1 & Hstep & Hpwf1 & Hidx1 & Hwf1); [simpl; lia|].
    simpl. rewrite Hstep. simpl.
    destruct (IH st1
                (fun p c => (done p c ++ [peak_channel_value recording fp feature
                                            (bool_decide (ls_wf st = None)) p c])%list)
                Hrest)
      as (st' & Hrun & Hpwf').
    + intros p c. rewrite length_app, Hdone, Hidx1. simpl. lia.
    + rewrite Hpwf1, Hidx1. f_equal; [simpl; lia|].
      apply map_ext. intros p. apply map_ext. intros c. simpl. rewrite <- (Hdone p c).
      apply insert_after_prefix.
    + exists st'. split; [exact Hrun|]. rewrite Hpwf', Hidx1, Hwf1.
      f_equal; [simpl; lia|].
      apply map_ext. intros p. apply map_ext. intros c. simpl.
      rewrite <- app_assoc. reflexivity.
Qed.

(** On the peaks of one chunk the engine returns, in per-channel mode,
    one block per peak, the block of the peak. *)
Lemma compute_features_channel (feature_list : list string) :
  tr_channels traces = num_channels recording ->
  forallb (channel_feature_ok fp margin) feature_list = true ->
  compute_features np_linalg_norm np_sqrt np_divide traces local_peak feature_list fp
  = Ok (Tensor3 (num_channels recording) (length feature_list)
          (map (peak_block recording fp feature_list) chunk_peaks)).
Proof.
  intros Hchan Hok.
  unfold compute_features, allocate_output. rewrite channel_mode. simpl.
  rewrite Hchan.
  destruct (features_loop_channel feature_list
              {| ls_pwf := Tensor3 (num_channels recording) (length feature_list)
                             (repeat (np_zeros2 0%Q (num_channels recording)
                                        (length feature_list))
                                     (length local_peak));
                 ls_feature_idx := 0; ls_loop_idx := ∅;
                 ls_wf := None; ls_features := None |}
              (fun _ _ => []) Hok)
    as (st' & Hrun & Hpwf).
  - reflexivity.
  - simpl. f_equal. rewrite same_length, repeat_as_map.
    apply map_ext. intros p. unfold np_zeros2.
    rewrite <- (repeat_as_map (repeat 0%Q (length feature_list))
                  (seq 0 (num_channels recording))).
    rewrite length_seq. reflexivity.
  - rewrite Hrun. simpl. rewrite Hpwf. reflexivity.
Qed.

End EngineOnChunkChannels.

(** * Chunking the per-channel request *)

Lemma foldM_concat_tensor3 {A} (nchan nfeat : nat) (blocks : A -> list (list (list Q)))
    (l : list A) (acc : list (list (list Q))) :
  foldM concat_two (map (fun x => Tensor3 nchan nfeat (blocks x)) l)
        (Tensor3 nchan nfeat acc)
  = Ok (Tensor3 nchan nfeat (acc ++ concat (map blocks l))%list).
Proof.
  revert acc. induction l as [|x l IH]; intros acc; simpl.
  - rewrite app_nil_r. reflexivity.
  - rewrite !Nat.eqb_refl. simpl. rewrite IH, <- app_assoc. reflexivity.
Qed.

Lemma np_concatenate_tensor3 {A} (nchan nfeat : nat)
    (blocks : A -> list (list (list Q))) (l : list A) :
  l <> [] ->
  np_concatenate (map (fun x => Tensor3 nchan nfeat (blocks x)) l)
  = Ok (Tensor3 nchan nfeat (concat (map blocks l))).
Proof.
  destruct l as [|x l]; [congruence|]. intros _. simpl.
  apply foldM_concat_tensor3.
Qed.

Section ChunkedRunChannels.

Variables (np_linalg_norm : list Q -> Q) (np_sqrt : Q -> Q) (np_divide : Q -> Q -> Q).
Variables (recording : Recording) (peaks : list Peak) (feature_list : list string).
Variables (fp : Params) (margin : Z).

Hypothesis request : channel_request_ok fp margin feature_list = true.
Hypothesis sorted : peaks_sorted peaks.

(** One chunk: the blocks of its peaks, in input order. *)
Lemma chunk_output_channel (segment_index : nat) (start_frame end_frame : Z) :
  (segment_index < length (segments recording))%nat ->
  _compute_features_from_peaks_chunk np_linalg_norm np_sqrt np_divide
    segment_index start_frame end_frame
    (_init_worker_compute_features_from_peaks recording peaks margin feature_list fp)
  = Ok (Tensor3 (num_channels recording) (length feature_list)
          (map (peak_block recording fp feature_list)
               (List.filter (in_chunk (segment_index, start_frame, end_frame)) peaks))).
Proof.
  intros Hseg.
  unfold channel_request_ok in request.
  apply andb_true_iff in request as [Hmode Hfeatures].
  apply negb_true_iff in Hmode.
  unfold _compute_features_from_peaks_chunk. simpl.
  destruct (lookup_lt_is_Some_2 (segments recording) segment_index Hseg) as [seg Hl].
  unfold index_row. rewrite Hl. simpl.
  rewrite local_peaks_of_chunk_sorted by exact sorted.
  set (chunk_peaks := List.filter (in_chunk (segment_index, start_frame, end_frame)) peaks).
  assert (Hin : forall p, In p chunk_peaks ->
                  segment_of recording p = seg /\ start_frame <= sample_ind p < end_frame).
  { intros p Hp. apply filter_In in Hp as [_ Hp].
    apply in_chunk_spec in Hp as [Hg Hs]. simpl in Hg, Hs. split; [|exact Hs].
    unfold segment_of. rewrite Hg, Nat2Z.id.
    apply nth_lookup_Some with (d := []) in Hl. exact Hl. }
  apply (compute_features_channel np_linalg_norm np_sqrt np_divide recording fp margin
           _ _ chunk_peaks Hmode).
  - apply length_map.
  - intros nbefore nafter Hb Ha.
    pose proof (extract_waveforms_chunk (num_channels recording) seg start_frame
                  end_frame margin nbefore nafter chunk_peaks) as Hex.
    simpl in Hex. rewrite Hex; [| |exact Hb|exact Ha].
    + do 2 f_equal. apply map_ext_in. intros p Hp.
      destruct (Hin p Hp) as [-> _]. reflexivity.
    + apply List.Forall_forall. intros p Hp. apply (Hin p Hp).
  - reflexivity.
  - exact Hfeatures.
Qed.

End ChunkedRunChannels.



(** X11 on the request where [amplitude] alone overrides [ms_before]. *)
Lemma margin_covers_every_window_witness :
  let fp := Resolved.with_override in
  let margin := Z.max (p_nbefore fp) (p_nafter fp) in
  0 <= p_nbefore fp <= margin /\ 0 <= p_nafter fp <= margin /\
  Forall (fun f => exists nbefore nafter,
            param_get fp f "nbefore" = Ok (VInt nbefore) /\
            param_get fp f "nafter" = Ok (VInt nafter) /\
            nbefore <= p_nbefore fp /\ nafter <= p_nafter fp)
         ["amplitude"; "ptp"].
Proof.
  apply (margin_covers_every_window Sample.pair_2d Sample.two_peaks ["amplitude"; "ptp"]
           [("amplitude", [("ms_before", VFloat (2 # 1))])]
           1%Q 1%Q true None initial_heap Resolved.with_override).
  vm_compute. reflexivity.
Defined.

(** X12 on the request without override: the flag is on. *)
Lemma global_times_iff_no_own_window_witness :
  let fp := Resolved.without_override in
  p_global_times fp = true <->
  Forall (fun f => param_get fp f "ms_before" = Ok VNone /\
                   param_get fp f "ms_after" = Ok VNone) ["ptp"; "amplitude"].
Proof.
  apply (global_times_iff_no_own_window Sample.pair_2d Sample.two_peaks
           ["ptp"; "amplitude"] [] 1%Q 1%Q true None initial_heap
           Resolved.without_override).
  vm_compute. reflexivity.
Defined.

(** X13 on the request without override: 30 samples on either side. *)
Lemma shared_window_is_the_global_one_witness :
  let fp := Resolved.without_override in
  p_nbefore fp = Z.max 0 30 /\ p_nafter fp = Z.max 0 30 /\
  Forall (fun f => bounds_at fp f true = Ok (Z.max 0 30, Z.max 0 30) /\
                   bounds_at fp f false = Ok (30, 30))
         ["ptp"; "amplitude"].
Proof.
  apply (shared_window_is_the_global_one Sample.pair_2d Sample.two_peaks
           ["ptp"; "amplitude"] [] 1%Q 1%Q true None initial_heap
           Resolved.without_override).
  - vm_compute. reflexivity.
  - vm_compute. reflexivity.
  - discriminate.
Defined.

(** X15 for the radius of [energy] across a call that raises. *)
Lemma call_never_removes_a_key_witness :
  entry_has one_feature_per_peak_params
    (fst (compute_features_from_peaks Sample.norm1 Sample.sqrt_id Qdiv Sample.pair_2d
            Sample.one_peak ["energy"] [("energy", [("local_radius_um", VInt 20)])]
            1%Q 1%Q true None [(0%nat, 0, 4)] initial_heap))
    "energy" "local_radius_um" = true.
Proof.
  apply (call_never_removes_a_key Sample.norm1 Sample.sqrt_id Qdiv Sample.pair_2d
           Sample.one_peak ["energy"] [("energy", [("local_radius_um", VInt 20)])]
           1%Q 1%Q true None [(0%nat, 0, 4)] initial_heap "energy" "local_radius_um").
  vm_compute. reflexivity.
Defined.

(** X16 for [com] with one peak on two channels. *)
Lemma radius_feature_needs_as_many_peaks_as_channels_witness :
  is_ok (snd (compute_features_from_peaks Sample.norm1 Sample.sqrt_id Qdiv Sample.pair_2d
                Sample.one_peak ["amplitude"; "com"] [] 1%Q 1%Q true None
                [(0%nat, 0, 4)] initial_heap)) = false.
Proof.
  apply (radius_feature_needs_as_many_peaks_as_channels Sample.norm1 Sample.sqrt_id Qdiv
           Sample.pair_2d Sample.one_peak ["amplitude"; "com"] [] 1%Q 1%Q true None
           [(0%nat, 0, 4)] initial_heap "com").
  - right. left. reflexivity.
  - vm_compute. reflexivity.
  - simpl. lia.
Defined.

(** ** The zero-width window in per-channel mode *)

(** X19.  In per-channel mode with a zero-width window for [amplitude]
    as first feature, a chunk raises [ValueError] unless its number of
    peaks is 1 or the number of channels: the vector of stored
    amplitudes does not fit the peaks x channels slab.  A chunk without
    any peak is such a chunk when there is a channel. *)
Theorem zero_width_per_channel_amplitude_raises
    (np_linalg_norm : list Q -> Q) (np_sqrt : Q -> Q) (np_divide : Q -> Q -> Q)
    (fp : Params) (traces : Traces) (local_peak : list Peak) (rest : list string) :
  p_one_feature_per_peak fp = false ->
  window_bounds fp "amplitude" None = Ok (0, 0) ->
  length local_peak <> tr_channels traces ->
  length local_peak <> 1%nat ->
  compute_features np_linalg_norm np_sqrt np_divide traces local_peak
    ("amplitude" :: rest) fp
  = Raise ValueError.
Proof.
  intros Hmode Hb Hc H1.
  unfold compute_features, allocate_output. rewrite Hmode. simpl.
  unfold feature_step at 1. simpl.
  unfold feature_window. rewrite Hb. simpl.
  rewrite extract_waveforms_zero_width. simpl.
  rewrite length_map, repeat_length.
  unfold broadcast_ok.
  destruct (Nat.eqb_spec (length local_peak) (tr_channels traces)); [contradiction|].
  destruct (Nat.eqb_spec (length local_peak) 1); [contradiction|].
  reflexivity.
Qed.

(** X19 on a chunk of the two-channel recording that holds no peak. *)
Lemma zero_width_per_channel_amplitude_raises_witness :
  let fp := {| p_table := one_feature_per_peak_params; p_heap := initial_heap;
               p_global_times := true; p_chan_locs := None; p_nb_com_dims := None;
               p_nbefore := 0; p_nafter := 0; p_smoothing := None;
               p_one_feature_per_peak := false |} in
  let traces :=
    fst (fst (get_chunk_with_margin 2 (nth 0 (segments Sample.pair_2d) []) 0 1 0)) in
  compute_features Sample.norm1 Sample.sqrt_id Qdiv traces [] ["amplitude"; "ptp"] fp
  = Raise ValueError.
Proof.
  cbv zeta.
  apply (zero_width_per_channel_amplitude_raises Sample.norm1 Sample.sqrt_id Qdiv).
  - reflexivity.
  - reflexivity.
  - simpl. lia.
  - simpl. lia.
Defined.

(** * The features with a neighbourhood *)

(** ** Peaks grouped by channel *)

Lemma index_row_middle {A} (pre : list A) (x : A) (rest : list A) :
  index_row (pre ++ x :: rest)%list (length pre) = Ok x.
Proof. unfold index_row. rewrite list_lookup_middle by reflexivity. reflexivity. Qed.

Lemma app_cons_assoc {A} (pre : list A) (x : A) (rest : list A) :
  (pre ++ x :: rest)%list = ((pre ++ [x]) ++ rest)%list.
Proof. rewrite <- app_assoc. reflexivity. Qed.

(** Reading the items selected by a test, through the positions that
    [np.nonzero] gives. *)
Lemma take_where_map {X W} (test : X -> bool) (getw : X -> W) (items : list X)
    (pre : list W) :
  mapM (index_row (pre ++ map getw items)%list)
       (nonzero_from (length pre) (map test items))
  = Ok (map getw (List.filter test items)).
Proof.
  revert pre. induction items as [|x items IH]; intros pre; simpl; [reflexivity|].
  rewrite app_cons_assoc.
  destruct (test x); simpl.
  - rewrite <- app_cons_assoc at 1. rewrite index_row_middle. simpl.
    specialize (IH (pre ++ [getw x])%list). rewrite length_app in IH. simpl in IH.
    rewrite Nat.add_1_r in IH. rewrite IH. reflexivity.
  - specialize (IH (pre ++ [getw x])%list). rewrite length_app in IH. simpl in IH.
    rewrite Nat.add_1_r in IH. exact IH.
Qed.

(** Writing one value per selected item back at those positions. *)
Lemma scatter_where_map {X A} (test : X -> bool) (F g : X -> A) (items : list X)
    (pre : list A) :
  scatter (nonzero_from (length pre) (map test items))
          (map F (List.filter test items))
          (pre ++ map g items)%list
  = (pre ++ map (fun x => if test x then F x else g x) items)%list.
Proof.
  revert pre. induction items as [|x items IH]; intros pre; simpl; [reflexivity|].
  destruct (test x); simpl.
  - rewrite insert_after_prefix.
    specialize (IH (pre ++ [F x])%list). rewrite length_app in IH. simpl in IH.
    rewrite Nat.add_1_r in IH. rewrite IH, <- app_assoc. reflexivity.
  - rewrite (app_cons_assoc pre (g x)).
    specialize (IH (pre ++ [g x])%list). rewrite length_app in IH. simpl in IH.
    rewrite Nat.add_1_r in IH. rewrite IH, <- app_assoc. reflexivity.
Qed.

Lemma map_fst_combine {A B} (l : list A) (l' : list B) :
  length l = length l' -> map fst (combine l l') = l.
Proof.
  revert l'. induction l as [|a l IH]; intros [|b l'] H; simpl in *; try lia;
    [reflexivity|]. rewrite IH by lia. reflexivity.
Qed.

Lemma map_snd_combine {A B} (l : list A) (l' : list B) :
  length l = length l' -> map snd (combine l l') = l'.
Proof.
  revert l'. induction l as [|a l IH]; intros [|b l'] H; simpl in *; try lia;
    [reflexivity|]. rewrite IH by lia. reflexivity.
Qed.

Section ChannelGroups.

(** The peaks of a chunk, each with what the engine holds for it. *)
Context {X : Type}.
Variables (peak_of : X -> Peak) (items : list X) (local_peak : list Peak).
Hypothesis peaks_of_items : map peak_of items = local_peak.

Lemma np_where_channel_items (c : nat) :
  np_where_channel local_peak c
  = nonzero_from 0 (map (fun x => channel_ind (peak_of x) =? Z.of_nat c) items).
Proof.
  unfold np_where_channel, np_nonzero.
  rewrite <- peaks_of_items, map_map. reflexivity.
Qed.

Lemma channel_group_spec (loop_idx : gmap nat (list nat)) (c : nat) :
  memo_ok local_peak loop_idx ->
  fst (channel_group local_peak loop_idx c) = np_where_channel local_peak c /\
  memo_ok local_peak (snd (channel_group local_peak loop_idx c)).
Proof.
  intros Hm. unfold channel_group.
  destruct (loop_idx !! c) as [idx|] eqn:Hl; simpl.
  - split; [apply Hm; exact Hl | exact Hm].
  - split; [reflexivity|]. intros c' idx'.
    destruct (decide (c = c')) as [->|Hne].
    + rewrite lookup_insert_eq. intros H. inversion H. reflexivity.
    + rewrite lookup_insert_ne by exact Hne. apply Hm.
Qed.

(** [a[idx]] for the indices of the peaks of one channel. *)
Lemma read_channel {W} (getw : X -> W) (c : nat) :
  mapM (index_row (map getw items)) (np_where_channel local_peak c)
  = Ok (map getw (List.filter (fun x => channel_ind (peak_of x) =? Z.of_nat c) items)).
Proof.
  rewrite np_where_channel_items.
  apply (take_where_map (fun x => channel_ind (peak_of x) =? Z.of_nat c) getw items []).
Qed.

(** [a[idx] = vals] for the indices of the peaks of one channel. *)
Lemma scatter_channel {A} (c : nat) (F g : X -> A) :
  scatter (np_where_channel local_peak c)
          (map F (List.filter (fun x => channel_ind (peak_of x) =? Z.of_nat c) items))
          (map g items)
  = map (fun x => if channel_ind (peak_of x) =? Z.of_nat c then F x else g x) items.
Proof.
  rewrite np_where_channel_items.
  apply (scatter_where_map (fun x => channel_ind (peak_of x) =? Z.of_nat c) F g items []).
Qed.

(** A loop over the channels whose turn for channel [k] writes [E] at
    the peaks of channel [k] leaves [E] at every peak that is on a
    channel and the initial value elsewhere. *)
Lemma channel_loop {A}
    (step : list A * gmap nat (list nat) -> nat -> result (list A * gmap nat (list nat)))
    (E : X -> A) (z : A) (nchan : nat) :
  (forall k g loop_idx,
     (k < nchan)%nat -> memo_ok local_peak loop_idx ->
     exists loop_idx',
       step (map g items, loop_idx) k
       = Ok (map (fun x => if channel_ind (peak_of x) =? Z.of_nat k then E x else g x)
                 items,
             loop_idx') /\
       memo_ok local_peak loop_idx') ->
  forall loop_idx,
    memo_ok local_peak loop_idx ->
    exists loop_idx',
      foldM step (seq 0 nchan) (map (fun _ => z) items, loop_idx)
      = Ok (map (fun x => if on_channel nchan (peak_of x) then E x else z) items,
            loop_idx') /\
      memo_ok local_peak loop_idx'.
Proof.
  intros Hstep.
  assert (Hgen : forall len a loop_idx,
            (a + len <= nchan)%nat -> memo_ok local_peak loop_idx ->
            exists loop_idx',
              foldM step (seq a len)
                    (map (fun x => if on_channel a (peak_of x) then E x else z) items,
                     loop_idx)
              = Ok (map (fun x => if on_channel (a + len) (peak_of x) then E x else z)
                        items,
                    loop_idx') /\
              memo_ok local_peak loop_idx').
  { induction len as [|len IH]; intros a loop_idx Hle Hm.
    - exists loop_idx. rewrite Nat.add_0_r. split; [reflexivity | exact Hm].
    - simpl.
      destruct (Hstep a (fun x => if on_channel a (peak_of x) then E x else z) loop_idx)
        as (m1 & Hs & Hm1); [lia | exact Hm|].
      rewrite Hs. simpl.
      destruct (IH (S a) m1) as (m2 & Hf & Hm2); [lia | exact Hm1|].
      exists m2. split; [|exact Hm2].
      replace (a + S len)%nat with (S a + len)%nat by lia.
      rewrite <- Hf. f_equal. f_equal. apply map_ext. intros x.
      unfold on_channel.
      destruct (Z.eqb_spec (channel_ind (peak_of x)) (Z.of_nat a)) as [He|He].
      + destruct (Z.leb_spec 0 (channel_ind (peak_of x))); [|lia].
        destruct (Z.ltb_spec (channel_ind (peak_of x)) (Z.of_nat (S a))); [|lia].
        reflexivity.
      + destruct (Z.leb_spec 0 (channel_ind (peak_of x))); simpl; [|reflexivity].
        destruct (Z.ltb_spec (channel_ind (peak_of x)) (Z.of_nat a));
          destruct (Z.ltb_spec (channel_ind (peak_of x)) (Z.of_nat (S a)));
          try lia; reflexivity. }
  intros loop_idx Hm.
  destruct (Hgen nchan 0%nat loop_idx) as (m' & Hf & Hm'); [lia | exact Hm|].
  exists m'. split; [|exact Hm'].
  simpl in Hf. rewrite <- Hf. f_equal. f_equal. apply map_ext. intros x.
  unfold on_channel.
  destruct (Z.leb_spec 0 (channel_ind (peak_of x))); [|reflexivity].
  destruct (Z.ltb_spec (channel_ind (peak_of x)) (Z.of_nat 0)); [lia | reflexivity].
Qed.

End ChannelGroups.

(** The peaks of a chunk with their windows. *)
Lemma take_peaks_channel (wf : Waveforms) (local_peak : list Peak) (c : nat) :
  length (wf_data wf) = length local_peak ->
  take_peaks wf (np_where_channel local_peak c)
  = Ok (map snd (List.filter (fun x : Peak * list (list Q) =>
                                channel_ind (fst x) =? Z.of_nat c)
                             (combine local_peak (wf_data wf)))).
Proof.
  intros Hlen. unfold take_peaks.
  rewrite <- (map_snd_combine local_peak (wf_data wf)) at 1 by (symmetry; exact Hlen).
  apply (read_channel fst (combine local_peak (wf_data wf)) local_peak).
  apply map_fst_combine. symmetry. exact Hlen.
Qed.

(** ** The windows that the engine extracts *)

Lemma mapM_length {A B} (f : A -> result B) (l : list A) (r : list B) :
  mapM f l = Ok r -> length r = length l.
Proof.
  revert r. induction l as [|a l IH]; intros r; simpl.
  - intros H. inversion H. reflexivity.
  - destruct (f a) as [b|]; simpl; [|discriminate].
    destruct (mapM f l) as [bs|]; simpl; [|discriminate].
    intros H. inversion H; subst. simpl. rewrite (IH bs eq_refl). reflexivity.
Qed.

Lemma mapM_Forall {A B} (f : A -> result B) (P : B -> Prop) (l : list A) (r : list B) :
  (forall a b, f a = Ok b -> P b) -> mapM f l = Ok r -> Forall P r.
Proof.
  intros Hf. revert r. induction l as [|a l IH]; intros r; simpl.
  - intros H. inversion H. constructor.
  - destruct (f a) as [b|] eqn:Hb; simpl; [|discriminate].
    destruct (mapM f l) as [bs|]; simpl; [|discriminate].
    intros H. inversion H; subst. constructor; [eapply Hf; exact Hb | apply IH; reflexivity].
Qed.

(** The array [wf] has one window per peak, every window has
    [wf.shape[1]] samples, and [wf.shape[2]] is the channel count of the
    buffer. *)
Lemma feature_window_shape (fp : Params) (feature : string) (traces : Traces)
    (local_peak : list Peak) (prev : option Waveforms) (wf : Waveforms) :
  feature_window fp feature traces local_peak prev = Ok wf ->
  length (wf_data wf) = length local_peak /\
  wf_channels wf = tr_channels traces /\
  Forall (fun w => length w = wf_width wf) (wf_data wf).
Proof.
  unfold feature_window, extract_waveforms.
  destruct (window_bounds fp feature prev) as [[nb na]|]; simpl; [|discriminate].
  destruct (mapM _ local_peak) as [data|] eqn:Hd; simpl; [|discriminate].
  intros H. inversion H; subst; clear H. simpl.
  split; [eapply mapM_length; exact Hd|]. split; [reflexivity|].
  eapply mapM_Forall; [|exact Hd]. intros p w Hw.
  cbv beta in Hw. eapply mapM_length. exact Hw.
Qed.

Lemma map_combine_zip_with {A B C} (f : A -> B -> C) (l : list A) (l' : list B) :
  map (fun x => f (fst x) (snd x)) (combine l l') = zip_with f l l'.
Proof.
  revert l'. induction l as [|a l IH]; intros [|b l']; simpl; try reflexivity.
  rewrite IH. reflexivity.
Qed.

Lemma set_column_first (v : list Q) :
  set_column 0 v (np_zeros2 0%Q (length v) 1) = map (fun a => [a]) v.
Proof. apply set_column_zeros. Qed.

(** ** [energy] (lines 292-301) *)

Section Energy.

Variables (np_linalg_norm : list Q -> Q) (np_sqrt : Q -> Q) (np_divide : Q -> Q -> Q).
Variables (fp : Params) (wf : Waveforms) (local_peak : list Peak).
Variables (m : list (list bool)) (nchan : nat).

Hypothesis one_window_per_peak : length (wf_data wf) = length local_peak.
Hypothesis mask : param_get fp "energy" "sparsity_mask" = Ok (VMask m).
Hypothesis mask_rows : (nchan <= length m)%nat.
Hypothesis mask_width : Forall (fun row => length row = wf_channels wf) m.

Lemma peaks_of_windows : map fst (combine local_peak (wf_data wf)) = local_peak.
Proof. apply map_fst_combine. symmetry. exact one_window_per_peak. Qed.

Lemma mask_row_energy (k : nat) :
  (k < nchan)%nat ->
  mask_row fp "energy" k = Ok (nth k m []) /\ length (nth k m []) = wf_channels wf.
Proof.
  intros Hk. unfold mask_row. rewrite mask. simpl.
  destruct (lookup_lt_is_Some_2 m k ltac:(lia)) as [row Hrow].
  unfold index_row. rewrite Hrow.
  rewrite (nth_lookup_Some _ _ [] _ Hrow). split; [reflexivity|].
  rewrite List.Forall_forall in mask_width. apply mask_width.
  apply list_elem_of_In. eapply list_elem_of_lookup_2. exact Hrow.
Qed.

Lemma energy_step_spec (k : nat) (g : Peak * list (list Q) -> Q)
    (loop_idx : gmap nat (list nat)) :
  (k < nchan)%nat -> memo_ok local_peak loop_idx ->
  exists loop_idx',
    energy_step np_linalg_norm np_sqrt np_divide fp "energy" wf local_peak
      (map g (combine local_peak (wf_data wf)), loop_idx) k
    = Ok (map (fun x => if channel_ind (fst x) =? Z.of_nat k
                        then peak_energy np_linalg_norm np_sqrt np_divide m nchan
                               (fst x) (snd x)
                        else g x)
              (combine local_peak (wf_data wf)),
          loop_idx') /\
    memo_ok local_peak loop_idx'.
Proof.
  intros Hk Hm. unfold energy_step. simpl.
  destruct (channel_group_spec local_peak loop_idx k Hm) as [Hidx Hm'].
  destruct (channel_group local_peak loop_idx k) as [idx memo'] eqn:Hcg.
  simpl in Hidx, Hm'. subst idx.
  destruct (mask_row_energy k Hk) as [Hrow Hlen]. rewrite Hrow. simpl.
  rewrite (take_peaks_channel wf local_peak k one_window_per_peak). simpl.
  unfold mul_mask_ok. rewrite Hlen, Nat.eqb_refl. simpl.
  exists memo'. split; [|exact Hm'].
  rewrite !map_map.
  rewrite (scatter_channel fst (combine local_peak (wf_data wf)) local_peak
             peaks_of_windows k
             (fun x => np_divide
                         (np_linalg_norm (concat (map (mul_mask (nth k m [])) (snd x))))
                         (np_sqrt (inject_Z (Z.of_nat (count_true (nth k m []))))))).
  do 2 f_equal. apply map_ext. intros x.
  destruct (Z.eqb_spec (channel_ind (fst x)) (Z.of_nat k)) as [He|He]; [|reflexivity].
  unfold peak_energy, on_channel, peak_mask. rewrite He, Nat2Z.id.
  destruct (Z.leb_spec 0 (Z.of_nat k)); [|lia].
  destruct (Z.ltb_spec (Z.of_nat k) (Z.of_nat nchan)); [|lia]. reflexivity.
Qed.

Lemma energy_loop (loop_idx : gmap nat (list nat)) :
  memo_ok local_peak loop_idx ->
  exists loop_idx',
    foldM (energy_step np_linalg_norm np_sqrt np_divide fp "energy" wf local_peak)
          (seq 0 nchan) (repeat 0%Q (length local_peak), loop_idx)
    = Ok (zip_with (peak_energy np_linalg_norm np_sqrt np_divide m nchan)
                   local_peak (wf_data wf),
          loop_idx') /\
    memo_ok local_peak loop_idx'.
Proof.
  intros Hm.
  destruct (channel_loop fst (combine local_peak (wf_data wf)) local_peak
              (energy_step np_linalg_norm np_sqrt np_divide fp "energy" wf local_peak)
              (fun x => peak_energy np_linalg_norm np_sqrt np_divide m nchan
                          (fst x) (snd x))
              0%Q nchan energy_step_spec loop_idx Hm) as (memo' & Hf & Hm').
  exists memo'. split; [|exact Hm'].
  rewrite <- map_combine_zip_with.
  replace (repeat 0%Q (length local_peak))
    with (map (fun _ : Peak * list (list Q) => 0%Q) (combine local_peak (wf_data wf))).
  - rewrite Hf. do 2 f_equal. apply map_ext. intros x.
    unfold peak_energy. destruct (on_channel nchan (fst x)); reflexivity.
  - rewrite <- repeat_as_map. f_equal. rewrite length_combine. lia.
Qed.

End Energy.

Lemma memo_ok_empty (local_peak : list Peak) : memo_ok local_peak ∅.
Proof. intros c idx H. rewrite lookup_empty in H. discriminate. Qed.

(** X20.  [energy] alone in scalar mode: when the mask of [energy] has
    a row for every channel of the buffer, each with one entry per
    channel, the engine returns one value per peak, computed from the
    window and the channel of that peak alone: the norm of the window
    with the channels outside the neighbourhood of the peak's channel
    set to zero, divided by the square root of the size of that
    neighbourhood.  A peak whose channel index is not a channel of the
    buffer gets zero. *)
Theorem energy_is_computed_peak_by_peak
    (np_linalg_norm : list Q -> Q) (np_sqrt : Q -> Q) (np_divide : Q -> Q -> Q)
    (fp : Params) (traces : Traces) (local_peak : list Peak) (wf : Waveforms)
    (m : list (list bool)) :
  p_one_feature_per_peak fp = true ->
  feature_window fp "energy" traces local_peak None = Ok wf ->
  param_get fp "energy" "sparsity_mask" = Ok (VMask m) ->
  (tr_channels traces <= length m)%nat ->
  Forall (fun row => length row = tr_channels traces) m ->
  compute_features np_linalg_norm np_sqrt np_divide traces local_peak ["energy"] fp
  = Ok (Tensor2 1
          (zip_with (fun p w => [peak_energy np_linalg_norm np_sqrt np_divide m
                                   (tr_channels traces) p w])
                    local_peak (wf_data wf))).
Proof.
  intros Hmode Hwf Hmask Hrows Hwidth.
  destruct (feature_window_shape _ _ _ _ _ _ Hwf) as (Hlen & Hchan & _).
  rewrite <- Hchan in Hwidth.
  unfold compute_features, allocate_output. rewrite Hmode. simpl.
  unfold feature_step. simpl. rewrite Hwf. simpl.
  unfold feature_values. simpl.
  destruct (energy_loop np_linalg_norm np_sqrt np_divide fp wf local_peak m
              (tr_channels traces) Hlen Hmask Hrows Hwidth ∅ (memo_ok_empty local_peak))
    as (memo' & Hloop & _).
  rewrite Hloop. simpl.
  set (v := zip_with (peak_energy np_linalg_norm np_sqrt np_divide m (tr_channels traces))
                     local_peak (wf_data wf)).
  assert (Hv : length v = length local_peak).
  { unfold v. rewrite length_zip_with. lia. }
  assert (Hz : length (np_zeros2 0%Q (length local_peak) 1) = length local_peak)
    by apply repeat_length.
  rewrite Hz.
  unfold broadcast_ok, broadcast_row. rewrite Hv, Nat.eqb_refl. simpl.
  rewrite <- Hv, set_column_first. do 2 f_equal.
  unfold v. rewrite <- !map_combine_zip_with, map_map. reflexivity.
Qed.

(** ** Peak-to-peak amplitudes on the neighbours of a channel *)

Lemma map_nth_seq {A B} (G : A -> B) (l : list A) (d : A) :
  map (fun j => G (nth j l d)) (seq 0 (length l)) = map G l.
Proof.
  assert (Hgen : forall pre,
            map (fun j => G (nth j (pre ++ l)%list d)) (seq (length pre) (length l))
            = map G l).
  { induction l as [|x l IH]; intros pre; simpl; [reflexivity|].
    rewrite app_nth2 by lia. rewrite Nat.sub_diag. simpl. f_equal.
    specialize (IH (pre ++ [x])%list). rewrite length_app in IH. simpl in IH.
    rewrite Nat.add_1_r, <- app_assoc in IH. exact IH. }
  apply (Hgen []).
Qed.

Lemma column_of_selection (chan_inds : list nat) (w : list (list Q)) (j : nat) :
  (j < length chan_inds)%nat ->
  column j (map (fun row => map (fun c => nth c row 0%Q) chan_inds) w)
  = column (nth j chan_inds 0%nat) w.
Proof.
  intros Hj. unfold column. rewrite map_map. apply map_ext. intros row.
  rewrite (nth_indep _ 0%Q (nth 0%nat row 0%Q)) by (rewrite length_map; exact Hj).
  rewrite (map_nth (fun c => nth c row 0%Q)).
  f_equal.
Qed.

Lemma window_ptps (chan_inds : list nat) (w : list (list Q)) :
  w <> [] ->
  mapM (fun j =>
          let* hi := reduce np_maximum
                       (column j (map (fun row => map (fun c => nth c row 0%Q) chan_inds) w)) in
          let* lo := reduce np_minimum
                       (column j (map (fun row => map (fun c => nth c row 0%Q) chan_inds) w)) in
          Ok (hi - lo)%Q)
       (seq 0 (length chan_inds))
  = Ok (neighbour_ptps chan_inds w).
Proof.
  intros Hw.
  rewrite (mapM_pointwise _
             (fun j => (fold1 np_maximum (column (nth j chan_inds 0%nat) w)
                        - fold1 np_minimum (column (nth j chan_inds 0%nat) w))%Q)).
  - f_equal. unfold neighbour_ptps.
    apply (map_nth_seq (fun c => (fold1 np_maximum (column c w)
                                  - fold1 np_minimum (column c w))%Q)).
  - intros j Hj. apply in_seq in Hj.
    rewrite column_of_selection by lia.
    rewrite !reduce_fold1; [reflexivity| |];
      apply nonempty_length; rewrite column_length; destruct w; simpl; [congruence|lia|congruence|lia].
Qed.

Lemma mapM_map_values {A B C} (f : B -> result C) (g : A -> C) (h : A -> B)
    (l : list A) :
  (forall a, In a l -> f (h a) = Ok (g a)) -> mapM f (map h l) = Ok (map g l).
Proof.
  induction l as [|a l IH]; intros H; simpl; [reflexivity|].
  rewrite (H a) by (left; reflexivity). simpl.
  rewrite IH by (intros; apply H; right; assumption). reflexivity.
Qed.

Section Neighbours.

Context {X : Type}.
Variables (peak_of : X -> Peak) (window_of : X -> list (list Q)) (items : list X).
Variables (wf : Waveforms) (local_peak : list Peak).
Hypothesis peaks_of_items : map peak_of items = local_peak.
Hypothesis windows_of_items : map window_of items = wf_data wf.
Hypothesis window_lengths : Forall (fun w => length w = wf_width wf) (wf_data wf).
Hypothesis some_sample : wf_width wf <> 0%nat.

Lemma neighbour_ptp_channel (c : nat) (chan_inds : list nat) :
  Forall (fun k => (k < wf_channels wf)%nat) chan_inds ->
  neighbour_ptp wf (np_where_channel local_peak c) chan_inds
  = Ok (map (fun x => neighbour_ptps chan_inds (window_of x))
            (List.filter (fun x => channel_ind (peak_of x) =? Z.of_nat c) items)).
Proof.
  intros Hinds. unfold neighbour_ptp, take_peaks.
  rewrite <- windows_of_items.
  rewrite (read_channel peak_of items local_peak peaks_of_items window_of c). simpl.
  replace (forallb (fun k => (k <? wf_channels wf)%nat) chan_inds) with true.
  2: { symmetry. apply forallb_forall. intros k Hk.
       rewrite List.Forall_forall in Hinds. apply Nat.ltb_lt, Hinds, Hk. }
  unfold np_ptp_axis1. simpl.
  destruct (Nat.eqb_spec (wf_width wf) 0); [contradiction|].
  rewrite !map_map.
  apply mapM_map_values.
  intros x Hx. cbv beta.
  apply window_ptps.
  apply filter_In in Hx as [Hx _].
  assert (Hin : In (window_of x) (wf_data wf)).
  { rewrite <- windows_of_items. apply in_map. exact Hx. }
  rewrite List.Forall_forall in window_lengths. specialize (window_lengths _ Hin).
  destruct (window_of x); simpl in *; [congruence | discriminate].
Qed.

End Neighbours.

(** ** [com] (lines 303-315) *)

Lemma mask_row_of (fp : Params) (feature : string) (m : list (list bool))
    (width nchan k : nat) :
  param_get fp feature "sparsity_mask" = Ok (VMask m) ->
  (nchan <= length m)%nat ->
  Forall (fun row => length row = width) m ->
  (k < nchan)%nat ->
  mask_row fp feature k = Ok (nth k m []) /\ length (nth k m []) = width.
Proof.
  intros Hmask Hrows Hwidth Hk. unfold mask_row. rewrite Hmask. simpl.
  destruct (lookup_lt_is_Some_2 m k ltac:(lia)) as [row Hrow].
  unfold index_row. rewrite Hrow.
  rewrite (nth_lookup_Some _ _ [] _ Hrow). split; [reflexivity|].
  rewrite List.Forall_forall in Hwidth. apply Hwidth.
  apply list_elem_of_In. eapply list_elem_of_lookup_2. exact Hrow.
Qed.

Lemma nonzero_below (row : list bool) :
  Forall (fun k => (k < length row)%nat) (np_nonzero row).
Proof.
  apply List.Forall_forall. intros k Hk. apply nonzero_from_bound in Hk. lia.
Qed.

Lemma neighbour_locations_read (chan_locs : list (list Q)) (chan_inds : list nat) :
  Forall (fun k => (k < length chan_locs)%nat) chan_inds ->
  mapM (index_row chan_locs) chan_inds = Ok (neighbour_locations chan_locs chan_inds).
Proof.
  intros H. apply mapM_pointwise. intros c Hc.
  rewrite List.Forall_forall in H. specialize (H c Hc).
  destruct (lookup_lt_is_Some_2 chan_locs c H) as [row Hrow].
  unfold index_row. rewrite Hrow. rewrite (nth_lookup_Some _ _ [] _ Hrow). reflexivity.
Qed.

Section Com.

Variables (np_linalg_norm : list Q -> Q) (np_sqrt : Q -> Q) (np_divide : Q -> Q -> Q).
Variables (fp : Params) (wf : Waveforms) (local_peak : list Peak).
Variables (m : list (list bool)) (chan_locs : list (list Q)) (nb_com_dims nchan : nat).

Hypothesis one_window_per_peak : length (wf_data wf) = length local_peak.
Hypothesis window_lengths : Forall (fun w => length w = wf_width wf) (wf_data wf).
Hypothesis some_sample : wf_width wf <> 0%nat.
Hypothesis mask : param_get fp "com" "sparsity_mask" = Ok (VMask m).
Hypothesis mask_rows : (nchan <= length m)%nat.
Hypothesis mask_width : Forall (fun row => length row = wf_channels wf) m.
Hypothesis locations : p_chan_locs fp = Some chan_locs.
Hypothesis location_rows : (wf_channels wf <= length chan_locs)%nat.
Hypothesis dims_fit : broadcast_ok (ncols2 chan_locs) nb_com_dims = true.

Lemma com_step_spec (k : nat) (g : Peak * list (list Q) -> list Q)
    (loop_idx : gmap nat (list nat)) :
  (k < nchan)%nat -> memo_ok local_peak loop_idx ->
  exists loop_idx',
    com_step np_divide fp "com" wf local_peak nb_com_dims
      (map g (combine local_peak (wf_data wf)), loop_idx) k
    = Ok (map (fun x => if channel_ind (fst x) =? Z.of_nat k
                        then peak_com np_divide m chan_locs nb_com_dims nchan
                               (fst x) (snd x)
                        else g x)
              (combine local_peak (wf_data wf)),
          loop_idx') /\
    memo_ok local_peak loop_idx'.
Proof.
  intros Hk Hm. unfold com_step. simpl.
  destruct (channel_group_spec local_peak loop_idx k Hm) as [Hidx Hm'].
  destruct (channel_group local_peak loop_idx k) as [idx memo'] eqn:Hcg.
  simpl in Hidx, Hm'. subst idx.
  destruct (mask_row_of fp "com" m (wf_channels wf) nchan k mask mask_rows mask_width Hk)
    as [Hrow Hlen].
  rewrite Hrow. simpl.
  unfold get_chan_locs. rewrite locations. simpl.
  assert (Hinds : Forall (fun c => (c < wf_channels wf)%nat) (np_nonzero (nth k m []))).
  { rewrite <- Hlen. apply nonzero_below. }
  rewrite neighbour_locations_read.
  2: { eapply List.Forall_impl; [|exact Hinds]. intros c Hc. simpl in Hc. lia. }
  simpl.
  rewrite (neighbour_ptp_channel fst snd (combine local_peak (wf_data wf)) wf local_peak
             (peaks_of_windows wf local_peak one_window_per_peak)
             (map_snd_combine local_peak (wf_data wf) (eq_sym one_window_per_peak))
             window_lengths some_sample k _ Hinds).
  simpl. rewrite dims_fit.
  exists memo'. split; [|exact Hm'].
  rewrite !map_map.
  rewrite (scatter_channel fst (combine local_peak (wf_data wf)) local_peak
             (peaks_of_windows wf local_peak one_window_per_peak) k
             (fun x => broadcast_row (ncols2 chan_locs) nb_com_dims
                         (map (fun num =>
                                 np_divide num
                                   (np_sum (neighbour_ptps (np_nonzero (nth k m [])) (snd x))))
                              (dot_row (ncols2 chan_locs)
                                 (neighbour_ptps (np_nonzero (nth k m [])) (snd x))
                                 (neighbour_locations chan_locs
                                    (np_nonzero (nth k m []))))))).
  do 2 f_equal. apply map_ext. intros x.
  destruct (Z.eqb_spec (channel_ind (fst x)) (Z.of_nat k)) as [He|He]; [|reflexivity].
  unfold peak_com, on_channel, peak_mask. rewrite He, Nat2Z.id.
  destruct (Z.leb_spec 0 (Z.of_nat k)); [|lia].
  destruct (Z.ltb_spec (Z.of_nat k) (Z.of_nat nchan)); [|lia]. reflexivity.
Qed.

Lemma com_loop (loop_idx : gmap nat (list nat)) :
  memo_ok local_peak loop_idx ->
  exists loop_idx',
    foldM (com_step np_divide fp "com" wf local_peak nb_com_dims)
          (seq 0 nchan)
          (repeat (repeat 0%Q nb_com_dims) (length local_peak), loop_idx)
    = Ok (zip_with (peak_com np_divide m chan_locs nb_com_dims nchan)
                   local_peak (wf_data wf),
          loop_idx') /\
    memo_ok local_peak loop_idx'.
Proof.
  intros Hm.
  destruct (channel_loop fst (combine local_peak (wf_data wf)) local_peak
              (com_step np_divide fp "com" wf local_peak nb_com_dims)
              (fun x => peak_com np_divide m chan_locs nb_com_dims nchan (fst x) (snd x))
              (repeat 0%Q nb_com_dims) nchan com_step_spec loop_idx Hm)
    as (memo' & Hf & Hm').
  exists memo'. split; [|exact Hm'].
  rewrite <- map_combine_zip_with.
  replace (repeat (repeat 0%Q nb_com_dims) (length local_peak))
    with (map (fun _ : Peak * list (list Q) => repeat 0%Q nb_com_dims)
              (combine local_peak (wf_data wf))).
  - rewrite Hf. do 2 f_equal. apply map_ext. intros x.
    unfold peak_com. destruct (on_channel nchan (fst x)); reflexivity.
  - rewrite <- repeat_as_map. f_equal. rewrite length_combine. lia.
Qed.

End Com.

Lemma peak_com_length (np_divide : Q -> Q -> Q) (m : list (list bool))
    (chan_locs : list (list Q)) (nb_com_dims nchan : nat) (p : Peak)
    (w : list (list Q)) :
  length (peak_com np_divide m chan_locs nb_com_dims nchan p w) = nb_com_dims.
Proof.
  unfold peak_com. destruct (on_channel nchan p); [|apply repeat_length].
  unfold broadcast_row.
  destruct (Nat.eqb_spec (ncols2 chan_locs) nb_com_dims) as [He|He].
  - rewrite length_map. unfold dot_row. rewrite length_map, length_seq. exact He.
  - apply repeat_length.
Qed.

Lemma set_columns_all (n : nat) (block : list (list Q)) :
  Forall (fun b => length b = n) block ->
  set_columns 0 n block (np_zeros2 0%Q (length block) n) = block.
Proof.
  unfold set_columns, np_zeros2.
  induction 1 as [|b block Hb _ IH]; simpl; [reflexivity|].
  rewrite skipn_all2 by (rewrite repeat_length; lia).
  rewrite app_nil_r. f_equal. exact IH.
Qed.


(** ** [dist_com_vs_max_ptp_channel] (lines 317-331) *)

Lemma argmax_from_bound (l : list Q) (best : Q) (best_i i : nat) :
  (best_i < i)%nat -> (argmax_from best best_i i l < i + length l)%nat.
Proof.
  revert best best_i i. induction l as [|x l IH]; intros best best_i i Hi; simpl; [lia|].
  destruct (Qle_bool x best).
  - specialize (IH best best_i (S i) ltac:(lia)). lia.
  - specialize (IH x i (S i) ltac:(lia)). lia.
Qed.

Lemma np_argmax_nonempty (l : list Q) :
  l <> [] -> np_argmax l = Ok (argmax_of l) /\ (argmax_of l < length l)%nat.
Proof.
  destruct l as [|x l]; [congruence|]. intros _. unfold argmax_of. simpl.
  split; [reflexivity|].
  pose proof (argmax_from_bound l x 0%nat 1%nat ltac:(lia)). lia.
Qed.

Lemma sub_rows_fits (a b : list Q) :
  sub_ok (length a) (length b) = true -> sub_rows a b = Ok (row_difference a b).
Proof.
  unfold sub_ok, row_difference, sub_rows. intros H.
  destruct (Nat.eqb_spec (length a) (length b)); [reflexivity|]. simpl in H.
  destruct a as [|x [|x' a]]; destruct b as [|y [|y' b]]; simpl in *;
    try reflexivity; try discriminate; try lia.
Qed.

Lemma combine_map_same {A B C} (f : A -> B) (g : A -> C) (l : list A) :
  combine (map f l) (map g l) = map (fun x => (f x, g x)) l.
Proof. induction l as [|a l IH]; simpl; [reflexivity|]. rewrite IH. reflexivity. Qed.

Lemma neighbour_locations_row (chan_locs : list (list Q)) (chan_inds : list nat)
    (d j : nat) :
  Forall (fun r => length r = d) chan_locs ->
  Forall (fun k => (k < length chan_locs)%nat) chan_inds ->
  (j < length chan_inds)%nat ->
  index_row (neighbour_locations chan_locs chan_inds) j
    = Ok (nth j (neighbour_locations chan_locs chan_inds) []) /\
  length (nth j (neighbour_locations chan_locs chan_inds) []) = d.
Proof.
  intros Hrect Hinds Hj. unfold neighbour_locations.
  assert (Hl : (j < length (map (fun c => nth c chan_locs []) chan_inds))%nat)
    by (rewrite length_map; exact Hj).
  destruct (lookup_lt_is_Some_2 _ j Hl) as [row Hrow].
  unfold index_row. rewrite Hrow. rewrite (nth_lookup_Some _ _ [] _ Hrow).
  split; [reflexivity|].
  apply list_lookup_fmap_Some in Hrow as (c & -> & Hc).
  rewrite List.Forall_forall in Hrect, Hinds.
  apply Hrect. apply nth_In. apply Hinds.
  apply list_elem_of_In. eapply list_elem_of_lookup_2. exact Hc.
Qed.

Section Dist.

Variables (np_linalg_norm : list Q -> Q).
Variables (fp : Params) (wf : Waveforms) (local_peak : list Peak).
Variables (m : list (list bool)) (chan_locs : list (list Q)) (nb_com_dims nchan : nat).
Variables (ncols com_start : nat) (rows : list (list Q)).

Hypothesis one_window_per_peak : length (wf_data wf) = length local_peak.
Hypothesis one_row_per_peak : length rows = length local_peak.
Hypothesis row_lengths : Forall (fun r => length r = ncols) rows.
Hypothesis window_lengths : Forall (fun w => length w = wf_width wf) (wf_data wf).
Hypothesis some_sample : wf_width wf <> 0%nat.
Hypothesis mask : param_get fp "dist_com_vs_max_ptp_channel" "sparsity_mask" = Ok (VMask m).
Hypothesis mask_rows : (nchan <= length m)%nat.
Hypothesis mask_width : Forall (fun row => length row = wf_channels wf) m.
Hypothesis some_neighbour : forall k, (k < nchan)%nat -> np_nonzero (nth k m []) <> [].
Hypothesis locations : p_chan_locs fp = Some chan_locs.
Hypothesis location_rows : (wf_channels wf <= length chan_locs)%nat.
Hypothesis location_width : Forall (fun r => length r = ncols2 chan_locs) chan_locs.
Hypothesis dims : p_nb_com_dims fp = Some nb_com_dims.
Hypothesis com_inside : (com_start + nb_com_dims <= ncols)%nat.
Hypothesis dims_fit : sub_ok (ncols2 chan_locs) nb_com_dims = true.

Local Abbreviation items := (combine (combine local_peak (wf_data wf)) rows).

Lemma peaks_of_rows : map (fun x : Peak * list (list Q) * list Q => fst (fst x)) items
                      = local_peak.
Proof.
  rewrite <- (map_map fst fst), map_fst_combine.
  - apply map_fst_combine. symmetry. exact one_window_per_peak.
  - rewrite length_combine. lia.
Qed.

Lemma windows_of_rows : map (fun x : Peak * list (list Q) * list Q => snd (fst x)) items
                        = wf_data wf.
Proof.
  rewrite <- (map_map fst snd), map_fst_combine.
  - apply map_snd_combine. symmetry. exact one_window_per_peak.
  - rewrite length_combine. lia.
Qed.

Lemma rows_of_rows : map snd items = rows.
Proof. apply map_snd_combine. rewrite length_combine. lia. Qed.

Lemma dist_step_spec (k : nat) (g : Peak * list (list Q) * list Q -> Q)
    (loop_idx : gmap nat (list nat)) :
  (k < nchan)%nat -> memo_ok local_peak loop_idx ->
  exists loop_idx',
    dist_step np_linalg_norm fp "dist_com_vs_max_ptp_channel" wf local_peak
      (Tensor2 ncols rows) (Some com_start) (map g items, loop_idx) k
    = Ok (map (fun x => if channel_ind (fst (fst x)) =? Z.of_nat k
                        then peak_dist np_linalg_norm m chan_locs nchan
                               (fst (fst x)) (snd (fst x))
                               (slice_cols com_start (com_start + nb_com_dims) (snd x))
                        else g x)
              items,
          loop_idx') /\
    memo_ok local_peak loop_idx'.
Proof.
  intros Hk Hm. unfold dist_step. simpl.
  destruct (channel_group_spec local_peak loop_idx k Hm) as [Hidx Hm'].
  destruct (channel_group local_peak loop_idx k) as [idx memo'] eqn:Hcg.
  simpl in Hidx, Hm'. subst idx.
  destruct (mask_row_of fp _ m (wf_channels wf) nchan k mask mask_rows mask_width Hk)
    as [Hrow Hlen].
  rewrite Hrow. simpl.
  unfold get_chan_locs. rewrite locations. simpl.
  set (chan_inds := np_nonzero (nth k m [])).
  assert (Hinds : Forall (fun c => (c < wf_channels wf)%nat) chan_inds).
  { unfold chan_inds. rewrite <- Hlen. apply nonzero_below. }
  assert (Hinds' : Forall (fun c => (c < length chan_locs)%nat) chan_inds).
  { eapply List.Forall_impl; [|exact Hinds]. intros c Hc. simpl in Hc. lia. }
  rewrite neighbour_locations_read by exact Hinds'. simpl.
  rewrite (neighbour_ptp_channel (fun x : Peak * list (list Q) * list Q => fst (fst x))
             (fun x => snd (fst x)) items wf local_peak
             peaks_of_rows windows_of_rows window_lengths some_sample k _ Hinds).
  simpl.
  assert (Hne : chan_inds <> []) by (apply some_neighbour; exact Hk).
  destruct (Nat.eqb_spec (length chan_inds) 0) as [H0|H0];
    [destruct chan_inds; [congruence | discriminate]|].
  set (sel := List.filter (fun x : Peak * list (list Q) * list Q =>
                             channel_ind (fst (fst x)) =? Z.of_nat k) items).
  assert (Hptps : forall x : Peak * list (list Q) * list Q, neighbour_ptps chan_inds (snd (fst x)) <> []).
  { intros x. unfold neighbour_ptps. destruct chan_inds; [congruence | discriminate]. }
  rewrite (mapM_map_values np_argmax
             (fun x : Peak * list (list Q) * list Q => argmax_of (neighbour_ptps chan_inds (snd (fst x))))).
  2: { intros x _. apply np_argmax_nonempty. apply Hptps. }
  simpl. unfold get_nb_com_dims. rewrite dims. simpl.
  pose proof (read_channel (fun x : Peak * list (list Q) * list Q => fst (fst x))
                items local_peak peaks_of_rows snd k) as Hread.
  rewrite rows_of_rows in Hread. rewrite Hread. clear Hread.
  fold sel. simpl.
  rewrite (mapM_map_values (index_row (neighbour_locations chan_locs chan_inds))
             (fun x : Peak * list (list Q) * list Q => nth (argmax_of (neighbour_ptps chan_inds (snd (fst x))))
                           (neighbour_locations chan_locs chan_inds) [])).
  2: { intros x _.
       apply (neighbour_locations_row chan_locs chan_inds (ncols2 chan_locs));
         [exact location_width | exact Hinds'|].
       destruct (np_argmax_nonempty _ (Hptps x)) as [_ Hb].
       unfold neighbour_ptps in Hb at 2. rewrite length_map in Hb. exact Hb. }
  simpl.
  replace (Nat.min com_start ncols) with com_start by lia.
  replace (Nat.min (com_start + nb_com_dims) ncols) with (com_start + nb_com_dims)%nat
    by lia.
  replace (com_start + nb_com_dims - com_start)%nat with nb_com_dims by lia.
  rewrite dims_fit.
  rewrite map_map, combine_map_same.
  rewrite (mapM_map_values (fun ab : list Q * list Q => sub_rows (fst ab) (snd ab))
             (fun x : Peak * list (list Q) * list Q => row_difference
                         (nth (argmax_of (neighbour_ptps chan_inds (snd (fst x))))
                              (neighbour_locations chan_locs chan_inds) [])
                         (slice_cols com_start (com_start + nb_com_dims) (snd x)))).
  2: { intros x Hx. simpl. apply sub_rows_fits.
       destruct (neighbour_locations_row chan_locs chan_inds (ncols2 chan_locs)
                   (argmax_of (neighbour_ptps chan_inds (snd (fst x))))
                   location_width Hinds') as [_ Hl].
       { destruct (np_argmax_nonempty _ (Hptps x)) as [_ Hb].
         unfold neighbour_ptps in Hb at 2. rewrite length_map in Hb. exact Hb. }
       rewrite Hl.
       assert (Hrowlen : length (snd x) = ncols).
       { apply filter_In in Hx as [Hx _]. destruct x as [pw r].
         apply in_combine_r in Hx.
         rewrite List.Forall_forall in row_lengths. apply row_lengths. exact Hx. }
       unfold slice_cols. rewrite length_firstn, length_skipn, Hrowlen.
       replace (Nat.min (com_start + nb_com_dims - com_start) (ncols - com_start))
         with nb_com_dims by lia.
       exact dims_fit. }
  simpl. exists memo'. split; [|exact Hm'].
  rewrite map_map.
  rewrite (scatter_channel (fun x : Peak * list (list Q) * list Q => fst (fst x))
             items local_peak peaks_of_rows k
             (fun x => np_linalg_norm
                         (row_difference
                            (nth (argmax_of (neighbour_ptps chan_inds (snd (fst x))))
                                 (neighbour_locations chan_locs chan_inds) [])
                            (slice_cols com_start (com_start + nb_com_dims) (snd x))))).
  do 2 f_equal. apply map_ext. intros x.
  destruct (Z.eqb_spec (channel_ind (fst (fst x))) (Z.of_nat k)) as [He|He]; [|reflexivity].
  unfold peak_dist, on_channel, peak_mask. rewrite He, Nat2Z.id.
  destruct (Z.leb_spec 0 (Z.of_nat k)); [|lia].
  destruct (Z.ltb_spec (Z.of_nat k) (Z.of_nat nchan)); [|lia]. reflexivity.
Qed.

Lemma dist_loop (loop_idx : gmap nat (list nat)) :
  memo_ok local_peak loop_idx ->
  exists loop_idx',
    foldM (dist_step np_linalg_norm fp "dist_com_vs_max_ptp_channel" wf local_peak
             (Tensor2 ncols rows) (Some com_start))
          (seq 0 nchan) (repeat 0%Q (length local_peak), loop_idx)
    = Ok (map (fun x : Peak * list (list Q) * list Q =>
                 peak_dist np_linalg_norm m chan_locs nchan (fst (fst x)) (snd (fst x))
                   (slice_cols com_start (com_start + nb_com_dims) (snd x)))
              items,
          loop_idx') /\
    memo_ok local_peak loop_idx'.
Proof.
  intros Hm.
  destruct (channel_loop (fun x : Peak * list (list Q) * list Q => fst (fst x))
              items local_peak
              (dist_step np_linalg_norm fp "dist_com_vs_max_ptp_channel" wf local_peak
                 (Tensor2 ncols rows) (Some com_start))
              (fun x => peak_dist np_linalg_norm m chan_locs nchan (fst (fst x))
                          (snd (fst x))
                          (slice_cols com_start (com_start + nb_com_dims) (snd x)))
              0%Q nchan dist_step_spec loop_idx Hm) as (memo' & Hf & Hm').
  exists memo'. split; [|exact Hm'].
  replace (repeat 0%Q (length local_peak))
    with (map (fun _ : Peak * list (list Q) * list Q => 0%Q) items).
  - rewrite Hf. do 2 f_equal. apply map_ext. intros x.
    unfold peak_dist. destruct (on_channel nchan (fst (fst x))); reflexivity.
  - rewrite <- repeat_as_map. f_equal. rewrite !length_combine. lia.
Qed.

End Dist.

Lemma three_lists_as_one {A B C} (a : list A) (b : list B) (c : list C) :
  length b = length a -> length c = length a ->
  exists items : list (A * B * C),
    a = map (fun x => fst (fst x)) items /\
    b = map (fun x => snd (fst x)) items /\
    c = map snd items.
Proof.
  intros Hb Hc. exists (combine (combine a b) c).
  assert (Hab : length (combine a b) = length a) by (rewrite length_combine; lia).
  split; [|split].
  - rewrite <- (map_map fst fst), map_fst_combine by lia.
    symmetry. apply map_fst_combine. lia.
  - rewrite <- (map_map fst snd), map_fst_combine by lia.
    symmetry. apply map_snd_combine. lia.
  - symmetry. apply map_snd_combine. lia.
Qed.

Lemma set_columns_front (n : nat) (block : list (list Q)) :
  Forall (fun b => length b = n) block ->
  set_columns 0 n block (np_zeros2 0%Q (length block) (S n))
  = map (fun b => (b ++ [0%Q])%list) block.
Proof.
  unfold set_columns, np_zeros2.
  induction 1 as [|b block Hb _ IH]; simpl; [reflexivity|].
  f_equal; [|exact IH]. f_equal.
  replace (0%Q :: repeat 0%Q n) with (repeat 0%Q n ++ [0%Q])%list
    by (symmetry; apply repeat_cons).
  rewrite skipn_app, skipn_all2 by (rewrite repeat_length; lia).
  rewrite repeat_length, Nat.sub_diag. reflexivity.
Qed.

Lemma slice_front (n : nat) (b : list Q) (x : Q) :
  length b = n -> slice_cols 0 n (b ++ [x])%list = b.
Proof.
  intros Hb. unfold slice_cols. rewrite Nat.sub_0_r.
  change (drop 0 (b ++ [x])%list) with (b ++ [x])%list.
  rewrite firstn_app, firstn_all2 by lia.
  rewrite Hb, Nat.sub_diag. simpl. apply app_nil_r.
Qed.

Lemma insert_last (b : list Q) (x v : Q) :
  <[length b := v]> (b ++ [x])%list = (b ++ [v])%list.
Proof. rewrite insert_after_prefix. apply app_nil_r. Qed.


(** X20 on the two peaks of the two-channel recording, with the sum of
    absolute values and the identity standing for the norm and the
    square root. *)
Lemma energy_is_computed_peak_by_peak_witness :
  compute_features Sample.norm1 Sample.sqrt_id Qdiv Engine.whole_buffer
    Engine.buffer_peaks ["energy"] Engine.energy_params
  = Ok (Tensor2 1 [[10 # 2]; [26 # 2]]).
Proof.
  etransitivity.
  - apply (energy_is_computed_peak_by_peak Sample.norm1 Sample.sqrt_id Qdiv
             Engine.energy_params Engine.whole_buffer Engine.buffer_peaks
             Engine.windows [[true; true]; [true; true]]).
    + reflexivity.
    + vm_compute. reflexivity.
    + vm_compute. reflexivity.
    + simpl. lia.
    + constructor; [reflexivity|]. constructor; [reflexivity | constructor].
  - vm_compute. reflexivity.
Defined.



(** * Arguments that are not checked *)

(** ** A sign that is none of the three *)

(** X23.  The sign of [amplitude] is never validated.  With a sign that
    is none of [neg], [pos] and [both] and a window of at least one
    sample, the amplitude branch assigns nothing, in both modes: the
    values written for [amplitude] are those that the previous feature
    left in [features], and when [amplitude] is the only requested
    feature the chunk raises the error of an unbound local name. *)
Theorem unknown_sign_reuses_previous_values
    (np_linalg_norm : list Q -> Q) (np_sqrt : Q -> Q) (np_divide : Q -> Q -> Q)
    (fp : Params) (traces : Traces) (local_peak : list Peak) (wf : Waveforms)
    (sign : string) :
  param_get fp "amplitude" "peak_sign" = Ok (VStr sign) ->
  known_sign sign = false ->
  feature_window fp "amplitude" traces local_peak None = Ok wf ->
  wf_width wf <> 0%nat ->
  (forall com_start st,
     feature_values np_linalg_norm np_sqrt np_divide fp "amplitude" traces wf
       local_peak com_start st
     = Ok (ls_features st, ls_loop_idx st)) /\
  compute_features np_linalg_norm np_sqrt np_divide traces local_peak ["amplitude"] fp
  = Raise (NameError "features").
Proof.
  intros Hsign Hunknown Hwf Hwidth.
  unfold known_sign in Hunknown.
  apply orb_false_iff in Hunknown as [Hunknown Hboth].
  apply orb_false_iff in Hunknown as [Hneg Hpos].
  assert (Hbranch : forall features,
            amplitude_features fp "amplitude" wf local_peak features = Ok features).
  { intros features. unfold amplitude_features.
    destruct (Nat.eqb_spec (wf_width wf) 0); [contradiction|].
    rewrite Hsign. simpl. rewrite Hneg, Hpos, Hboth.
    destruct (p_one_feature_per_peak fp); reflexivity. }
  split.
  - intros com_start st. unfold feature_values. simpl. rewrite Hbranch. reflexivity.
  - unfold compute_features, allocate_output.
    destruct (p_one_feature_per_peak fp); simpl;
      unfold feature_step; simpl; rewrite Hwf; simpl;
      unfold feature_values; simpl; rewrite Hbranch; reflexivity.
Qed.

(** X23 with the sign [abs] on the two peaks of the two-channel
    recording. *)
Lemma unknown_sign_reuses_previous_values_witness :
  (forall com_start st,
     feature_values Sample.norm1 Sample.sqrt_id Qdiv Engine.abs_params "amplitude"
       Engine.whole_buffer Engine.windows Engine.buffer_peaks com_start st
     = Ok (ls_features st, ls_loop_idx st)) /\
  compute_features Sample.norm1 Sample.sqrt_id Qdiv Engine.whole_buffer
    Engine.buffer_peaks ["amplitude"] Engine.abs_params
  = Raise (NameError "features").
Proof.
  apply (unknown_sign_reuses_previous_values Sample.norm1 Sample.sqrt_id Qdiv
           Engine.abs_params Engine.whole_buffer Engine.buffer_peaks Engine.windows "abs").
  - vm_compute. reflexivity.
  - reflexivity.
  - vm_compute. reflexivity.
  - discriminate.
Defined.

(** ** The argument [smoothing] *)

Lemma resolve_params_smoothing (recording : Recording) (peaks : list Peak)
    (feature_list : list string)
    (feature_params : list (string * list (string * pyval)))
    (ms_before ms_after : Q) (one_feature_per_peak : bool)
    (smoothing smoothing' : option string) (h : heap) :
  resolve_params recording peaks feature_list feature_params ms_before ms_after
    one_feature_per_peak smoothing' h
  = match resolve_params recording peaks feature_list feature_params ms_before ms_after
            one_feature_per_peak smoothing h with
    | (h', Ok fp) => (h', Ok (with_smoothing fp smoothing'))
    | (h', Raise e) => (h', Raise e)
    end.
Proof.
  unfold resolve_params.
  destruct (apply_overrides _ _ _) as [h1 [[]|e1]]; [|reflexivity].
  destruct (check_feature_list _ _ _) as [[]|e2]; [|reflexivity].
  destruct (resolve_windows _ _ _ _ _ _) as [h2 [st|e3]]; reflexivity.
Qed.

(** X24.  The argument [smoothing] is stored in the configuration and
    never read: two calls that differ only in [smoothing] return the
    same result and leave the same module-level dictionaries. *)
Theorem smoothing_is_never_read
    (np_linalg_norm : list Q -> Q) (np_sqrt : Q -> Q) (np_divide : Q -> Q -> Q)
    (recording : Recording) (peaks : list Peak) (feature_list : list string)
    (feature_params : list (string * list (string * pyval)))
    (ms_before ms_after : Q) (one_feature_per_peak : bool)
    (smoothing smoothing' : option string) (chunks : list (nat * Z * Z)) (h : heap) :
  compute_features_from_peaks np_linalg_norm np_sqrt np_divide recording peaks
    feature_list feature_params ms_before ms_after one_feature_per_peak
    smoothing' chunks h
  = compute_features_from_peaks np_linalg_norm np_sqrt np_divide recording peaks
      feature_list feature_params ms_before ms_after one_feature_per_peak
      smoothing chunks h.
Proof.
  unfold compute_features_from_peaks.
  rewrite (resolve_params_smoothing recording peaks feature_list feature_params
             ms_before ms_after one_feature_per_peak smoothing smoothing' h).
  destruct (resolve_params recording peaks feature_list feature_params ms_before
              ms_after one_feature_per_peak smoothing h) as [h' [fp|e]]; [|reflexivity].
  destruct fp. reflexivity.
Qed.

(** * The same call twice *)

(** ** Updates of one dictionary *)

Lemma dict_update_app (d : pydict) (l l' : list (string * pyval)) :
  dict_update d (l ++ l') = dict_update (dict_update d l) l'.
Proof. unfold dict_update. apply fold_left_app. Qed.

(** A key that two dictionaries agree on, or that the update sets, reads
    the same after the update. *)
Lemma dict_update_agree (l : list (string * pyval)) (d d' : pydict) (k : string) :
  (~ In k (map fst l) -> d !! k = d' !! k) ->
  dict_update d l !! k = dict_update d' l !! k.
Proof.
  revert d d'. induction l as [|[k0 v0] l IH]; intros d d' H; simpl in *.
  - apply H. tauto.
  - apply IH. intros Hk.
    destruct (decide (k0 = k)) as [->|Hne].
    + rewrite !lookup_insert_eq. reflexivity.
    + rewrite !lookup_insert_ne by exact Hne. apply H. tauto.
Qed.

Lemma dict_update_frame (l : list (string * pyval)) (d : pydict) (k : string) :
  ~ In k (map fst l) -> dict_update d l !! k = d !! k.
Proof.
  revert d. induction l as [|[k0 v0] l IH]; intros d H; simpl in *; [reflexivity|].
  rewrite IH by tauto. apply lookup_insert_ne. tauto.
Qed.

Lemma dict_update_twice (l : list (string * pyval)) (d : pydict) :
  dict_update (dict_update d l) l = dict_update d l.
Proof.
  apply map_eq. intros k. apply dict_update_agree. apply dict_update_frame.
Qed.

(** ** Updates of the heap *)

Lemma heap_updates_lookup (ws : list (nat * list (string * pyval))) (h : heap) (a : nat) :
  heap_updates ws h !! a = (fun d => dict_update d (updates_at a ws)) <$> (h !! a).
Proof.
  revert h. induction ws as [|[a0 l0] ws IH]; intros h; simpl.
  - destruct (h !! a); reflexivity.
  - unfold heap_updates in *. simpl. rewrite IH.
    destruct (Nat.eqb_spec a0 a) as [->|Hne].
    + rewrite lookup_alter_eq. destruct (h !! a) as [d|]; simpl; [|reflexivity].
      rewrite dict_update_app. reflexivity.
    + rewrite lookup_alter_ne by exact Hne. reflexivity.
Qed.

Lemma heap_updates_app (ws ws' : list (nat * list (string * pyval))) (h : heap) :
  heap_updates (ws ++ ws') h = heap_updates ws' (heap_updates ws h).
Proof. unfold heap_updates. apply fold_left_app. Qed.

Lemma updates_at_app (a : nat) (ws ws' : list (nat * list (string * pyval))) :
  updates_at a (ws ++ ws') = (updates_at a ws ++ updates_at a ws')%list.
Proof. unfold updates_at. apply flat_map_app. Qed.

Lemma heap_updates_twice (ws : list (nat * list (string * pyval))) (h : heap) :
  heap_updates ws (heap_updates ws h) = heap_updates ws h.
Proof.
  apply map_eq. intros a. rewrite !heap_updates_lookup.
  destruct (h !! a) as [d|]; simpl; [|reflexivity].
  rewrite dict_update_twice. reflexivity.
Qed.

Lemma heap_update_one (a : nat) (l : list (string * pyval)) (h : heap) (d : pydict) :
  h !! a = Some d ->
  heap_updates [(a, l)] h = <[a := dict_update d l]> h.
Proof.
  intros Hh. apply map_eq. intros a'. unfold heap_updates. simpl.
  destruct (decide (a = a')) as [->|Hne].
  - rewrite lookup_alter_eq, lookup_insert_eq, Hh. reflexivity.
  - rewrite lookup_alter_ne, lookup_insert_ne by exact Hne. reflexivity.
Qed.

Lemma updates_at_not_read (a : nat) (ws : list (nat * list (string * pyval))) :
  Forall (fun w => Forall not_read (snd w)) ws ->
  Forall not_read (updates_at a ws).
Proof.
  induction 1 as [|[a0 l0] ws Hw _ IH]; simpl; [constructor|].
  apply Forall_app. split; [|exact IH].
  destruct (a0 =? a)%nat; [exact Hw | constructor].
Qed.

Lemma not_read_frame (l : list (string * pyval)) (d : pydict) :
  Forall not_read l -> window_reads (dict_update d l) = window_reads d.
Proof.
  intros Hl.
  assert (Hk : forall k, (k = "ms_before" \/ k = "ms_after" \/ k = "local_radius_um") ->
                         ~ In k (map fst l)).
  { intros k Hk Hin. apply in_map_iff in Hin as ([k' v] & <- & Hin).
    rewrite List.Forall_forall in Hl. destruct (Hl _ Hin) as (H1 & H2 & H3).
    simpl in *. destruct Hk as [->| [->| ->]]; tauto. }
  unfold window_reads. rewrite !dict_update_frame by (apply Hk; tauto). reflexivity.
Qed.

Lemma window_reads_update (l : list (string * pyval)) (d d' : pydict) :
  window_reads d = window_reads d' ->
  window_reads (dict_update d l) = window_reads (dict_update d' l).
Proof.
  unfold window_reads. intros H. inversion H as [[H1 H2 H3]].
  rewrite (dict_update_agree l d d' "ms_before") by (intros _; exact H1).
  rewrite (dict_update_agree l d d' "ms_after") by (intros _; exact H2).
  rewrite (dict_update_agree l d d' "local_radius_um") by (intros _; exact H3).
  reflexivity.
Qed.

Lemma same_reads_refl (h : heap) : same_reads h h.
Proof. intros a. reflexivity. Qed.

Lemma same_reads_updates (ws : list (nat * list (string * pyval))) (h h2 : heap) :
  same_reads h h2 -> same_reads (heap_updates ws h) (heap_updates ws h2).
Proof.
  intros H a. rewrite !heap_updates_lookup. specialize (H a).
  destruct (h !! a) as [d|], (h2 !! a) as [d2|]; simpl in *; try discriminate;
    [|reflexivity].
  f_equal. apply window_reads_update. congruence.
Qed.

(** ** The overrides, replayed on another heap *)

Lemma apply_overrides_replay (tbl : table)
    (fps : list (string * list (string * pyval))) (h h' : heap) :
  apply_overrides tbl fps h = (h', Ok tt) ->
  exists ws,
    forall h2, (forall a, is_Some (h !! a) -> is_Some (h2 !! a)) ->
               apply_overrides tbl fps h2 = (heap_updates ws h2, Ok tt).
Proof.
  revert h h'. induction fps as [|[key ov] fps IH]; intros h h' H; simpl in *.
  - exists []. intros h2 _. reflexivity.
  - destruct (tbl !! key) as [addr|] eqn:Ht; [|discriminate].
    destruct (h !! addr) as [d|] eqn:Hh; [|discriminate].
    destruct (IH _ _ H) as (ws & Hws).
    exists ((addr, ov) :: ws). intros h2 Hdom.
    destruct (Hdom addr) as [d2 Hd2]; [rewrite Hh; eauto|].
    rewrite Hd2. rewrite Hws.
    + change (heap_updates ((addr, ov) :: ws) h2)
        with (heap_updates ws (heap_updates [(addr, ov)] h2)).
      rewrite (heap_update_one _ _ _ _ Hd2). reflexivity.
    + intros a. destruct (decide (addr = a)) as [->|Hne].
      * rewrite !lookup_insert_eq. eauto.
      * rewrite !lookup_insert_ne by exact Hne. apply Hdom.
Qed.

(** ** The window loop, replayed on another heap *)

(** One turn of the loop, from what the entry of the feature holds. *)
Lemma resolve_feature_at (recording : Recording) (n : nat) (tbl : table)
    (f : string) (st : resolve_state) (h : heap) (addr : nat) (d : pydict)
    (vb va : pyval) (msb msa : Q) (cb ca : bool) :
  tbl !! f = Some addr -> h !! addr = Some d ->
  d !! "ms_before" = Some vb -> d !! "ms_after" = Some va ->
  pick_ms vb (rs_ms_before st) = Ok (msb, cb) ->
  pick_ms va (rs_ms_after st) = Ok (msa, ca) ->
  let nb := ms_to_samples msb (sampling_frequency recording) in
  let na := ms_to_samples msa (sampling_frequency recording) in
  let st_with chan :=
    {| rs_ms_before := msb; rs_ms_after := msa;
       rs_global_times := if cb || ca then false else rs_global_times st;
       rs_nbefore_max := if (rs_nbefore_max st <? nb) then nb else rs_nbefore_max st;
       rs_nafter_max := if (rs_nafter_max st <? na) then na else rs_nafter_max st;
       rs_chan_locs := chan;
       rs_nb_com_dims := if String.eqb f "com"
                         then Some (length (np_shape2 (channel_locations recording)))
                         else rs_nb_com_dims st |} in
  resolve_feature recording n tbl f st h
  = match d !! "local_radius_um" with
    | Some r =>
        match build_sparsity_mask recording n r with
        | Ok m =>
            (<[addr := dict_update d [("nbefore", VInt nb); ("nafter", VInt na);
                                      ("sparsity_mask", VMask m)]]> h,
             Ok (st_with (Some (channel_locations recording))))
        | Raise e =>
            (<[addr := dict_update d [("nbefore", VInt nb); ("nafter", VInt na)]]> h,
             Raise e)
        end
    | None =>
        (<[addr := dict_update d [("nbefore", VInt nb); ("nafter", VInt na)]]> h,
         Ok (st_with (rs_chan_locs st)))
    end.
Proof.
  intros Ht Hh Hvb Hva Hpb Hpa nb na st_with. unfold resolve_feature.
  rewrite (entry_get_lookup _ _ _ _ _ _ Ht Hh), Hvb. simpl. rewrite Hpb.
  fold nb.
  rewrite (entry_set_lookup _ _ _ _ _ _ _ Ht Hh).
  set (h1 := <[addr := <["nbefore" := VInt nb]> d]> h).
  assert (Hh1 : h1 !! addr = Some (<["nbefore" := VInt nb]> d)) by apply lookup_insert_eq.
  rewrite (entry_get_lookup _ _ _ _ _ _ Ht Hh1).
  rewrite lookup_insert_ne by discriminate. rewrite Hva. simpl. rewrite Hpa.
  fold na.
  rewrite (entry_set_lookup _ _ _ _ _ _ _ Ht Hh1).
  set (d2 := <["nafter" := VInt na]> (<["nbefore" := VInt nb]> d)).
  set (h2 := <[addr := d2]> h1).
  assert (Hh2 : h2 !! addr = Some d2) by apply lookup_insert_eq.
  assert (Hh2' : h2 = <[addr := d2]> h) by (unfold h2, h1; apply insert_insert_eq).
  rewrite (entry_has_lookup _ _ _ _ _ _ Ht Hh2).
  rewrite (entry_get_lookup _ _ _ _ _ _ Ht Hh2).
  assert (Hr : d2 !! "local_radius_um" = d !! "local_radius_um").
  { unfold d2. rewrite !lookup_insert_ne by discriminate. reflexivity. }
  rewrite Hr.
  destruct (d !! "local_radius_um") as [r|] eqn:Hrad.
  - rewrite bool_decide_eq_true_2 by eauto. simpl.
    destruct (build_sparsity_mask recording n r) as [m|e]; simpl.
    + rewrite (entry_set_lookup _ _ _ _ _ _ _ Ht Hh2), Hh2'.
      rewrite insert_insert_eq. reflexivity.
    + rewrite Hh2'. reflexivity.
  - rewrite bool_decide_eq_false_2 by (intros [? ?]; discriminate).
    rewrite Hh2'. reflexivity.
Qed.

Lemma resolve_feature_replay (recording : Recording) (n : nat) (tbl : table)
    (f : string) (st st' : resolve_state) (h h' : heap) :
  resolve_feature recording n tbl f st h = (h', Ok st') ->
  exists w,
    Forall not_read (snd w) /\
    forall h2, same_reads h h2 ->
               resolve_feature recording n tbl f st h2 = (heap_updates [w] h2, Ok st').
Proof.
  intros Hrun.
  destruct (resolve_feature_ok_inv _ _ _ _ _ _ _ _ Hrun)
    as (addr & d & vb & va & cb & ca & mask & Ht & Hh & Hvb & Hva & Hpb & Hpa & _).
  rewrite (resolve_feature_at recording n tbl f st h addr d vb va _ _ cb ca
             Ht Hh Hvb Hva Hpb Hpa) in Hrun.
  assert (Hother : forall h2, same_reads h h2 ->
            exists d2, h2 !! addr = Some d2 /\ window_reads d2 = window_reads d).
  { intros h2 Hs. specialize (Hs addr). rewrite Hh in Hs.
    destruct (h2 !! addr) as [d2|]; [|discriminate].
    exists d2. split; [reflexivity|]. simpl in Hs. congruence. }
  destruct (d !! "local_radius_um") as [r|] eqn:Hrad.
  - destruct (build_sparsity_mask recording n r) as [m|e] eqn:Hm; [|discriminate].
    apply pair_equal_spec in Hrun as [Hh' Hst'].
    eexists (addr, _). split.
    2: { intros h2 Hs. destruct (Hother h2 Hs) as (d2 & Hd2 & Hw).
         inversion Hw as [[H1 H2 H3]]. rewrite Hvb in H1. rewrite Hva in H2.
         rewrite (resolve_feature_at recording n tbl f st h2 addr d2 vb va _ _ cb ca
                    Ht Hd2 H1 H2 Hpb Hpa).
         rewrite H3, Hrad, Hm, Hst'. rewrite (heap_update_one _ _ _ _ Hd2). reflexivity. }
    simpl. repeat constructor; simpl; discriminate.
  - apply pair_equal_spec in Hrun as [Hh' Hst'].
    eexists (addr, _). split.
    2: { intros h2 Hs. destruct (Hother h2 Hs) as (d2 & Hd2 & Hw).
         inversion Hw as [[H1 H2 H3]]. rewrite Hvb in H1. rewrite Hva in H2.
         rewrite (resolve_feature_at recording n tbl f st h2 addr d2 vb va _ _ cb ca
                    Ht Hd2 H1 H2 Hpb Hpa).
         rewrite H3, Hrad, Hst'. rewrite (heap_update_one _ _ _ _ Hd2). reflexivity. }
    simpl. repeat constructor; simpl; discriminate.
Qed.

Lemma resolve_windows_replay (recording : Recording) (n : nat) (tbl : table)
    (fl : list string) (st st' : resolve_state) (h h' : heap) :
  resolve_windows recording n tbl fl st h = (h', Ok st') ->
  exists ws,
    Forall (fun w => Forall not_read (snd w)) ws /\
    forall h2, same_reads h h2 ->
               resolve_windows recording n tbl fl st h2 = (heap_updates ws h2, Ok st').
Proof.
  revert st h. induction fl as [|f fl IH]; intros st h H; simpl in *.
  - inversion H; subst. exists []. split; [constructor|]. intros h2 _. reflexivity.
  - destruct (resolve_feature recording n tbl f st h) as [hm [stm|e]] eqn:Hf;
      [|discriminate].
    destruct (resolve_feature_replay _ _ _ _ _ _ _ _ Hf) as (w & Hw & Hrep).
    destruct (IH _ _ H) as (ws & Hws & Hrest).
    exists (w :: ws). split; [constructor; assumption|].
    intros h2 Hs. rewrite (Hrep h2 Hs).
    assert (Hm : hm = heap_updates [w] h).
    { pose proof (Hrep h (same_reads_refl h)) as Hh. rewrite Hf in Hh.
      inversion Hh. reflexivity. }
    rewrite Hrest; [reflexivity|].
    rewrite Hm. apply same_reads_updates. exact Hs.
Qed.

(** ** The configuration *)

Lemma resolve_params_again (recording : Recording) (peaks : list Peak)
    (feature_list : list string)
    (feature_params : list (string * list (string * pyval)))
    (ms_before ms_after : Q) (one_feature_per_peak : bool)
    (smoothing : option string) (h h1 : heap) (p : Params) :
  resolve_params recording peaks feature_list feature_params ms_before ms_after
    one_feature_per_peak smoothing h = (h1, Ok p) ->
  resolve_params recording peaks feature_list feature_params ms_before ms_after
    one_feature_per_peak smoothing h1 = (h1, Ok p).
Proof.
  unfold resolve_params.
  destruct (apply_overrides _ feature_params h) as [ha [[]|e]] eqn:Hov; [|discriminate].
  destruct (check_feature_list _ feature_list false) as [[]|e]; [|discriminate].
  destruct (resolve_windows _ _ _ feature_list _ ha) as [hb [st|e]] eqn:Hw;
    [|discriminate].
  intros H. inversion H; subst h1; clear H.
  destruct (apply_overrides_replay _ _ _ _ Hov) as (U & HU).
  destruct (resolve_windows_replay _ _ _ _ _ _ _ _ Hw) as (W & HW & HWrep).
  assert (Ha : ha = heap_updates U h).
  { pose proof (HU h (fun a H => H)) as E. rewrite Hov in E. inversion E. reflexivity. }
  assert (Hb : hb = heap_updates (U ++ W) h).
  { pose proof (HWrep ha (same_reads_refl ha)) as E. rewrite Hw in E.
    apply pair_equal_spec in E as [E _]. rewrite heap_updates_app, <- Ha. exact E. }
  rewrite (HU hb).
  2: { intros a Hs. rewrite Hb, heap_updates_lookup. destruct Hs as [d ->].
       simpl. eauto. }
  rewrite (HWrep (heap_updates U hb)).
  2: { intros a. rewrite Ha, Hb, !heap_updates_lookup, updates_at_app.
       destruct (h !! a) as [d|]; simpl; [|reflexivity]. f_equal.
       rewrite dict_update_app. unfold window_reads.
       assert (Hk : forall k,
                 (k = "ms_before" \/ k = "ms_after" \/ k = "local_radius_um") ->
                 dict_update d (updates_at a U) !! k
                 = dict_update (dict_update (dict_update d (updates_at a U))
                                  (updates_at a W)) (updates_at a U) !! k).
       { intros k Hk.
         rewrite <- (dict_update_twice (updates_at a U) d) at 1.
         apply dict_update_agree. intros _.
         pose proof (not_read_frame (updates_at a W) (dict_update d (updates_at a U))
                       (updates_at_not_read a W HW)) as Hfr.
         unfold window_reads in Hfr. inversion Hfr as [[H1 H2 H3]].
         destruct Hk as [->| [->| ->]]; symmetry; assumption. }
       rewrite <- !Hk by tauto. reflexivity. }
  assert (Hfix : heap_updates W (heap_updates U hb) = hb).
  { rewrite <- heap_updates_app, Hb. apply heap_updates_twice. }
  rewrite Hfix. reflexivity.
Qed.

(** X25.  A call that returned can be repeated: made again with the same
    arguments on the dictionaries that it left behind, it returns the
    same array and leaves every dictionary as it found it. *)
Theorem repeating_a_call_changes_nothing
    (np_linalg_norm : list Q -> Q) (np_sqrt : Q -> Q) (np_divide : Q -> Q -> Q)
    (recording : Recording) (peaks : list Peak) (feature_list : list string)
    (feature_params : list (string * list (string * pyval)))
    (ms_before ms_after : Q) (one_feature_per_peak : bool)
    (smoothing : option string) (chunks : list (nat * Z * Z)) (h : heap) :
  let call := compute_features_from_peaks np_linalg_norm np_sqrt np_divide recording
                peaks feature_list feature_params ms_before ms_after
                one_feature_per_peak smoothing chunks in
  is_ok (snd (call h)) = true ->
  call (fst (call h)) = call h.
Proof.
  intros call. unfold call, compute_features_from_peaks.
  destruct (resolve_params recording peaks feature_list feature_params ms_before
              ms_after one_feature_per_peak smoothing h) as [h1 [p|e]] eqn:Hr;
    [|discriminate].
  intros _. simpl. rewrite (resolve_params_again _ _ _ _ _ _ _ _ _ _ _ Hr).
  reflexivity.
Qed.

(** X25 for a call that overrides the window of [amplitude] and the key
    [nbefore] that the window loop writes. *)
Lemma repeating_a_call_changes_nothing_witness :
  let call := compute_features_from_peaks Sample.norm1 Sample.sqrt_id Qdiv
                Sample.pair_2d Sample.two_peaks ["amplitude"; "ptp"]
                [("amplitude", [("ms_before", VFloat (2 # 30)); ("nbefore", VInt 7)])]
                (1 # 30) (1 # 30) true None [(0%nat, 0, 4)] in
  snd (call initial_heap) = Ok (Tensor2 2 [[-3 # 1; 4 # 1]; [-6 # 1; 14 # 1]]) /\
  call (fst (call initial_heap)) = call initial_heap.
Proof.
  split.
  - vm_compute. reflexivity.
  - apply (repeating_a_call_changes_nothing Sample.norm1 Sample.sqrt_id Qdiv
             Sample.pair_2d Sample.two_peaks ["amplitude"; "ptp"]
             [("amplitude", [("ms_before", VFloat (2 # 30)); ("nbefore", VInt 7)])]
             (1 # 30) (1 # 30) true None [(0%nat, 0, 4)] initial_heap).
    vm_compute. reflexivity.
Defined.
